(** * A calculator's expression engine and keypad state machine

    Shallow embedding of [src/App.tsx] (the [App] component: [calculate],
    [updatePreview], the keypad handlers and the memory functions) and of
    [src/types.ts] ([HistoryItem]).

    JavaScript strings are sequences of UTF-16 code units, numbers are IEEE 754
    binary64 values (Rocq's primitive floats), regular expressions are a small
    syntax with a backtracking matcher. *)

From Stdlib Require Import Ascii String.
From Stdlib Require Import List NArith ZArith Lia Bool.
From Stdlib Require Import Floats.
From Stdlib Require Import Reals Lra.
Import ListNotations.

Set Implicit Arguments.

(** ** JavaScript strings *)

(** A string is its list of UTF-16 code units.  Every character the program
    handles lies in the Basic Multilingual Plane, so one character is one
    code unit: [×] is 215, [÷] is 247, [π] is 960 and [√] is 8730. *)
Definition jsstring := list N.

(** Decoding of UTF-8 (the encoding of this file's literals, as of the
    source file's) into code units, for sequences of one to three bytes. *)
Fixpoint utf8 (bs : list N) : jsstring :=
  match bs with
  | [] => []
  | b0 :: r0 =>
      if (b0 <? 128)%N then b0 :: utf8 r0
      else if (b0 <? 224)%N then
        match r0 with
        | b1 :: r1 => ((b0 - 192) * 64 + (b1 - 128))%N :: utf8 r1
        | [] => []
        end
      else
        match r0 with
        | b1 :: b2 :: r2 =>
            ((b0 - 224) * 4096 + (b1 - 128) * 64 + (b2 - 128))%N :: utf8 r2
        | _ => []
        end
  end.

Definition js (s : string) : jsstring :=
  utf8 (map N_of_ascii (list_ascii_of_string s)).

Definition chr (s : string) : N := hd 0%N (js s).

Fixpoint str_eqb (a b : jsstring) : bool :=
  match a, b with
  | [], [] => true
  | x :: a', y :: b' => (x =? y)%N && str_eqb a' b'
  | _, _ => false
  end.

(** [arr.includes(s)] on an array of strings. *)
Definition includes (arr : list jsstring) (s : jsstring) : bool :=
  existsb (str_eqb s) arr.

(** [s.startsWith(p)]. *)
Fixpoint startsWith (p s : jsstring) : bool :=
  match p, s with
  | [], _ => true
  | x :: p', y :: s' => (x =? y)%N && startsWith p' s'
  | _ :: _, [] => false
  end.

(** [s.endsWith(p)]. *)
Definition endsWith (p s : jsstring) : bool :=
  (length p <=? length s)%nat && str_eqb (skipn (length s - length p) s) p.

(** [s.slice(0, -n)]: the end index is [max (length s - n) 0]. *)
Definition slice_to_minus (n : nat) (s : jsstring) : jsstring :=
  firstn (length s - n) s.

(** [s.slice(n)] for [n >= 0]. *)
Definition slice_from (n : nat) (s : jsstring) : jsstring := skipn n s.

(** [c.repeat(n)] for a one character string. *)
Definition repeat_chr (c : N) (n : nat) : jsstring := repeat c n.

(** ** Regular expressions *)

(** The fragment of the regular expression syntax the program uses. *)
Inductive regex : Type :=
| rChr (c : N)                 (* a literal character *)
| rSet (cs : list N)           (* [...] *)
| rSeq (r1 r2 : regex)         (* r1 r2 *)
| rAlt (r1 r2 : regex)         (* r1|r2 *)
| rStar (r : regex)            (* r* , greedy *)
| rNot (r : regex)             (* (?!r) *)
| rEnd.                        (* $ *)

(** Backtracking matcher in continuation style: [rmatch r s k] matches [r]
    at the head of [s] and hands what is left to [k], trying the
    alternatives in the order a backtracking engine does. *)
Fixpoint rmatch (A : Type) (r : regex) (s : jsstring)
  (k : jsstring -> option A) {struct r} : option A :=
  match r with
  | rChr c =>
      match s with
      | x :: s' => if (x =? c)%N then k s' else None
      | [] => None
      end
  | rSet cs =>
      match s with
      | x :: s' => if existsb (N.eqb x) cs then k s' else None
      | [] => None
      end
  | rSeq r1 r2 => rmatch r1 s (fun s' => rmatch r2 s' k)
  | rAlt r1 r2 =>
      match rmatch r1 s k with
      | Some a => Some a
      | None => rmatch r2 s k
      end
  | rStar r1 =>
      (fix star (fuel : nat) (s0 : jsstring) {struct fuel} : option A :=
         match fuel with
         | O => k s0
         | S fuel' =>
             match rmatch r1 s0
                     (fun s' => if (length s' <? length s0)%nat
                                then star fuel' s' else None) with
             | Some a => Some a
             | None => k s0
             end
         end) (length s) s
  | rNot r1 =>
      match rmatch r1 s (fun _ => Some tt) with
      | Some _ => None
      | None => k s
      end
  | rEnd =>
      match s with
      | [] => k s
      | _ :: _ => None
      end
  end.

(** The first match of [r] that starts at the head of [s]: what follows it. *)
Definition match_here (r : regex) (s : jsstring) : option jsstring :=
  rmatch r s (fun rest => Some rest).

(** [r.test(s)]: a match starting at some index [0 .. length s]. *)
Fixpoint test (r : regex) (s : jsstring) : bool :=
  match match_here r s with
  | Some _ => true
  | None =>
      match s with
      | [] => false
      | _ :: s' => test r s'
      end
  end.

(** [s.replace(r, rep)] for a global [r] whose matches are never empty and a
    replacement text without [$]: matches are taken left to right and do not
    overlap; [skip] counts the characters of the current match still to drop. *)
Fixpoint replace_go (r : regex) (rep : jsstring) (skip : nat) (s : jsstring)
  : jsstring :=
  match s with
  | [] => []
  | c :: s' =>
      match skip with
      | S n => replace_go r rep n s'
      | O =>
          match match_here r s with
          | Some rest =>
              rep ++ replace_go r rep (length s' - length rest) s'
          | None => c :: replace_go r rep 0 s'
          end
      end
  end.

Definition replace (r : regex) (rep : jsstring) (s : jsstring) : jsstring :=
  replace_go r rep 0 s.

(** [(s.match(r) || []).length] for a global [r] that matches one character. *)
Fixpoint count_matches (r : regex) (s : jsstring) : nat :=
  match s with
  | [] => 0
  | _ :: s' =>
      match match_here r s with
      | Some _ => S (count_matches r s')
      | None => count_matches r s'
      end
  end.

(** A literal text as a regular expression ([lit] of a non-empty text). *)
Fixpoint lit_from (c : N) (cs : jsstring) : regex :=
  match cs with
  | [] => rChr c
  | d :: cs' => rSeq (rChr c) (lit_from d cs')
  end.

Definition lit (s : string) : regex :=
  match js s with
  | [] => rNot rEnd
  | c :: cs => lit_from c cs
  end.

Definition set (s : string) : regex := rSet (js s).

(** ** Numbers

    A JavaScript Number is an IEEE 754 binary64 value: a primitive [float].
    Arithmetic and comparisons are the primitive ones; conversions between
    numbers and decimal texts work on the exact value [m * 2^e] that
    [Prim2SF] exposes, as fractions of integers. *)

(** [a / b] rounded to the nearest integer, ties to the even one
    ([0 <= a], [0 < b]). *)
Definition div_half_even (a b : Z) : Z :=
  let q := (a / b)%Z in
  match (2 * (a mod b) ?= b)%Z with
  | Lt => q
  | Gt => (q + 1)%Z
  | Eq => if Z.even q then q else (q + 1)%Z
  end.

(** [a / b] rounded to the nearest integer, ties upwards. *)
Definition div_half_up (a b : Z) : Z := ((2 * a + b) / (2 * b))%Z.

(** The fraction [(a / b) / base^n] for any integer [n]. *)
Definition scale (base a b n : Z) : Z * Z :=
  if (0 <=? n)%Z then (a, (b * base ^ n)%Z) else ((a * base ^ (- n))%Z, b).

(** [floor (log2 (a / b))] for positive [a] and [b]. *)
Definition ilog2 (a b : Z) : Z :=
  let l := (Z.log2 a - Z.log2 b)%Z in
  let (n, d) := scale 2 a b l in
  if (n <? d)%Z then (l - 1)%Z else l.

(** The binary64 value nearest to [a / b] (ties to even), with sign [neg]:
    53 bits of precision, exponents of the least bit from -1074 to 971. *)
Definition round_binary64 (neg : bool) (a b : Z) : spec_float :=
  if (a <=? 0)%Z then S754_zero neg
  else
    let e := Z.max (ilog2 a b - 52) (-1074) in
    let (n, d) := scale 2 a b e in
    let m := div_half_even n d in
    let (m', e') := if (m =? 2 ^ 53)%Z then ((2 ^ 52)%Z, (e + 1)%Z) else (m, e) in
    match m' with
    | Zpos p => if (971 <? e')%Z then S754_infinity neg else S754_finite neg p e'
    | _ => S754_zero neg
    end.

Definition sf_eqb (x y : spec_float) : bool :=
  match x, y with
  | S754_zero s, S754_zero t => Bool.eqb s t
  | S754_infinity s, S754_infinity t => Bool.eqb s t
  | S754_nan, S754_nan => true
  | S754_finite s m e, S754_finite t n f =>
      Bool.eqb s t && (m =? n)%positive && (e =? f)%Z
  | _, _ => false
  end.

(** The exact value [m * 2^e] as a fraction. *)
Definition fraction_of (m : positive) (e : Z) : Z * Z := scale 2 (Zpos m) 1 (- e).

(** *** Decimal digits *)

Definition zero_chr : N := 48%N.

(** The [k] decimal digits of [s] (for [0 <= s < 10^k]), most significant
    first. *)
Fixpoint digits_of (k : nat) (s : Z) : jsstring :=
  match k with
  | O => []
  | S k' => digits_of k' (s / 10) ++ [(zero_chr + Z.to_N (s mod 10))%N]
  end.

(** The number of decimal digits of [s] ([1] for [s < 10]). *)
Fixpoint count_digits (fuel : nat) (s : Z) : nat :=
  match fuel with
  | O => 1
  | S f => if (s <? 10)%Z then 1 else S (count_digits f (s / 10))
  end.

(** The decimal representation of an integer [0 <= s]. *)
Definition decimal (s : Z) : jsstring :=
  digits_of (count_digits (Z.to_nat (Z.log2 s)) s) s.

(** The least [n] from [n0] on with [a / b < 10^n]. *)
Fixpoint exp10_search (fuel : nat) (n a b : Z) : Z :=
  match fuel with
  | O => n
  | S f =>
      let (p, q) := scale 10 a b n in
      if (p <? q)%Z then n else exp10_search f (n + 1) a b
  end.

(** The [n] with [10^(n-1) <= a / b < 10^n], for [a / b] the value of a
    finite non-zero binary64 number (between [2^-1074] and [2^1024]). *)
Definition decimal_exponent (a b : Z) : Z := exp10_search 640 (-324) a b.

(** *** Number::toString *)

(** Whether the decimal [s * 10^n] denotes the positive number [x], that is,
    rounds to it. *)
Definition reads_as (x : spec_float) (s n : Z) : bool :=
  let (p, q) := scale 10 s 1 (- n) in
  sf_eqb (round_binary64 false p q) x.

(** The digits [s], their count [k] and the exponent [n] of Number::toString:
    [s * 10^(n-k)] denotes [x = a / b] with [k] as small as possible, and is
    the closest to [x] among those.  For each [k] the two decimals of [k]
    digits around [x] are tried. *)
Fixpoint shortest (fuel : nat) (k : nat) (x : spec_float) (a b n : Z)
  : Z * nat * Z :=
  let (p, q) := scale 10 a b (n - Z.of_nat k) in
  let lo := (p / q)%Z in
  let hi := (lo + 1)%Z in
  let pick (s : Z) :=
    if (s =? 10 ^ Z.of_nat k)%Z then (1%Z, 1%nat, (n + 1)%Z) else (s, k, n) in
  match reads_as x lo (n - Z.of_nat k), reads_as x hi (n - Z.of_nat k) with
  | true, true => pick (div_half_even p q)
  | true, false => pick lo
  | false, true => pick hi
  | false, false =>
      match fuel with
      | O => pick (div_half_even p q)
      | S f => shortest f (S k) x a b n
      end
  end.

Definition exponent_text (e : Z) : jsstring :=
  if (0 <=? e)%Z then js "+" ++ decimal e else js "-" ++ decimal (- e).

(** Steps 6 to 10 of Number::toString: the text of the digits [ds] (there
    are [k] of them) with decimal exponent [n]. *)
Definition render (ds : jsstring) (k : nat) (n : Z) : jsstring :=
  if ((Z.of_nat k <=? n) && (n <=? 21))%Z then
    ds ++ repeat zero_chr (Z.to_nat (n - Z.of_nat k))
  else if ((0 <? n) && (n <=? 21))%Z then
    firstn (Z.to_nat n) ds ++ js "." ++ skipn (Z.to_nat n) ds
  else if ((-6 <? n) && (n <=? 0))%Z then
    js "0." ++ repeat zero_chr (Z.to_nat (- n)) ++ ds
  else if (k =? 1)%nat then
    ds ++ js "e" ++ exponent_text (n - 1)
  else
    firstn 1 ds ++ js "." ++ skipn 1 ds ++ js "e" ++ exponent_text (n - 1).

Definition sign_text (neg : bool) : jsstring := if neg then js "-" else [].

(** [x.toString()]. *)
Definition toString (x : float) : jsstring :=
  match Prim2SF x with
  | S754_nan => js "NaN"
  | S754_zero _ => js "0"
  | S754_infinity neg => sign_text neg ++ js "Infinity"
  | S754_finite neg m e =>
      let (a, b) := fraction_of m e in
      let '(s, k, n) :=
        shortest 20 1 (S754_finite false m e) a b (decimal_exponent a b) in
      sign_text neg ++ render (digits_of k s) k n
  end.

(** *** Number.prototype.toPrecision *)

(** Steps 10 to 13 of toPrecision: the text of the [p] digits [ds] with
    decimal exponent [e]. *)
Definition precision_text (ds : jsstring) (e : Z) (p : nat) : jsstring :=
  if ((e <? -6) || (Z.of_nat p <=? e))%Z then
    (if (p =? 1)%nat then ds else firstn 1 ds ++ js "." ++ skipn 1 ds)
    ++ js "e" ++ exponent_text e
  else if (e =? Z.of_nat p - 1)%Z then ds
  else if (0 <=? e)%Z then
    firstn (Z.to_nat (e + 1)) ds ++ js "." ++ skipn (Z.to_nat (e + 1)) ds
  else js "0." ++ repeat zero_chr (Z.to_nat (- (e + 1))) ++ ds.

(** The integer [n] of [p] digits and the exponent [e] for which
    [n * 10^(e-p+1)] is closest to [a / b], the larger [n] on a tie. *)
Definition precision_digits (a b : Z) (p : nat) : Z * Z :=
  let e := (decimal_exponent a b - 1)%Z in
  let (u, v) := scale 10 a b (e - (Z.of_nat p - 1)) in
  let n := div_half_up u v in
  if (n =? 10 ^ Z.of_nat p)%Z then ((10 ^ (Z.of_nat p - 1))%Z, (e + 1)%Z)
  else (n, e).

(** [x.toPrecision(p)] for [1 <= p <= 100]. *)
Definition toPrecision (x : float) (p : nat) : jsstring :=
  match Prim2SF x with
  | S754_nan | S754_infinity _ => toString x
  | S754_zero _ => precision_text (repeat zero_chr p) 0 p
  | S754_finite neg m e =>
      let (a, b) := fraction_of m e in
      let (n, e10) := precision_digits a b p in
      sign_text neg ++ precision_text (digits_of p n) e10 p
  end.

(** *** Reading decimal texts *)

Definition is_digit (c : N) : bool := ((48 <=? c) && (c <=? 57))%N.

Fixpoint span_digits (s : jsstring) : jsstring * jsstring :=
  match s with
  | c :: s' =>
      if is_digit c then let (d, r) := span_digits s' in (c :: d, r)
      else ([], s)
  | [] => ([], [])
  end.

Definition digits_value (ds : jsstring) : Z :=
  fold_left (fun acc c => (10 * acc + Z.of_N (c - zero_chr))%Z) ds 0%Z.

(** The mathematical value of a decimal literal. *)
Inductive decimal_value : Type :=
| DInfinity
| DFinite (mant exp10 : Z).   (* mant * 10^exp10 *)

Definition split_sign (s : jsstring) : bool * jsstring :=
  match s with
  | c :: r =>
      if (c =? chr "-")%N then (true, r)
      else if (c =? chr "+")%N then (false, r)
      else (false, s)
  | [] => (false, s)
  end.

(** ExponentPart, when there is one: [e] or [E], a sign, digits. *)
Definition exponent_part (s : jsstring) : Z * jsstring :=
  match s with
  | c :: s1 =>
      if ((c =? chr "e") || (c =? chr "E"))%N then
        let (neg, s2) := split_sign s1 in
        let (ds, r) := span_digits s2 in
        match ds with
        | [] => (0%Z, s)
        | _ :: _ => ((if neg then - digits_value ds else digits_value ds)%Z, r)
        end
      else (0%Z, s)
  | [] => (0%Z, s)
  end.

(** The longest StrUnsignedDecimalLiteral at the head of [s] and what
    follows it. *)
Definition unsigned_decimal (s : jsstring) : option (decimal_value * jsstring) :=
  if startsWith (js "Infinity") s then Some (DInfinity, skipn 8 s)
  else
    let (ip, s1) := span_digits s in
    let (fp, s2) :=
      match s1 with
      | c :: r => if (c =? chr ".")%N then span_digits r else ([], s1)
      | [] => ([], s1)
      end in
    match ip ++ fp with
    | [] => None
    | ds =>
        let (ex, s3) := exponent_part s2 in
        Some (DFinite (digits_value ds) (ex - Z.of_nat (length fp)), s3)
    end.

Definition nan : float := PrimFloat.nan.

Definition number_of (neg : bool) (d : decimal_value) : float :=
  SF2Prim
    match d with
    | DInfinity => S754_infinity neg
    | DFinite m e => let (p, q) := scale 10 m 1 (- e) in round_binary64 neg p q
    end.

(** [Number(s)] for a text without white space and in decimal notation (the
    texts [toPrecision] prints): the whole text has to be a literal. *)
Definition Number (s : jsstring) : float :=
  match s with
  | [] => 0%float
  | _ :: _ =>
      let (neg, s1) := split_sign s in
      match unsigned_decimal s1 with
      | Some (d, []) => number_of neg d
      | _ => nan
      end
  end.

(** [parseFloat(s)] for a text without leading white space: the longest
    prefix that is a literal. *)
Definition parseFloat (s : jsstring) : float :=
  let (neg, s1) := split_sign s in
  match unsigned_decimal s1 with
  | Some (d, _) => number_of neg d
  | None => nan
  end.

(** ** The application state ([src/types.ts], [App]) *)

Inductive AngleUnit : Type := deg | rad.

Record HistoryItem : Type := mkHistoryItem {
  item_expression : jsstring;
  item_result : jsstring;
  item_timestamp : Z
}.

Record State : Type := mkState {
  expression : jsstring;
  resultPreview : option jsstring;
  history : list HistoryItem;
  angleUnit : AngleUnit;
  memory : float
}.

Definition initialState : State := mkState [] None [] deg 0%float.

Definition setExpression (e : jsstring) (st : State) : State :=
  mkState e (resultPreview st) (history st) (angleUnit st) (memory st).

Definition setResultPreview (p : option jsstring) (st : State) : State :=
  mkState (expression st) p (history st) (angleUnit st) (memory st).

Definition setHistory (h : list HistoryItem) (st : State) : State :=
  mkState (expression st) (resultPreview st) h (angleUnit st) (memory st).

Definition setAngleUnit (u : AngleUnit) (st : State) : State :=
  mkState (expression st) (resultPreview st) (history st) u (memory st).

Definition setMemory (m : float) (st : State) : State :=
  mkState (expression st) (resultPreview st) (history st) (angleUnit st) m.

(** The five texts that stand for an error in the expression field. *)
Definition errorLabels : list jsstring :=
  [js "Invalid format"; js "Invalid input"; js "Can't divide by zero";
   js "Value too large"; js "Error"].

(** ** Running the generated function *)

(** What [calculate] tells apart in a value: [typeof result === 'number']
    or not. *)
Inductive JsValue : Type :=
| JsNumber (x : float)
| JsOther.

(** How [new Function(...)] followed by the call ends: with the value of
    [return <text>], or with an exception, a [SyntaxError] or another. *)
Inductive Completion : Type :=
| Return (v : JsValue)
| Throw (isSyntaxError : bool).

(** *** The arithmetic fragment of the engine

    The evaluation of [return <text>] for the texts made of decimal
    literals, [+ - * /], unary signs and parentheses.  It stands for the
    JavaScript engine in the closed examples, whose texts all lie in this
    fragment; on other texts its answer (a [SyntaxError]) is a placeholder. *)

Inductive token : Type :=
| TNum (x : float)
| TPlus | TMinus | TStar | TSlash | TLparen | TRparen.

Fixpoint tokenize (fuel : nat) (s : jsstring) : option (list token) :=
  match fuel with
  | O => match s with [] => Some [] | _ :: _ => None end
  | S f =>
      match s with
      | [] => Some []
      | c :: r =>
          let next (t : token) (rest : jsstring) :=
            option_map (cons t) (tokenize f rest) in
          if (c =? chr "+")%N then
            (if startsWith (js "+") r then None else next TPlus r)
          else if (c =? chr "-")%N then
            (if startsWith (js "-") r then None else next TMinus r)
          else if (c =? chr "*")%N then
            (if startsWith (js "*") r then None else next TStar r)
          else if (c =? chr "/")%N then
            (if startsWith (js "/") r || startsWith (js "*") r then None
             else next TSlash r)
          else if (c =? chr "(")%N then next TLparen r
          else if (c =? chr ")")%N then next TRparen r
          else if is_digit c || (c =? chr ".")%N then
            (if is_digit c && (c =? zero_chr)%N && is_digit (hd 0%N r) then None
             else
               match unsigned_decimal s with
               | Some (d, rest) =>
                   if (length rest <? length s)%nat
                   then next (TNum (number_of false d)) rest else None
               | None => None
               end)
          else None
      end
  end.

Fixpoint additive (fuel : nat) (ts : list token) : option (float * list token) :=
  match fuel with
  | O => None
  | S f =>
      match multiplicative f ts with
      | Some (v, r) => additive_rest f v r
      | None => None
      end
  end
with additive_rest (fuel : nat) (acc : float) (ts : list token)
  : option (float * list token) :=
  match fuel with
  | O => None
  | S f =>
      match ts with
      | TPlus :: r =>
          match multiplicative f r with
          | Some (v, r') => additive_rest f (acc + v)%float r'
          | None => None
          end
      | TMinus :: r =>
          match multiplicative f r with
          | Some (v, r') => additive_rest f (acc - v)%float r'
          | None => None
          end
      | _ => Some (acc, ts)
      end
  end
with multiplicative (fuel : nat) (ts : list token)
  : option (float * list token) :=
  match fuel with
  | O => None
  | S f =>
      match unary f ts with
      | Some (v, r) => multiplicative_rest f v r
      | None => None
      end
  end
with multiplicative_rest (fuel : nat) (acc : float) (ts : list token)
  : option (float * list token) :=
  match fuel with
  | O => None
  | S f =>
      match ts with
      | TStar :: r =>
          match unary f r with
          | Some (v, r') => multiplicative_rest f (acc * v)%float r'
          | None => None
          end
      | TSlash :: r =>
          match unary f r with
          | Some (v, r') => multiplicative_rest f (acc / v)%float r'
          | None => None
          end
      | _ => Some (acc, ts)
      end
  end
with unary (fuel : nat) (ts : list token) : option (float * list token) :=
  match fuel with
  | O => None
  | S f =>
      match ts with
      | TMinus :: r =>
          match unary f r with
          | Some (v, r') => Some ((- v)%float, r')
          | None => None
          end
      | TPlus :: r => unary f r
      | TNum x :: r => Some (x, r)
      | TLparen :: r =>
          match additive f r with
          | Some (v, TRparen :: r') => Some (v, r')
          | _ => None
          end
      | _ => None
      end
  end.

Definition arithmeticEngine (_ : AngleUnit) (text : jsstring) : Completion :=
  match tokenize (length text) text with
  | None => Throw true
  | Some ts =>
      match additive (8 * S (length ts)) ts with
      | Some (v, []) => Return (JsNumber v)
      | _ => Throw true
      end
  end.

(** ** The expression engine ([calculate], [updatePreview]) *)

(** The patterns of the source, in its order of appearance. *)
Definition zeroDenominator : regex :=          (* /\/0(?!\.)/ *)
  rSeq (rChr (chr "/")) (rSeq (rChr (chr "0")) (rNot (rChr (chr ".")))).

Definition zeroDecimalDenominator : regex :=   (* /\/0\.0*($|[+\-*\/])/ *)
  rSeq (lit "/0.") (rSeq (rStar (rChr (chr "0"))) (rAlt rEnd (set "+-*/"))).

Definition operatorOrFunction : regex :=       (* /[+\-×÷%^]|sin|cos|tan|log|ln|√/ *)
  rAlt (set "+-×÷%^")
    (rAlt (lit "sin") (rAlt (lit "cos") (rAlt (lit "tan")
      (rAlt (lit "log") (rAlt (lit "ln") (lit "√")))))).

Definition trailingOperator : regex :=         (* /[+\-×÷]$/ *)
  rSeq (set "+-×÷") rEnd.

Definition anOperator : regex := set "+-×÷".    (* /[+\-×÷]/ *)

Definition trailingOperatorOrParen : regex :=  (* /[+\-×÷(]$/ *)
  rSeq (set "+-×÷(") rEnd.

(** The smallest magnitude that is not shown as zero: the number [1e-12]. *)
Definition epsilon : float := 0x1.19799812dea11p-40%float.

Section Engine.

(** [runFunction u text] is lines 145 to 152 of [calculate]: the function
    built from [return <text>] and called with the three trigonometric
    wrappers of the angle unit [u] (factor [Math.PI / 180] or [1]). *)
Variable runFunction : AngleUnit -> jsstring -> Completion.

(** The chain of replacements and the closing of open parentheses. *)
Definition cleanExpr (expr : jsstring) : jsstring :=
  let c := replace (lit "×") (js "*") expr in
  let c := replace (lit "÷") (js "/") c in
  let c := replace (lit "%") (js "/100") c in
  let c := replace (lit "π") (js "Math.PI") c in
  let c := replace (lit "e") (js "Math.E") c in
  let c := replace (lit "sin(") (js "trigSin(") c in
  let c := replace (lit "cos(") (js "trigCos(") c in
  let c := replace (lit "tan(") (js "trigTan(") c in
  let c := replace (lit "log(") (js "Math.log10(") c in
  let c := replace (lit "ln(") (js "Math.log(") c in
  let c := replace (lit "√(") (js "Math.sqrt(") c in
  let c := replace (lit "^") (js "**") c in
  let openBrackets := count_matches (lit "(") c in
  let closeBrackets := count_matches (lit ")") c in
  if (closeBrackets <? openBrackets)%nat
  then c ++ repeat (chr ")") (openBrackets - closeBrackets)
  else c.

(** The text shown for a number that is neither NaN nor infinite. *)
Definition formatted (result : float) : jsstring :=
  let roundedResult := if (abs result <? epsilon)%float then 0%float else result in
  toString (Number (toPrecision roundedResult 12)).

Definition calculate (unit : AngleUnit) (expr : jsstring) : jsstring :=
  match expr with
  | [] => []
  | _ :: _ =>
      let c := cleanExpr expr in
      if test zeroDenominator c || test zeroDecimalDenominator c
      then js "Can't divide by zero"
      else
        match runFunction unit c with
        | Return JsOther => js "Invalid format"
        | Return (JsNumber result) =>
            if is_nan result then js "Invalid input"
            else if negb (is_finite result) then
              (if ((result =? infinity) || (result =? neg_infinity))%float
               then js "Value too large" else js "Error")
            else formatted result
        | Throw true => js "Invalid format"
        | Throw false => js "Error"
        end
  end.

(** The value [updatePreview] passes to [setResultPreview]. *)
Definition updatePreview (unit : AngleUnit) (expr : jsstring) : option jsstring :=
  let hasOperators := test operatorOrFunction expr in
  if hasOperators then
    let res := calculate unit expr in
    let isErrorMessage := includes errorLabels res in
    if negb isErrorMessage && negb (str_eqb res []) then Some res else None
  else None.

(** ** The keypad handlers *)

Definition isErrorLabel (prev : jsstring) : bool := includes errorLabels prev.

Definition isEmpty (s : jsstring) : bool :=
  match s with [] => true | _ :: _ => false end.

(** The operators that may start an expression. *)
Definition startingOperators : list jsstring :=
  [js "-"; js "sin("; js "cos("; js "tan("; js "log("; js "ln("; js "√(";
   js "π"; js "e"].

Definition handleInput (val : jsstring) (st : State) : State :=
  let prev := expression st in
  let isError := isErrorLabel prev in
  let next := (if isError then [] else prev) ++ val in
  setExpression next (setResultPreview (updatePreview (angleUnit st) next) st).

Definition handleOperator (op : jsstring) (st : State) : State :=
  let prev := expression st in
  let isError := isErrorLabel prev in
  let base := if isError then js "0" else prev in
  if isEmpty base && negb (includes startingOperators op) then
    setExpression base st
  else if test trailingOperator base && test anOperator op then
    setExpression (slice_to_minus 1 base ++ op) st
  else
    let next := base ++ op in
    setExpression next (setResultPreview (updatePreview (angleUnit st) next) st).

Definition handleClear (st : State) : State :=
  setResultPreview None (setExpression [] st).

Definition handleBackspace (st : State) : State :=
  let prev := expression st in
  let isError := isErrorLabel prev in
  if isError then setExpression [] (setResultPreview None st)
  else
    let next :=
      if endsWith (js "sin(") prev || endsWith (js "cos(") prev
         || endsWith (js "tan(") prev || endsWith (js "log(") prev
      then slice_to_minus 4 prev
      else if endsWith (js "ln(") prev || endsWith (js "√(") prev
      then slice_to_minus 3 prev
      else slice_to_minus 1 prev in
    setExpression next (setResultPreview (updatePreview (angleUnit st) next) st).

(** [now] is the value of [Date.now()]. *)
Definition handleEquals (now : Z) (st : State) : State :=
  if isEmpty (expression st) then st
  else
    let isErrorState := isErrorLabel (expression st) in
    if isErrorState then st
    else
      let finalResult := calculate (angleUnit st) (expression st) in
      let isErrorResult := isErrorLabel finalResult in
      if negb (isEmpty finalResult) && negb isErrorResult then
        let newItem := mkHistoryItem (expression st) finalResult now in
        setResultPreview None
          (setExpression finalResult (setHistory (history st ++ [newItem]) st))
      else if negb (isEmpty finalResult) then
        setResultPreview None (setExpression finalResult st)
      else st.

Definition handleMemoryClear (st : State) : State := setMemory 0%float st.

Definition handleMemoryRecall (st : State) : State :=
  let prev := expression st in
  let isError := isErrorLabel prev in
  let next := (if isError then [] else prev) ++ toString (memory st) in
  setExpression next (setResultPreview (updatePreview (angleUnit st) next) st).

(** [expression || '0']. *)
Definition orZero (e : jsstring) : jsstring := if isEmpty e then js "0" else e.

Definition handleMemoryAdd (st : State) : State :=
  let currentVal := calculate (angleUnit st) (orZero (expression st)) in
  if negb (isErrorLabel currentVal) && negb (str_eqb currentVal []) then
    setMemory (memory st + parseFloat currentVal)%float st
  else st.

Definition handleMemorySubtract (st : State) : State :=
  let currentVal := calculate (angleUnit st) (orZero (expression st)) in
  if negb (isErrorLabel currentVal) && negb (str_eqb currentVal []) then
    setMemory (memory st - parseFloat currentVal)%float st
  else st.

Definition clearHistory (st : State) : State := setHistory [] st.

(** The [+/-] key. *)
Definition signToggle (st : State) : State :=
  let prev := expression st in
  let isError := isErrorLabel prev in
  let base := if isError then [] else prev in
  if startsWith (js "-") base then setExpression (slice_from 1 base) st
  else if isEmpty base then setExpression (js "-") st
  else setExpression (js "-" ++ base) st.

(** The [( )] key. *)
Definition parenKey (st : State) : State :=
  let openCount := count_matches (lit "(") (expression st) in
  let closeCount := count_matches (lit ")") (expression st) in
  if (closeCount <? openCount)%nat
     && negb (test trailingOperatorOrParen (expression st))
  then handleInput (js ")") st
  else handleInput (js "(") st.

(** The angle unit key. *)
Definition toggleAngleUnit (st : State) : State :=
  setAngleUnit (match angleUnit st with deg => rad | rad => deg end) st.

(** The effect that follows a change of the expression or the angle unit. *)
Definition previewEffect (st : State) : State :=
  setResultPreview (updatePreview (angleUnit st) (expression st)) st.

(** What the display shows: [expression || '0']. *)
Definition displayText (st : State) : jsstring := orZero (expression st).

End Engine.

(** ** The outcome of an evaluation, as the specification names it *)

Inductive ErrorKind : Type :=
| InvalidFormat | InvalidInput | DivideByZero | Overflow | GenericError.

Definition label (k : ErrorKind) : jsstring :=
  match k with
  | InvalidFormat => js "Invalid format"
  | InvalidInput => js "Invalid input"
  | DivideByZero => js "Can't divide by zero"
  | Overflow => js "Value too large"
  | GenericError => js "Error"
  end.

Inductive EvaluationOutcome : Type :=
| Success (value : float)
| Failure (kind : ErrorKind).

(** The specification's [evaluate] and [classify] for a non-empty
    expression: the structural check, the evaluation, the classification of
    what it gives.  [calculate] is compared with it below. *)
Definition evaluate (run : AngleUnit -> jsstring -> Completion)
  (unit : AngleUnit) (expr : jsstring) : EvaluationOutcome :=
  let c := cleanExpr expr in
  if test zeroDenominator c || test zeroDecimalDenominator c
  then Failure DivideByZero
  else
    match run unit c with
    | Throw true => Failure InvalidFormat
    | Throw false => Failure GenericError
    | Return JsOther => Failure InvalidFormat
    | Return (JsNumber raw) =>
        if is_nan raw then Failure InvalidInput
        else if is_infinity raw then Failure Overflow
        else if negb (is_finite raw) then Failure GenericError
        else Success raw
    end.

(** The texts the preview pattern looks for. *)
Definition operatorTexts : list jsstring :=
  [js "+"; js "-"; js "×"; js "÷"; js "%"; js "^";
   js "sin"; js "cos"; js "tan"; js "log"; js "ln"; js "√"].

(** [sub] occurs in [s]. *)
Definition occurs (sub s : jsstring) : Prop :=
  exists pre post, s = pre ++ sub ++ post.

(** ** The keypad ([CalcButton] and the buttons of [App]) *)

(** [handleBtnClick] of [CalcButton]: a disabled button ignores the click
    (the click sound leaves the state alone). *)
Definition handleBtnClick (disabled : bool) (onClick : State -> State)
  (st : State) : State :=
  if disabled then st else onClick st.

Inductive Digit : Type := D0 | D1 | D2 | D3 | D4 | D5 | D6 | D7 | D8 | D9.

Definition digitText (d : Digit) : jsstring :=
  match d with
  | D0 => js "0" | D1 => js "1" | D2 => js "2" | D3 => js "3" | D4 => js "4"
  | D5 => js "5" | D6 => js "6" | D7 => js "7" | D8 => js "8" | D9 => js "9"
  end.

(** The buttons: the memory and scientific rows, the standard keypad, and
    the three plain buttons (backspace, angle unit, clear history). *)
Inductive Key : Type :=
| KeyMC | KeyMR | KeyMAdd | KeyMSubtract
| KeyAsin | KeyAcos | KeyAtan | KeyInverse
| KeySin | KeyCos | KeyTan | KeySqrt
| KeyLog | KeyLn | KeyPower | KeyPi
| KeyE | KeyOpen | KeyClose | KeyFactorial
| KeyClear | KeyParens | KeyPercent | KeyDivide
| KeyTimes | KeyMinus | KeyPlus
| KeyDigit (d : Digit)
| KeySign | KeyDot | KeyEquals
| KeyBackspace | KeyAngleUnit | KeyClearHistory.

(** The [disabled] and [onClick] properties each [CalcButton] is given;
    [now] is the value of [Date.now()] at the click. *)
Definition button (run : AngleUnit -> jsstring -> Completion) (now : Z)
  (k : Key) : bool * (State -> State) :=
  match k with
  | KeyMC => (false, handleMemoryClear)
  | KeyMR => (false, handleMemoryRecall run)
  | KeyMAdd => (false, handleMemoryAdd run)
  | KeyMSubtract => (false, handleMemorySubtract run)
  | KeyAsin | KeyAcos | KeyAtan | KeyInverse => (true, fun st => st)
  | KeySin => (false, handleOperator run (js "sin("))
  | KeyCos => (false, handleOperator run (js "cos("))
  | KeyTan => (false, handleOperator run (js "tan("))
  | KeySqrt => (false, handleOperator run (js "√("))
  | KeyLog => (false, handleOperator run (js "log("))
  | KeyLn => (false, handleOperator run (js "ln("))
  | KeyPower => (false, handleOperator run (js "^"))
  | KeyPi => (false, handleInput run (js "π"))
  | KeyE => (false, handleInput run (js "e"))
  | KeyOpen => (false, handleInput run (js "("))
  | KeyClose => (false, handleInput run (js ")"))
  | KeyFactorial => (false, fun st => st)
  | KeyClear => (false, handleClear)
  | KeyParens => (false, parenKey run)
  | KeyPercent => (false, handleOperator run (js "%"))
  | KeyDivide => (false, handleOperator run (js "÷"))
  | KeyTimes => (false, handleOperator run (js "×"))
  | KeyMinus => (false, handleOperator run (js "-"))
  | KeyPlus => (false, handleOperator run (js "+"))
  | KeyDigit d => (false, handleInput run (digitText d))
  | KeySign => (false, signToggle)
  | KeyDot => (false, handleInput run (js "."))
  | KeyEquals => (false, handleEquals run now)
  | KeyBackspace => (false, handleBackspace run)
  | KeyAngleUnit => (false, toggleAngleUnit)
  | KeyClearHistory => (false, clearHistory)
  end.

(** A click on a button. *)
Definition press (run : AngleUnit -> jsstring -> Completion) (now : Z)
  (k : Key) (st : State) : State :=
  let (disabled, onClick) := button run now k in
  handleBtnClick disabled onClick st.

(** The states the application goes through: from the initial one by
    clicks and by the effect that refreshes the preview. *)
Inductive reachable (run : AngleUnit -> jsstring -> Completion)
  : State -> Prop :=
| reach_initial : reachable run initialState
| reach_press (now : Z) (k : Key) (st : State) :
    reachable run st -> reachable run (press run now k st)
| reach_effect (st : State) :
    reachable run st -> reachable run (previewEffect run st).

(** The structural check of [calculate] on a normalised text. *)
Definition zeroDivisionCheck (c : jsstring) : bool :=
  test zeroDenominator c || test zeroDecimalDenominator c.

(** The number of occurrences of a character. *)
Definition count_chr (x : N) (s : jsstring) : nat := count_matches (rChr x) s.

Unset Implicit Arguments.

(** The loop of a starred pattern in [rmatch], by name. *)
Definition star_loop (A : Type)
  (m : jsstring -> (jsstring -> option A) -> option A)
  (k : jsstring -> option A) : nat -> jsstring -> option A :=
  fix star (fuel : nat) (s0 : jsstring) {struct fuel} : option A :=
    match fuel with
    | O => k s0
    | S fuel' =>
        match m s0 (fun s' => if (length s' <? length s0)%nat
                              then star fuel' s' else None) with
        | Some a => Some a
        | None => k s0
        end
    end.

(** What the chain of replacements of [calculate] writes for a character
    outside a function name. *)
Definition glyphText (c : N) : jsstring :=
  if (c =? chr "×")%N then js "*"
  else if (c =? chr "÷")%N then js "/"
  else if (c =? chr "%")%N then js "/100"
  else if (c =? chr "π")%N then js "Math.PI"
  else if (c =? chr "e")%N then js "Math.E"
  else if (c =? chr "^")%N then js "**"
  else [c].

(** A preview is the rendering of a finite number. *)
Definition preview_ok (st : State) : Prop :=
  forall r, resultPreview st = Some r ->
  exists x, is_finite x = true /\ r = formatted x.

(** An entry of the history records an expression and the rendering of
    the finite number the engine returned for it. *)
Definition item_ok (run : AngleUnit -> jsstring -> Completion)
  (item : HistoryItem) : Prop :=
  item_expression item <> [] /\
  isErrorLabel (item_expression item) = false /\
  zeroDivisionCheck (cleanExpr (item_expression item)) = false /\
  exists u x,
    run u (cleanExpr (item_expression item)) = Return (JsNumber x) /\
    is_finite x = true /\ item_result item = formatted x.

Definition state_ok (run : AngleUnit -> jsstring -> Completion)
  (st : State) : Prop :=
  preview_ok st /\ Forall (item_ok run) (history st).

(** Four letters that no key writes and no number is printed with; each of
    the five error texts holds one of them. *)
Definition labelLetters : jsstring := js "vCVE".

(** A text without these letters. *)
Definition keyed (s : jsstring) : Prop :=
  Forall (fun c => ~ In c labelLetters) s.

Definition keyedb (s : jsstring) : bool :=
  forallb (fun c => negb (existsb (N.eqb c) labelLetters)) s.

(** The expression is an error text as a whole, or it has none of the
    letters. *)
Definition expression_ok (st : State) : Prop :=
  isErrorLabel (expression st) = true \/ keyed (expression st).

Set Implicit Arguments.

(** A state with the expression [e] and the memory [m], for the concrete
    runs. *)
Definition stateOf (e : string) (m : float) : State :=
  mkState (js e) None [] deg m.

(** ** Exact values

    The values of numbers and of decimals as real numbers, to state how
    close the conversions are. *)

(** Powers with integer exponents. *)
Definition pw (base : Z) (n : Z) : R := powerRZ (IZR base) n.

(** The value of a fraction. *)
Definition frac (pq : Z * Z) : R := (IZR (fst pq) / IZR (snd pq))%R.

(** The value of a finite number. *)
Definition value (m : positive) (e : Z) : R := (IZR (Zpos m) * pw 2 e)%R.

(** The largest finite value. *)
Definition max_value : R := (9007199254740991 * pw 2 971)%R.

(** A text made of digits. *)
Definition all_digits (l : jsstring) : Prop := Forall (fun c => is_digit c = true) l.

(** The digits below the value at a level of [k] digits. *)
Definition lower_digits (a b n : Z) (k : nat) : Z :=
  let (p, q) := scale 10 a b (n - Z.of_nat k) in (p / q)%Z.

(** Whether one of the two decimals of [k] digits around the value denotes
    it. *)
Definition level_ok (x : spec_float) (a b n : Z) (k : nat) : bool :=
  reads_as x (lower_digits a b n k) (n - Z.of_nat k)
  || reads_as x (lower_digits a b n k + 1) (n - Z.of_nat k).

(** * Properties *)

(** ** Strings and patterns *)

Lemma str_eqb_eq (a b : jsstring) : str_eqb a b = true <-> a = b.
Proof.
  revert b; induction a as [|x a IH]; intros [|y b]; simpl; split;
    try congruence; try reflexivity.
  - intros H. apply andb_true_iff in H as [H1 H2].
    apply N.eqb_eq in H1. apply IH in H2. congruence.
  - intros H. injection H as -> ->. rewrite N.eqb_refl. simpl. now apply IH.
Qed.

Lemma str_eqb_refl (a : jsstring) : str_eqb a a = true.
Proof. now apply str_eqb_eq. Qed.

Lemma includes_In (arr : list jsstring) (s : jsstring) :
  includes arr s = true <-> In s arr.
Proof.
  unfold includes. rewrite existsb_exists. split.
  - intros (x & Hx & He). apply str_eqb_eq in He. now subst.
  - intros H. exists s. split; [assumption | apply str_eqb_refl].
Qed.

Lemma includes_false (arr : list jsstring) (s : jsstring) :
  includes arr s = false <-> ~ In s arr.
Proof.
  rewrite <- includes_In. destruct (includes arr s); split; congruence.
Qed.

Lemma startsWith_app (p r : jsstring) : startsWith p (p ++ r) = true.
Proof.
  induction p as [|x p IH]; simpl; [reflexivity|].
  now rewrite N.eqb_refl, IH.
Qed.

Lemma startsWith_inv (p s : jsstring) :
  startsWith p s = true -> s = p ++ skipn (length p) s.
Proof.
  revert s; induction p as [|x p IH]; intros [|y s]; simpl; try congruence.
  intros H. apply andb_true_iff in H as [H1 H2].
  apply N.eqb_eq in H1. subst. f_equal. now apply IH.
Qed.

Lemma endsWith_app (t p : jsstring) : endsWith p (t ++ p) = true.
Proof.
  unfold endsWith. rewrite length_app.
  replace (length t + length p - length p)%nat with (length t + 0)%nat by lia.
  rewrite skipn_app, Nat.add_0_r, skipn_all. simpl.
  replace (length t - length t)%nat with 0%nat by lia. simpl.
  rewrite str_eqb_refl, andb_true_r. apply Nat.leb_le. lia.
Qed.

Lemma slice_to_minus_app (t p : jsstring) :
  slice_to_minus (length p) (t ++ p) = t.
Proof.
  unfold slice_to_minus. rewrite length_app.
  replace (length t + length p - length p)%nat with (length t) by lia.
  rewrite firstn_app, firstn_all.
  replace (length t - length t)%nat with 0%nat by lia.
  simpl. apply app_nil_r.
Qed.

(** A literal matches exactly where the text starts with it. *)
Lemma rmatch_lit_from (A : Type) (c : N) (cs s : jsstring)
  (k : jsstring -> option A) :
  rmatch (lit_from c cs) s k =
  if startsWith (c :: cs) s then k (skipn (S (length cs)) s) else None.
Proof.
  revert c s k; induction cs as [|d cs IH]; intros c s k.
  - destruct s as [|x s]; simpl; [reflexivity|].
    rewrite (N.eqb_sym c x). now destruct (x =? c)%N.
  - destruct s as [|x s]; [reflexivity|].
    cbn [lit_from rmatch]. rewrite (N.eqb_sym x c).
    cbn [startsWith]. destruct (c =? x)%N; [|reflexivity].
    rewrite IH. reflexivity.
Qed.

Lemma rmatch_set_end (cs : list N) (s : jsstring) :
  match_here (rSeq (rSet cs) rEnd) s =
  match s with
  | [x] => if existsb (N.eqb x) cs then Some [] else None
  | _ => None
  end.
Proof.
  destruct s as [|x [|y s]]; cbn; try reflexivity;
    now destruct (existsb (N.eqb x) cs).
Qed.

(** [test] finds a match at some suffix. *)
Lemma test_true_iff (r : regex) (s : jsstring) :
  test r s = true <->
  exists pre suf, s = pre ++ suf /\ match_here r suf <> None.
Proof.
  induction s as [|x s IH].
  - cbn [test]. destruct (match_here r []) eqn:E; split.
    + intros _. exists [], []. split; [reflexivity | congruence].
    + reflexivity.
    + discriminate.
    + intros (pre & suf & H & Hm). symmetry in H.
      apply app_eq_nil in H as [-> ->]. congruence.
  - cbn [test]. destruct (match_here r (x :: s)) eqn:E; split.
    + intros _. exists [], (x :: s). split; [reflexivity | congruence].
    + reflexivity.
    + intros H. apply IH in H as (pre & suf & -> & Hm).
      exists (x :: pre), suf. split; [reflexivity | assumption].
    + intros (pre & suf & H & Hm). apply IH.
      destruct pre as [|y pre]; simpl in H.
      * subst suf. congruence.
      * injection H as -> ->. now exists pre, suf.
Qed.

Lemma test_trailing_set (cs : list N) (t : jsstring) (c : N) :
  test (rSeq (rSet cs) rEnd) (t ++ [c]) = existsb (N.eqb c) cs.
Proof.
  induction t as [|x t IH].
  - cbn. destruct (existsb (N.eqb c) cs); reflexivity.
  - change ((x :: t) ++ [c]) with (x :: (t ++ [c])).
    cbn [test]. rewrite rmatch_set_end.
    destruct (t ++ [c]) as [|y u] eqn:E.
    + now destruct t.
    + exact IH.
Qed.

(** No error label is empty, and none ends in an operator. *)
Lemma errorLabels_last (l : jsstring) :
  In l errorLabels ->
  exists t c, l = t ++ [c] /\ existsb (N.eqb c) (js "+-×÷") = false.
Proof.
  intros H. repeat destruct H as [<- | H]; try contradiction;
    match goal with
    | |- exists t c, ?l = _ /\ _ =>
        exists (removelast l), (last l 0%N); split; reflexivity
    end.
Qed.

(** The first pattern of the check finds exactly the occurrences of [/0]
    that are not followed by a dot. *)
Lemma zeroDenominator_iff (s : jsstring) :
  test zeroDenominator s = true <->
  exists pre post, s = pre ++ js "/0" ++ post /\ hd 0%N post <> chr ".".
Proof.
  rewrite test_true_iff. split.
  - intros (pre & suf & -> & H). unfold zeroDenominator, match_here in H.
    cbn [rmatch] in H.
    destruct suf as [|x [|y post]]; try congruence.
    + destruct (x =? chr "/")%N; congruence.
    + destruct (x =? chr "/")%N eqn:Ex; [|congruence].
      destruct (y =? chr "0")%N eqn:Ey; [|congruence].
      apply N.eqb_eq in Ex, Ey. subst x y.
      exists pre, post. split; [reflexivity|].
      destruct post as [|z post]; [discriminate|]. cbn [hd].
      intros ->. rewrite N.eqb_refl in H. congruence.
  - intros (pre & post & -> & H). exists pre, (js "/0" ++ post).
    split; [reflexivity|]. unfold zeroDenominator, match_here.
    change (js "/0" ++ post) with (chr "/" :: chr "0" :: post).
    cbn [rmatch]. rewrite !N.eqb_refl.
    destruct post as [|z post]; [discriminate|]. cbn [hd] in H.
    destruct (z =? chr ".")%N eqn:Ez; [|discriminate].
    apply N.eqb_eq in Ez. congruence.
Qed.

Lemma expression_setExpression (e : jsstring) (st : State) :
  expression (setExpression e st) = e.
Proof. reflexivity. Qed.

Section KeypadProperties.

Variable run : AngleUnit -> jsstring -> Completion.

(** ** The structural check for a zero denominator *)

(** The two texts the check is meant for are caught before any evaluation. *)
Lemma zero_denominators_caught (u : AngleUnit) :
  calculate run u (js "1÷0") = js "Can't divide by zero" /\
  calculate run u (js "5÷0.0") = js "Can't divide by zero".
Proof. split; reflexivity. Qed.

(** A decimal denominator, or one that is computed, passes the check. *)
Lemma other_denominators_pass :
  (test zeroDenominator (cleanExpr (js "1÷0.5"))
   || test zeroDecimalDenominator (cleanExpr (js "1÷0.5"))) = false /\
  (test zeroDenominator (cleanExpr (js "1÷(1-1)"))
   || test zeroDecimalDenominator (cleanExpr (js "1÷(1-1)"))) = false.
Proof. split; reflexivity. Qed.

(** C1, at the input that fails.  The check is [/0] not followed by a
    dot: a denominator that goes on with a digit, as in [1÷05], is reported
    as a division by zero before anything is evaluated, whatever the engine
    would answer. *)
Theorem C1_digit_after_zero_is_caught (u : AngleUnit) :
  cleanExpr (js "1÷05") = js "1/05" /\
  test zeroDenominator (js "1/05") = true /\
  calculate run u (js "1÷05") = js "Can't divide by zero".
Proof. repeat split; reflexivity. Qed.

(** A zero denominator in parentheses is missed by both patterns. *)
Lemma parenthesised_zero_missed :
  (test zeroDenominator (cleanExpr (js "(1÷0.0)"))
   || test zeroDecimalDenominator (cleanExpr (js "(1÷0.0)"))) = false.
Proof. reflexivity. Qed.

(** ** Input after an error *)

Lemma isErrorLabel_zero : isErrorLabel (js "0") = false.
Proof. reflexivity. Qed.

(** C2, amended.  On an error label, digit input, backspace, the sign key
    and memory recall act as on the empty expression; an operator key acts
    as on the expression [0], so the text becomes [0] followed by the
    operator; equals leaves the label in place. *)
Theorem C2_keys_after_error (st : State) (val op : jsstring) (now : Z) :
  isErrorLabel (expression st) = true ->
  handleInput run val st = handleInput run val (setExpression [] st) /\
  handleBackspace run st = handleBackspace run (setExpression [] st) /\
  signToggle st = signToggle (setExpression [] st) /\
  handleMemoryRecall run st = handleMemoryRecall run (setExpression [] st) /\
  handleOperator run op st = handleOperator run op (setExpression (js "0") st) /\
  expression (handleOperator run op st) = js "0" ++ op /\
  handleEquals run now st = st.
Proof.
  intros H. repeat split.
  - unfold handleInput. now rewrite H.
  - unfold handleBackspace. now rewrite H.
  - unfold signToggle. now rewrite H.
  - unfold handleMemoryRecall. now rewrite H.
  - unfold handleOperator. rewrite H, expression_setExpression.
    rewrite isErrorLabel_zero. reflexivity.
  - unfold handleOperator. rewrite H. reflexivity.
  - unfold handleEquals. rewrite H. now destruct (isEmpty (expression st)).
Qed.

(** ** Backspace *)

Lemma endsWith_inv (p s : jsstring) :
  endsWith p s = true -> exists t, s = t ++ p.
Proof.
  unfold endsWith. intros H. apply andb_true_iff in H as [_ H].
  apply str_eqb_eq in H. exists (firstn (length s - length p) s).
  rewrite <- H at 2. symmetry. apply firstn_skipn.
Qed.

(** Two texts with different ends are not the end of one text. *)
Lemma endsWith_clash (p q t : jsstring) :
  (forall a b, rev q ++ a <> rev p ++ b) ->
  endsWith p (t ++ q) = false.
Proof.
  intros H. destruct (endsWith p (t ++ q)) eqn:E; [|reflexivity].
  apply endsWith_inv in E as [t' E]. apply (f_equal (@rev N)) in E.
  rewrite !rev_app_distr in E. now apply H in E.
Qed.

Lemma not_label_paren (t : jsstring) : isErrorLabel (t ++ js "(") = false.
Proof.
  apply includes_false. intros Hin.
  assert (E : last (t ++ js "(") 0%N = chr "(") by apply last_last.
  repeat destruct Hin as [Hin | Hin]; try contradiction;
    rewrite <- Hin in E; discriminate E.
Qed.

Ltac by_ends :=
  apply endsWith_clash; intros a b; vm_compute; congruence.

(** The prefixes of four letters, and [ln(], go in one step. *)
Lemma backspace_function_prefix (st : State) (t p : jsstring) :
  In p [js "sin("; js "cos("; js "tan("; js "log("; js "ln("] ->
  expression st = t ++ p ->
  expression (handleBackspace run st) = t.
Proof.
  intros Hp He. unfold handleBackspace. rewrite He.
  assert (Hl : isErrorLabel (t ++ p) = false).
  { repeat destruct Hp as [<- | Hp]; try contradiction;
      match goal with
      | |- isErrorLabel (t ++ js ?q) = false =>
          let q' := eval vm_compute in (removelast (js q)) in
          change (js q) with (q' ++ js "("); rewrite app_assoc;
          apply not_label_paren
      end. }
  rewrite Hl, expression_setExpression.
  repeat destruct Hp as [<- | Hp]; try contradiction.
  - rewrite endsWith_app. exact (slice_to_minus_app t (js "sin(")).
  - rewrite (endsWith_app t (js "cos(")), orb_true_r.
    exact (slice_to_minus_app t (js "cos(")).
  - rewrite (endsWith_app t (js "tan(")), !orb_true_r.
    exact (slice_to_minus_app t (js "tan(")).
  - rewrite (endsWith_app t (js "log(")), !orb_true_r.
    exact (slice_to_minus_app t (js "log(")).
  - replace (endsWith (js "sin(") (t ++ js "ln(")) with false by (symmetry; by_ends).
    replace (endsWith (js "cos(") (t ++ js "ln(")) with false by (symmetry; by_ends).
    replace (endsWith (js "tan(") (t ++ js "ln(")) with false by (symmetry; by_ends).
    replace (endsWith (js "log(") (t ++ js "ln(")) with false by (symmetry; by_ends).
    rewrite (endsWith_app t (js "ln(")).
    exact (slice_to_minus_app t (js "ln(")).
Qed.

(** C5, at the input that fails.  [√(] is two characters long and is
    cut off as three: backspace on [2√(] removes the digit before the
    token as well and leaves the empty text, where the token alone would
    leave [2]. *)
Theorem C5_backspace_square_root (st : State) :
  length (js "√(") = 2%nat /\
  expression (handleBackspace run (setExpression (js "2√(") st)) = [] /\
  expression (handleBackspace run (setExpression (js "sin(") st)) = [].
Proof. repeat split; reflexivity. Qed.

(** What is not a function prefix loses one character. *)
Lemma backspace_one_character (st : State) (t : jsstring) (c : N) :
  expression st = t ++ [c] ->
  isErrorLabel (t ++ [c]) = false ->
  (c =? chr "(")%N = false ->
  expression (handleBackspace run st) = t.
Proof.
  intros He Hl Hc. unfold handleBackspace. rewrite He, Hl.
  rewrite expression_setExpression.
  assert (F : forall q, endsWith (q ++ js "(") (t ++ [c]) = false).
  { intros q. apply endsWith_clash. intros a b. rewrite rev_app_distr.
    cbn. intros E. injection E as E _. rewrite E in Hc. discriminate Hc. }
  rewrite (F (js "sin") : endsWith (js "sin(") _ = false),
    (F (js "cos") : endsWith (js "cos(") _ = false),
    (F (js "tan") : endsWith (js "tan(") _ = false),
    (F (js "log") : endsWith (js "log(") _ = false),
    (F (js "ln") : endsWith (js "ln(") _ = false),
    (F (js "√") : endsWith (js "√(") _ = false).
  exact (slice_to_minus_app t [c]).
Qed.

(** ** Consecutive operators *)

Lemma ends_in_operator_not_label (t : jsstring) (c : N) :
  existsb (N.eqb c) (js "+-×÷") = true -> isErrorLabel (t ++ [c]) = false.
Proof.
  intros Hc. apply includes_false. intros Hin.
  apply errorLabels_last in Hin as (t' & c' & E & Hc').
  apply app_inj_tail in E as [_ <-]. congruence.
Qed.

(** C6, amended.  When the text ends in one of [+ - × ÷], each of the keys
    [+ - × ÷] replaces that last character (the last operator wins: [+] then
    [-] leaves a trailing [-]); the keys [^] and [%] are appended to it. *)
Theorem C6_last_operator_wins (st : State) (t : jsstring) (c : N) :
  expression st = t ++ [c] ->
  In c (js "+-×÷") ->
  (forall op, In op [js "+"; js "-"; js "×"; js "÷"] ->
     expression (handleOperator run op st) = t ++ op) /\
  (forall op, In op [js "^"; js "%"] ->
     expression (handleOperator run op st) = t ++ [c] ++ op).
Proof.
  intros He Hc.
  assert (Hc' : existsb (N.eqb c) (js "+-×÷") = true).
  { apply existsb_exists. exists c. split; [assumption | apply N.eqb_refl]. }
  assert (Hn : isEmpty (t ++ [c]) = false) by now destruct t.
  split; intros op Hop; unfold handleOperator;
    rewrite He, (ends_in_operator_not_label t c Hc'), Hn;
    cbn [andb]; change trailingOperator with (rSeq (rSet (js "+-×÷")) rEnd);
    rewrite test_trailing_set, Hc'; cbn [andb].
  - replace (test anOperator op) with true
      by (repeat destruct Hop as [<- | Hop]; try contradiction; reflexivity).
    rewrite expression_setExpression.
    now rewrite (slice_to_minus_app t [c] : slice_to_minus 1 _ = t).
  - replace (test anOperator op) with false
      by (repeat destruct Hop as [<- | Hop]; try contradiction; reflexivity).
    rewrite expression_setExpression. now rewrite <- app_assoc.
Qed.

End KeypadProperties.

(** ** The sign key *)

Lemma minus_text_not_label (t : jsstring) : isErrorLabel (js "-" ++ t) = false.
Proof.
  apply includes_false. intros Hin.
  repeat destruct Hin as [Hin | Hin]; try contradiction; discriminate Hin.
Qed.

(** C10, amended.  Pressing the sign key twice gives back the text [t],
    for every text that is not an error label, does not start with two
    minus signs and is not a minus sign before an error label. *)
Theorem C10_sign_toggle_twice (st : State) (t : jsstring) :
  expression st = t ->
  isErrorLabel t = false ->
  startsWith (js "--") t = false ->
  (forall l, In l errorLabels -> t <> js "-" ++ l) ->
  expression (signToggle (signToggle st)) = t.
Proof.
  intros He Hl Hmm Hml. unfold signToggle at 2. rewrite He, Hl.
  destruct (startsWith (js "-") t) eqn:Hs.
  - apply startsWith_inv in Hs. cbn [js length] in Hs.
    change (length (js "-")) with 1%nat in Hs.
    unfold signToggle. rewrite expression_setExpression.
    unfold slice_from. set (r := skipn 1 t) in *.
    assert (Hr : isErrorLabel r = false).
    { apply includes_false. intros Hin. now apply (Hml r). }
    rewrite Hr. destruct r as [|x r'] eqn:Er.
    + cbn. now rewrite Hs.
    + assert (Hx : (chr "-" =? x)%N = false).
      { destruct (chr "-" =? x)%N eqn:Ex; [|reflexivity].
        apply N.eqb_eq in Ex. subst x. rewrite Hs in Hmm. discriminate Hmm. }
      cbn [startsWith js]. change (js "-") with [chr "-"].
      cbn [startsWith]. rewrite Hx. cbn [andb isEmpty].
      rewrite expression_setExpression. now rewrite Hs.
  - destruct t as [|x t'].
    + reflexivity.
    + cbn [isEmpty]. unfold signToggle. rewrite expression_setExpression.
      rewrite minus_text_not_label, startsWith_app. reflexivity.
Qed.

(** ** What a formatted number looks like *)

Lemma digits_of_length (k : nat) (s : Z) : length (digits_of k s) = k.
Proof.
  revert s; induction k as [|k IH]; intros s; simpl; [reflexivity|].
  rewrite length_app, IH. simpl. lia.
Qed.

Lemma digits_of_digits (k : nat) (s : Z) :
  Forall (fun c => is_digit c = true) (digits_of k s).
Proof.
  revert s; induction k as [|k IH]; intros s; cbn [digits_of]; [constructor|].
  apply Forall_app. split; [apply IH|]. constructor; [|constructor].
  unfold is_digit, zero_chr.
  pose proof (Z.mod_pos_bound s 10 ltac:(lia)) as Hb.
  apply andb_true_iff. split; apply N.leb_le; lia.
Qed.

(** A text that starts with a digit. *)
Definition starts_with_digit (t : jsstring) : Prop :=
  exists c r, t = c :: r /\ is_digit c = true.

Lemma digits_of_starts (k : nat) (s : Z) :
  (1 <= k)%nat -> starts_with_digit (digits_of k s).
Proof.
  intros Hk. pose proof (digits_of_length k s) as Hl.
  pose proof (digits_of_digits k s) as Hd.
  destruct (digits_of k s) as [|c r]; [simpl in Hl; lia|].
  exists c, r. split; [reflexivity | now inversion Hd].
Qed.

Lemma starts_with_digit_app (t r : jsstring) :
  starts_with_digit t -> starts_with_digit (t ++ r).
Proof. intros (c & t' & -> & H). exists c, (t' ++ r). now split. Qed.

Lemma starts_with_digit_firstn (n : nat) (t : jsstring) :
  (1 <= n)%nat -> starts_with_digit t -> starts_with_digit (firstn n t).
Proof.
  intros Hn (c & t' & -> & H). destruct n as [|n]; [lia|].
  exists c, (firstn n t'). now split.
Qed.

Lemma render_starts (ds : jsstring) (k : nat) (n : Z) :
  starts_with_digit ds -> starts_with_digit (render ds k n).
Proof.
  intros H. unfold render.
  destruct ((Z.of_nat k <=? n) && (n <=? 21))%Z;
    [now apply starts_with_digit_app|].
  destruct ((0 <? n) && (n <=? 21))%Z eqn:E.
  { apply starts_with_digit_app, starts_with_digit_firstn; [|assumption].
    apply andb_true_iff in E as [E _]. apply Z.ltb_lt in E. lia. }
  destruct ((-6 <? n) && (n <=? 0))%Z.
  { exists zero_chr. eexists. split; reflexivity. }
  destruct (k =? 1)%nat; [now apply starts_with_digit_app|].
  apply starts_with_digit_app, starts_with_digit_firstn; [lia | assumption].
Qed.

Lemma shortest_count (fuel k : nat) (x : spec_float) (a b n : Z) :
  (1 <= k)%nat -> (1 <= snd (fst (shortest fuel k x a b n)))%nat.
Proof.
  revert k; induction fuel as [|f IH]; intros k Hk; cbn [shortest];
    destruct (scale 10 a b (n - Z.of_nat k)) as [p q];
    destruct (reads_as x (p / q) (n - Z.of_nat k));
    destruct (reads_as x (p / q + 1) (n - Z.of_nat k));
    repeat match goal with
    | |- context [if ?c then _ else _] => destruct c
    end; cbn [fst snd]; try lia.
  apply IH. lia.
Qed.

(** The text of a number is [NaN], an optional minus sign before
    [Infinity], or an optional minus sign before a text that starts with a
    digit. *)
Lemma toString_shape (x : float) :
  toString x = js "NaN" \/
  toString x = js "Infinity" \/
  (exists r, toString x = chr "-" :: r) \/
  starts_with_digit (toString x).
Proof.
  unfold toString. destruct (Prim2SF x) as [neg | neg | | neg m e].
  - right; right; right. exists zero_chr, []. split; reflexivity.
  - destruct neg; [right; right; left; eexists; reflexivity | right; left; reflexivity].
  - left. reflexivity.
  - destruct (fraction_of m e) as [a b].
    pose proof (shortest_count 20 (S754_finite false m e) a b
                  (decimal_exponent a b) (le_n 1)) as Hk.
    destruct (shortest 20 1 (S754_finite false m e) a b (decimal_exponent a b))
      as [[s k] n]. cbn [fst snd] in Hk.
    destruct neg.
    + right; right; left. eexists. reflexivity.
    + right; right; right. cbn [sign_text app].
      now apply render_starts, digits_of_starts.
Qed.

Lemma toString_not_label (x : float) : isErrorLabel (toString x) = false.
Proof.
  apply includes_false. intros Hin.
  destruct (toString_shape x) as [E | [E | [[r E] | (c & r & E & Hc)]]];
    rewrite E in Hin;
    repeat destruct Hin as [Hin | Hin]; try contradiction;
    try discriminate Hin.
  all: injection Hin as <- _; discriminate Hc.
Qed.

Lemma toString_not_empty (x : float) : toString x <> [].
Proof.
  destruct (toString_shape x) as [E | [E | [[r E] | (c & r & E & Hc)]]];
    rewrite E; discriminate.
Qed.

Lemma formatted_not_label (v : float) : isErrorLabel (formatted v) = false.
Proof. apply toString_not_label. Qed.

Lemma formatted_not_empty (v : float) : formatted v <> [].
Proof. apply toString_not_empty. Qed.

Lemma label_In (k : ErrorKind) : In (label k) errorLabels.
Proof. destruct k; simpl; auto 6. Qed.

Lemma label_isErrorLabel (k : ErrorKind) : isErrorLabel (label k) = true.
Proof. now destruct k. Qed.

Lemma label_not_empty (k : ErrorKind) : isEmpty (label k) = false.
Proof. now destruct k. Qed.

(** ** [calculate] against the specification's outcome *)

Lemma is_infinity_eqb (x : float) :
  is_infinity x = ((x =? infinity) || (x =? neg_infinity))%float.
Proof.
  unfold is_infinity.
  rewrite !eqb_spec, abs_spec.
  replace (Prim2SF infinity) with (S754_infinity false) by reflexivity.
  replace (Prim2SF neg_infinity) with (S754_infinity true) by reflexivity.
  destruct (Prim2SF x) as [[|] | [|] | | [|] m e]; reflexivity.
Qed.

Lemma calculate_evaluate (run : AngleUnit -> jsstring -> Completion)
  (u : AngleUnit) (expr : jsstring) :
  expr <> [] ->
  calculate run u expr =
  match evaluate run u expr with
  | Success v => formatted v
  | Failure k => label k
  end.
Proof.
  intros Hne. destruct expr as [|c0 expr0]; [congruence|].
  unfold calculate, evaluate.
  destruct (test zeroDenominator _ || test zeroDecimalDenominator _);
    [reflexivity|].
  destruct (run u _) as [[x|]|[|]]; try reflexivity.
  destruct (is_nan x); [reflexivity|].
  rewrite is_infinity_eqb.
  destruct (is_finite x) eqn:Ef; cbn [negb].
  - destruct ((x =? infinity) || (x =? neg_infinity))%float eqn:Ei;
      [|reflexivity].
    exfalso. rewrite <- is_infinity_eqb in Ei.
    unfold is_finite in Ef. rewrite Ei in Ef.
    now rewrite orb_true_r in Ef.
  - now destruct ((x =? infinity) || (x =? neg_infinity))%float.
Qed.

Section EngineProperties.

Variable run : AngleUnit -> jsstring -> Completion.

(** ** Equals *)

(** C3.  Equals does nothing on the empty expression and on an error
    label.  Otherwise, when the evaluation succeeds with the value [v], one
    history item is appended, made of the expression, the formatted value and
    the time, and the expression becomes the formatted value; when it fails,
    the history is unchanged and the expression becomes the label of the
    failure. *)
Theorem C3_equals (now : Z) (st : State) :
  (isEmpty (expression st) = true \/ isErrorLabel (expression st) = true ->
   handleEquals run now st = st) /\
  (isEmpty (expression st) = false -> isErrorLabel (expression st) = false ->
   match evaluate run (angleUnit st) (expression st) with
   | Success v =>
       handleEquals run now st =
       mkState (formatted v) None
         (history st ++ [mkHistoryItem (expression st) (formatted v) now])
         (angleUnit st) (memory st)
   | Failure k =>
       handleEquals run now st =
       mkState (label k) None (history st) (angleUnit st) (memory st)
   end).
Proof.
  split.
  - intros [H | H]; unfold handleEquals; rewrite H; [reflexivity|].
    now destruct (isEmpty (expression st)).
  - intros Hne Hl. unfold handleEquals. rewrite Hne, Hl.
    assert (Hx : expression st <> []) by (now destruct (expression st)).
    rewrite (calculate_evaluate run (angleUnit st) Hx).
    destruct (evaluate run (angleUnit st) (expression st)) as [v | k].
    + rewrite formatted_not_label.
      pose proof (formatted_not_empty v) as Hf.
      destruct (formatted v) as [|c r] eqn:E; [congruence|]. reflexivity.
    + rewrite label_isErrorLabel, label_not_empty. reflexivity.
Qed.

(** ** The closed set of results *)

(** C4, amended.  [calculate] returns for every expression: the empty text
    for the empty expression; otherwise the formatted value of a successful
    evaluation, which is not one of the labels, or the label of the failure,
    one of the five. *)
Theorem C4_calculate_results (u : AngleUnit) (expr : jsstring) :
  (expr = [] /\ calculate run u expr = []) \/
  (expr <> [] /\
   ((exists v, evaluate run u expr = Success v /\
               calculate run u expr = formatted v /\
               isErrorLabel (formatted v) = false /\ formatted v <> []) \/
    (exists k, evaluate run u expr = Failure k /\
               calculate run u expr = label k /\
               In (label k) errorLabels))).
Proof.
  destruct expr as [|c expr]; [left; split; reflexivity | right].
  split; [discriminate|].
  rewrite calculate_evaluate by discriminate.
  destruct (evaluate run u (c :: expr)) as [v | k].
  - left. exists v. repeat split;
      [apply formatted_not_label | apply formatted_not_empty].
  - right. exists k. repeat split. apply label_In.
Qed.

(** ** The preview *)

Lemma match_here_alt (r1 r2 : regex) (s : jsstring) :
  match_here (rAlt r1 r2) s <> None ->
  match_here r1 s <> None \/ match_here r2 s <> None.
Proof.
  unfold match_here. cbn [rmatch].
  destruct (rmatch r1 s _); [left; discriminate | now right].
Qed.

Lemma match_here_lit (p : string) (c : N) (cs s : jsstring) :
  js p = c :: cs ->
  match_here (lit p) s <> None -> occurs (js p) s.
Proof.
  intros Hp. unfold lit, match_here. rewrite Hp, rmatch_lit_from.
  destruct (startsWith (c :: cs) s) eqn:E; [|congruence].
  intros _. apply startsWith_inv in E. exists [], (skipn (length (c :: cs)) s).
  exact E.
Qed.

Lemma match_here_set (cs : list N) (s : jsstring) :
  match_here (rSet cs) s <> None -> exists x, In x cs /\ occurs [x] s.
Proof.
  unfold match_here. cbn [rmatch]. destruct s as [|x s]; [congruence|].
  destruct (existsb (N.eqb x) cs) eqn:E; [|congruence].
  intros _. apply existsb_exists in E as (y & Hy & E).
  apply N.eqb_eq in E. subst y. exists x. split; [assumption|].
  now exists [], s.
Qed.

Lemma occurs_in_suffix (sub pre suf : jsstring) :
  occurs sub suf -> occurs sub (pre ++ suf).
Proof.
  intros (a & b & ->). exists (pre ++ a), b. now rewrite app_assoc.
Qed.

Lemma hasOperators_occurs (expr : jsstring) :
  test operatorOrFunction expr = true ->
  exists sub, In sub operatorTexts /\ occurs sub expr.
Proof.
  intros H. apply test_true_iff in H as (pre & suf & -> & H).
  unfold operatorOrFunction in H.
  apply match_here_alt in H as [H | H].
  { apply match_here_set in H as (x & Hx & Ho).
    exists [x]. split; [|now apply occurs_in_suffix].
    repeat destruct Hx as [<- | Hx]; try contradiction; simpl; auto 12. }
  repeat (apply match_here_alt in H as [H | H]);
    (eapply match_here_lit in H; [|reflexivity]);
    eexists; (split; [|apply occurs_in_suffix, H]); simpl; auto 20.
Qed.

(** C8.  A text in which no operator and no function name occurs has no
    preview, and neither has a text whose evaluation gives an error label. *)
Theorem C8_preview_absent (u : AngleUnit) (expr : jsstring) :
  ((forall sub, In sub operatorTexts -> ~ occurs sub expr) ->
   updatePreview run u expr = None) /\
  (In (calculate run u expr) errorLabels ->
   updatePreview run u expr = None).
Proof.
  split.
  - intros H. unfold updatePreview.
    destruct (test operatorOrFunction expr) eqn:E; [|reflexivity].
    apply hasOperators_occurs in E as (sub & Hin & Ho).
    now apply H in Ho.
  - intros H. unfold updatePreview. apply includes_In in H.
    rewrite H. cbn [negb andb]. now destruct (test operatorOrFunction expr).
Qed.

(** ** Memory *)

(** C9, amended.  With the expression and the angle unit unchanged, M+
    followed by M- leaves the register at [(m + v) - v], the sum and the
    difference of binary64 arithmetic, where [v] is the number read from the
    formatted value of the expression; the expression is unchanged.  When
    the expression is empty the operand is the value of the text [0], which
    is the number zero for an engine that evaluates this literal to zero. *)
Theorem C9_memory_add_subtract (st : State) (r : jsstring) :
  calculate run (angleUnit st) (orZero (expression st)) = r ->
  isErrorLabel r = false ->
  r <> [] ->
  memory (handleMemorySubtract run (handleMemoryAdd run st))
    = (memory st + parseFloat r - parseFloat r)%float /\
  expression (handleMemorySubtract run (handleMemoryAdd run st))
    = expression st /\
  (expression st = [] ->
   run (angleUnit st) (js "0") = Return (JsNumber 0%float) ->
   r = js "0" /\ parseFloat r = 0%float).
Proof.
  intros Hr Hl Hne.
  assert (Hs : str_eqb r [] = false).
  { destruct (str_eqb r []) eqn:E; [|reflexivity].
    apply str_eqb_eq in E. congruence. }
  assert (Ha : handleMemoryAdd run st
               = setMemory (memory st + parseFloat r)%float st).
  { unfold handleMemoryAdd. now rewrite Hr, Hl, Hs. }
  rewrite Ha. unfold handleMemorySubtract.
  cbn [setMemory expression angleUnit memory].
  rewrite Hr, Hl, Hs. cbn [negb andb memory expression].
  split; [reflexivity|]. split; [reflexivity|].
  intros He Hz.
  assert (E : r = js "0").
  { rewrite He in Hr. cbn [orZero isEmpty] in Hr.
    rewrite <- Hr. unfold calculate.
    change (cleanExpr (js "0")) with (js "0").
    change (test zeroDenominator (js "0") || test zeroDecimalDenominator (js "0"))
      with false.
    cbn match. rewrite Hz. vm_compute. reflexivity. }
  split; [assumption|]. rewrite E. vm_compute. reflexivity.
Qed.

End EngineProperties.

(** The pattern of the preview finds exactly the occurrences of the
    operator texts. *)
Lemma occurs_hasOperators (expr sub : jsstring) :
  In sub operatorTexts -> occurs sub expr ->
  test operatorOrFunction expr = true.
Proof.
  intros Hin (pre & post & ->). apply test_true_iff.
  exists pre, (sub ++ post). split; [reflexivity|].
  repeat destruct Hin as [<- | Hin]; try contradiction; discriminate.
Qed.

(** ** Concrete runs *)

Example run_sum :
  calculate arithmeticEngine deg (js "0.1+0.2") = js "0.3".
Proof. vm_compute. reflexivity. Qed.

Example run_open_parenthesis :
  calculate arithmeticEngine deg (js "2×(3+4") = js "14".
Proof. vm_compute. reflexivity. Qed.

(** The computed zero denominator of C1: not caught by the check, it
    evaluates to [Infinity] and is reported as too large. *)
Example run_computed_zero :
  arithmeticEngine deg (cleanExpr (js "1÷(1-1)")) = Return (JsNumber infinity) /\
  calculate arithmeticEngine deg (js "1÷(1-1)") = js "Value too large".
Proof. split; vm_compute; reflexivity. Qed.

Example epsilon_is_1e_12 : Number (js "1e-12") = epsilon.
Proof. vm_compute. reflexivity. Qed.

(** C2 as stated fails: a binary operator pressed on an error label leaves
    the text [0+], not the empty expression. *)
Lemma C2_operator_after_error_not_empty :
  expression (handleOperator arithmeticEngine (js "+") (stateOf "Error" 0))
    = js "0+" /\
  expression (handleOperator arithmeticEngine (js "+") (stateOf "Error" 0))
    <> [] /\
  includes startingOperators (js "+") = false.
Proof. repeat split. discriminate. Qed.

Lemma C2_keys_after_error_witness :
  isErrorLabel (expression (stateOf "Error" 0)) = true /\
  expression (handleOperator arithmeticEngine (js "×") (stateOf "Error" 0))
    = js "0" ++ js "×".
Proof.
  split; [reflexivity|].
  exact (proj1 (proj2 (proj2 (proj2 (proj2 (proj2
    (C2_keys_after_error arithmeticEngine (stateOf "Error" 0) (js "7") (js "×")
       0 eq_refl))))))).
Defined.

Lemma C3_equals_witness :
  handleEquals arithmeticEngine 1700000000000 (stateOf "2+3" 0)
    = mkState (js "5") None
        [mkHistoryItem (js "2+3") (js "5") 1700000000000] deg 0%float /\
  handleEquals arithmeticEngine 1700000000000 (stateOf "2+" 0)
    = mkState (js "Invalid format") None [] deg 0%float.
Proof.
  split.
  - exact (proj2 (C3_equals arithmeticEngine 1700000000000 (stateOf "2+3" 0))
             eq_refl eq_refl).
  - exact (proj2 (C3_equals arithmeticEngine 1700000000000 (stateOf "2+" 0))
             eq_refl eq_refl).
Defined.

(** C4 as stated fails on the empty expression: the result is the empty
    text, which is neither a label nor the text of a number. *)
Lemma C4_empty_expression_gives_empty_text :
  calculate arithmeticEngine deg [] = [] /\
  isErrorLabel [] = false /\
  (forall v, formatted v <> []).
Proof. repeat split. exact formatted_not_empty. Qed.

(** C6 as stated fails for the operator [^]: after [2+] it is appended,
    and a [+] after [2^] is appended as well. *)
Lemma C6_power_is_appended :
  expression (handleOperator arithmeticEngine (js "^") (stateOf "2+" 0))
    = js "2+^" /\
  expression (handleOperator arithmeticEngine (js "+") (stateOf "2^" 0))
    = js "2^+" /\
  js "2+^" <> js "2^".
Proof. repeat split. discriminate. Qed.

Lemma C6_last_operator_wins_witness :
  expression (stateOf "5+" 0) = js "5" ++ [chr "+"] /\
  In (chr "+") (js "+-×÷") /\
  expression (handleOperator arithmeticEngine (js "-") (stateOf "5+" 0))
    = js "5" ++ js "-".
Proof.
  split; [reflexivity|]. split; [now left|].
  exact (proj1 (C6_last_operator_wins arithmeticEngine (stateOf "5+" 0)
                  (js "5") eq_refl (or_introl eq_refl))
           (js "-") (or_intror (or_introl eq_refl))).
Defined.

Lemma C8_preview_absent_witness :
  (forall sub, In sub operatorTexts -> ~ occurs sub (js "12.5")) /\
  updatePreview arithmeticEngine deg (js "12.5") = None /\
  In (calculate arithmeticEngine deg (js "2+")) errorLabels /\
  updatePreview arithmeticEngine deg (js "2+") = None.
Proof.
  assert (H : forall sub, In sub operatorTexts -> ~ occurs sub (js "12.5")).
  { intros sub Hin Ho.
    pose proof (occurs_hasOperators Hin Ho) as E. discriminate E. }
  assert (L : In (calculate arithmeticEngine deg (js "2+")) errorLabels)
    by (now left).
  split; [exact H|].
  split; [exact (proj1 (C8_preview_absent arithmeticEngine deg (js "12.5")) H)|].
  split; [exact L|].
  exact (proj2 (C8_preview_absent arithmeticEngine deg (js "2+")) L).
Defined.

(** C9 as stated fails: with [1] in memory and the expression
    [10000000000000000], which evaluates to itself, the sum [1 + 1e16] is
    rounded to [1e16], and M+ then M- leaves [0] in memory. *)
Lemma C9_round_trip_loses_memory :
  calculate arithmeticEngine deg (js "10000000000000000")
    = js "10000000000000000" /\
  memory (handleMemorySubtract arithmeticEngine
            (handleMemoryAdd arithmeticEngine (stateOf "10000000000000000" 1)))
    = 0%float /\
  (0 =? 1)%float = false.
Proof. repeat split; vm_compute; reflexivity. Qed.

Lemma C9_memory_add_subtract_witness :
  calculate arithmeticEngine deg (orZero (expression (stateOf "2+3" 10)))
    = js "5" /\
  isErrorLabel (js "5") = false /\
  js "5" <> [] /\
  memory (handleMemorySubtract arithmeticEngine
            (handleMemoryAdd arithmeticEngine (stateOf "2+3" 10)))
    = (10 + parseFloat (js "5") - parseFloat (js "5"))%float.
Proof.
  assert (H1 : calculate arithmeticEngine deg
                 (orZero (expression (stateOf "2+3" 10))) = js "5")
    by (vm_compute; reflexivity).
  assert (H3 : js "5" <> []) by discriminate.
  split; [exact H1|]. split; [reflexivity|]. split; [exact H3|].
  exact (proj1 (C9_memory_add_subtract arithmeticEngine (stateOf "2+3" 10)
                  H1 eq_refl H3)).
Defined.

(** C10 as stated fails on a text that starts with two minus signs (the
    minus key followed by the recall of a negative memory): two presses of
    the sign key remove both. *)
Lemma C10_double_minus_not_restored :
  expression (signToggle (signToggle (stateOf "--5" 0))) = js "5" /\
  isErrorLabel (js "--5") = false /\
  js "5" <> js "--5" /\
  expression (handleMemoryRecall arithmeticEngine (stateOf "-" (-5))) = js "--5".
Proof. repeat split; try discriminate; vm_compute; reflexivity. Qed.

Lemma C10_sign_toggle_twice_witness :
  expression (stateOf "-3.5" 0) = js "-3.5" /\
  isErrorLabel (js "-3.5") = false /\
  startsWith (js "--") (js "-3.5") = false /\
  (forall l, In l errorLabels -> js "-3.5" <> js "-" ++ l) /\
  expression (signToggle (signToggle (stateOf "-3.5" 0))) = js "-3.5".
Proof.
  assert (H : forall l, In l errorLabels -> js "-3.5" <> js "-" ++ l).
  { intros l Hin. repeat destruct Hin as [<- | Hin]; try contradiction;
      discriminate. }
  split; [reflexivity|]. split; [reflexivity|]. split; [reflexivity|].
  split; [exact H|].
  exact (C10_sign_toggle_twice (stateOf "-3.5" 0) eq_refl eq_refl eq_refl H).
Defined.

(** * The formatting of a result

    [formatted] goes through [toPrecision(12)], [Number] and [toString]:
    the digits of the result are those of the decimal of twelve digits
    nearest to the value, without the zeros at their end. *)

Unset Implicit Arguments.

(** ** Reading back what [toPrecision] prints *)

Lemma digits_value_snoc (l : jsstring) (c : N) :
  digits_value (l ++ [c]) = (10 * digits_value l + Z.of_N (c - zero_chr))%Z.
Proof. unfold digits_value. now rewrite fold_left_app. Qed.

Lemma digits_value_digits_of (k : nat) (s : Z) :
  (0 <= s < 10 ^ Z.of_nat k)%Z -> digits_value (digits_of k s) = s.
Proof.
  revert s; induction k as [|k IH]; intros s Hs.
  - cbn in *. lia.
  - cbn [digits_of]. rewrite digits_value_snoc.
    rewrite Nat2Z.inj_succ, Z.pow_succ_r in Hs by lia.
    rewrite IH by (split; [apply Z.div_pos; lia | apply Z.div_lt_upper_bound; lia]).
    pose proof (Z.mod_pos_bound s 10 ltac:(lia)).
    replace (zero_chr + Z.to_N (s mod 10) - zero_chr)%N with (Z.to_N (s mod 10))
      by lia.
    rewrite Z2N.id by lia. pose proof (Z.div_mod s 10 ltac:(lia)). lia.
Qed.

Lemma digits_value_zeros (k : nat) (l : jsstring) :
  digits_value (repeat zero_chr k ++ l) = digits_value l.
Proof.
  induction k as [|k IH]; [reflexivity|].
  cbn [repeat app]. unfold digits_value in *. cbn [fold_left]. exact IH.
Qed.

Lemma span_digits_app (ds rest : jsstring) :
  all_digits ds ->
  is_digit (hd 0%N rest) = false ->
  span_digits (ds ++ rest) = (ds, rest).
Proof.
  intros Hd Hr. induction Hd as [|c ds Hc Hd IH].
  - destruct rest as [|c r]; [reflexivity|].
    cbn in *. now rewrite Hr.
  - cbn [app span_digits]. now rewrite Hc, IH.
Qed.

Lemma span_digits_all (ds : jsstring) :
  all_digits ds -> span_digits ds = (ds, []).
Proof.
  intros H. rewrite <- (app_nil_r ds) at 1. now apply span_digits_app.
Qed.

Lemma all_digits_repeat (k : nat) : all_digits (repeat zero_chr k).
Proof. induction k; constructor; [reflexivity | assumption]. Qed.

Lemma all_digits_app (a b : jsstring) :
  all_digits a -> all_digits b -> all_digits (a ++ b).
Proof. intros. now apply Forall_app. Qed.

Lemma all_digits_firstn (n : nat) (l : jsstring) :
  all_digits l -> all_digits (firstn n l).
Proof.
  intros H. pose proof (firstn_skipn n l) as E. rewrite <- E in H.
  now apply Forall_app in H.
Qed.

Lemma all_digits_skipn (n : nat) (l : jsstring) :
  all_digits l -> all_digits (skipn n l).
Proof.
  intros H. pose proof (firstn_skipn n l) as E. rewrite <- E in H.
  now apply Forall_app in H.
Qed.

(** The decimal representation of an integer. *)
Lemma count_digits_spec (fuel : nat) (s : Z) :
  (0 <= s < 2 ^ (Z.of_nat fuel + 1))%Z ->
  (s < 10 ^ Z.of_nat (count_digits fuel s))%Z.
Proof.
  revert s; induction fuel as [|f IH]; intros s Hs.
  - cbn in *. lia.
  - cbn [count_digits]. destruct (Z.ltb_spec s 10) as [C | C]; [cbn; lia|].
    rewrite Nat2Z.inj_succ, Z.pow_succ_r by lia.
    assert (s / 10 < 10 ^ Z.of_nat (count_digits f (s / 10)))%Z.
    { apply IH. split; [apply Z.div_pos; lia|].
      apply Z.div_lt_upper_bound; [lia|].
      replace (Z.of_nat (S f) + 1)%Z with (Z.succ (Z.of_nat f + 1)) in Hs by lia.
      rewrite Z.pow_succ_r in Hs by lia. lia. }
    pose proof (Z.div_mod s 10 ltac:(lia)).
    pose proof (Z.mod_pos_bound s 10 ltac:(lia)). lia.
Qed.

Lemma digits_value_decimal (s : Z) : (0 <= s)%Z -> digits_value (decimal s) = s.
Proof.
  intros Hs. unfold decimal. apply digits_value_digits_of.
  split; [assumption|]. apply count_digits_spec. split; [assumption|].
  destruct (Z.eq_dec s 0) as [-> | Hn]; [cbn; lia|].
  rewrite Z2Nat.id by apply Z.log2_nonneg.
  pose proof (Z.log2_spec s ltac:(lia)). lia.
Qed.

Lemma count_digits_pos (fuel : nat) (s : Z) : (1 <= count_digits fuel s)%nat.
Proof. destruct fuel; cbn; [lia|]. destruct (s <? 10)%Z; lia. Qed.

Lemma decimal_digits (s : Z) : all_digits (decimal s) /\ decimal s <> [].
Proof.
  unfold decimal. split; [apply digits_of_digits|].
  pose proof (count_digits_pos (Z.to_nat (Z.log2 s)) s) as H.
  pose proof (digits_of_length (count_digits (Z.to_nat (Z.log2 s)) s) s) as L.
  destruct (digits_of _ s); [cbn in L; lia | discriminate].
Qed.

Lemma exponent_part_text (e : Z) :
  exponent_part (js "e" ++ exponent_text e) = (e, []).
Proof.
  unfold exponent_text.
  destruct (Z.leb_spec 0 e) as [C | C].
  - change (js "e" ++ js "+" ++ decimal e)
      with (chr "e" :: chr "+" :: decimal e).
    cbn [exponent_part]. change ((chr "e" =? chr "e")%N) with true.
    cbn [orb split_sign]. change ((chr "+" =? chr "-")%N) with false.
    change ((chr "+" =? chr "+")%N) with true. cbn match.
    destruct (decimal_digits e) as [Hd Hn].
    rewrite (span_digits_all _ Hd). destruct (decimal e) eqn:E; [congruence|].
    rewrite <- E, digits_value_decimal by lia. reflexivity.
  - change (js "e" ++ js "-" ++ decimal (- e))
      with (chr "e" :: chr "-" :: decimal (- e)).
    cbn [exponent_part]. change ((chr "e" =? chr "e")%N) with true.
    cbn [orb split_sign]. change ((chr "-" =? chr "-")%N) with true.
    cbn match.
    destruct (decimal_digits (- e)) as [Hd Hn].
    rewrite (span_digits_all _ Hd). destruct (decimal (- e)) eqn:E; [congruence|].
    rewrite <- E, digits_value_decimal by lia. f_equal. lia.
Qed.

Lemma digit_not_sign (c : N) : is_digit c = true ->
  (c =? chr "-")%N = false /\ (c =? chr "+")%N = false /\
  (c =? chr "I")%N = false.
Proof.
  unfold is_digit. intros H. apply andb_true_iff in H as [H1 H2].
  apply N.leb_le in H1, H2.
  repeat split; apply N.eqb_neq; intros ->; vm_compute in H1, H2;
    (now apply H1) || (now apply H2).
Qed.

Lemma split_sign_digit (c : N) (r : jsstring) :
  is_digit c = true -> split_sign (c :: r) = (false, c :: r).
Proof.
  intros H. apply digit_not_sign in H as (H1 & H2 & _).
  cbn [split_sign]. now rewrite H1, H2.
Qed.

(** A literal with a decimal point, followed by nothing or an exponent. *)
Lemma unsigned_decimal_point (c : N) (ip fp tail : jsstring) :
  all_digits (c :: ip) -> all_digits fp ->
  is_digit (hd 0%N tail) = false ->
  unsigned_decimal (c :: ip ++ chr "." :: fp ++ tail) =
  let (ex, rest) := exponent_part tail in
  Some (DFinite (digits_value ((c :: ip) ++ fp)) (ex - Z.of_nat (length fp)),
        rest).
Proof.
  intros Hi Hf Ht. unfold unsigned_decimal.
  assert (Hc : is_digit c = true) by now inversion Hi.
  apply digit_not_sign in Hc as (_ & _ & HI).
  change (startsWith (js "Infinity") (c :: ip ++ chr "." :: fp ++ tail))
    with ((chr "I" =? c)%N && startsWith (js "nfinity") (ip ++ chr "." :: fp ++ tail)).
  rewrite N.eqb_sym, HI. cbn [andb].
  change (c :: ip ++ chr "." :: fp ++ tail)
    with ((c :: ip) ++ chr "." :: fp ++ tail).
  rewrite (span_digits_app (c :: ip) (chr "." :: fp ++ tail) Hi eq_refl).
  cbn match. rewrite N.eqb_refl.
  rewrite (span_digits_app fp tail Hf Ht).
  cbn [app]. reflexivity.
Qed.

(** A literal without decimal point. *)
Lemma unsigned_decimal_integer (c : N) (ip : jsstring) :
  all_digits (c :: ip) ->
  unsigned_decimal (c :: ip) = Some (DFinite (digits_value (c :: ip)) 0, []).
Proof.
  intros Hi. unfold unsigned_decimal.
  assert (Hc : is_digit c = true) by now inversion Hi.
  apply digit_not_sign in Hc as (_ & _ & HI).
  change (startsWith (js "Infinity") (c :: ip))
    with ((chr "I" =? c)%N && startsWith (js "nfinity") ip).
  rewrite N.eqb_sym, HI. cbn [andb].
  rewrite (span_digits_all (c :: ip) Hi). cbn match.
  rewrite app_nil_r. cbn [app exponent_part length]. reflexivity.
Qed.

(** [Number] of a signed literal. *)
Lemma Number_signed (neg : bool) (c : N) (r : jsstring) (d : decimal_value) :
  is_digit c = true ->
  unsigned_decimal (c :: r) = Some (d, []) ->
  Number (sign_text neg ++ c :: r) = number_of neg d.
Proof.
  intros Hc Hu. destruct neg; cbn [sign_text].
  - change (js "-" ++ c :: r) with (chr "-" :: c :: r).
    unfold Number. cbn [split_sign]. rewrite N.eqb_refl. now rewrite Hu.
  - cbn [app]. unfold Number. rewrite (split_sign_digit c r Hc). now rewrite Hu.
Qed.

(** The text of [toPrecision(12)] is read back as its twelve digits. *)
Lemma Number_precision_text (neg : bool) (N E : Z) :
  (10 ^ 11 <= N < 10 ^ 12)%Z ->
  Number (sign_text neg ++ precision_text (digits_of 12 N) E 12)
  = number_of neg (DFinite N (E - 11)).
Proof.
  intros HN.
  pose proof (digits_of_digits 12 N) as Hd.
  pose proof (digits_of_length 12 N) as Hl.
  pose proof (digits_value_digits_of 12 N ltac:(change (Z.of_nat 12) with 12%Z; lia))
    as Hv.
  set (ds := digits_of 12 N) in *.
  destruct ds as [|c ds'] eqn:Eds; [discriminate Hl|].
  assert (Hc : is_digit c = true) by now inversion Hd.
  assert (Hd' : all_digits ds') by now inversion Hd.
  cbn in Hl. injection Hl as Hl.
  unfold precision_text. change (Z.of_nat 12) with 12%Z.
  change (12 =? 1)%nat with false. cbn match.
  destruct ((E <? -6)%Z || (12 <=? E)%Z) eqn:Hrange.
  { (* exponential notation *)
    change (firstn 1 (c :: ds')) with [c]. change (skipn 1 (c :: ds')) with ds'.
    replace (([c] ++ js "." ++ ds') ++ js "e" ++ exponent_text E)
      with (c :: [] ++ chr "." :: ds' ++ (js "e" ++ exponent_text E))
      by (cbn [app]; now rewrite <- app_assoc).
    apply Number_signed; [assumption|].
    rewrite unsigned_decimal_point;
      [ | now constructor | assumption | reflexivity].
    rewrite exponent_part_text. cbn [app]. rewrite Hv, Hl. reflexivity. }
  apply orb_false_iff in Hrange as [R1 R2].
  apply Z.ltb_ge in R1. apply Z.leb_gt in R2.
  destruct (Z.eqb_spec E (12 - 1)) as [E11 | E11].
  { apply Number_signed; [assumption|].
    rewrite unsigned_decimal_integer by assumption. rewrite Hv.
    subst E. reflexivity. }
  destruct (Z.leb_spec 0 E) as [E0 | E0].
  { (* fixed notation, a point inside the digits *)
    assert (Hn : exists n, Z.to_nat (E + 1) = S n) by (exists (Z.to_nat E); lia).
    destruct Hn as [n Hn]. rewrite Hn.
    cbn [firstn skipn].
    replace ((c :: firstn n ds') ++ js "." ++ skipn n ds')
      with (c :: firstn n ds' ++ chr "." :: skipn n ds' ++ [])
      by (now rewrite app_nil_r).
    apply Number_signed; [assumption|].
    rewrite unsigned_decimal_point;
      [ | constructor; [assumption | now apply all_digits_firstn]
        | now apply all_digits_skipn | reflexivity].
    cbn [exponent_part]. cbn [app]. rewrite firstn_skipn, Hv.
    rewrite length_skipn, Hl.
    replace (0 - Z.of_nat (11 - n))%Z with (E - 11)%Z by lia. reflexivity. }
  (* fixed notation, zeros before the digits *)
  replace (js "0." ++ repeat zero_chr (Z.to_nat (- (E + 1))) ++ c :: ds')
    with (zero_chr :: [] ++ chr "."
            :: (repeat zero_chr (Z.to_nat (- (E + 1))) ++ c :: ds') ++ [])
    by (now rewrite app_nil_r).
  apply Number_signed; [reflexivity|].
  rewrite unsigned_decimal_point;
    [ | constructor; [reflexivity | constructor]
      | apply all_digits_app; [apply all_digits_repeat | assumption]
      | reflexivity].
  cbn [exponent_part].
  change ((zero_chr :: []) ++ repeat zero_chr (Z.to_nat (- (E + 1))) ++ c :: ds')
    with (repeat zero_chr (S (Z.to_nat (- (E + 1)))) ++ c :: ds').
  rewrite digits_value_zeros, Hv.
  rewrite length_app, repeat_length. cbn [length]. rewrite Hl.
  replace (0 - Z.of_nat (Z.to_nat (- (E + 1)) + 12))%Z with (E - 11)%Z by lia.
  reflexivity.
Qed.

Local Open Scope R_scope.

(** ** Powers, fractions and the rounding to binary64 *)

Lemma pw_pos (b n : Z) : (0 < b)%Z -> 0 < pw b n.
Proof. intros H. apply powerRZ_lt. now apply IZR_lt. Qed.

Lemma pw_add (b n m : Z) : (0 < b)%Z -> pw b (n + m) = pw b n * pw b m.
Proof.
  intros H. apply powerRZ_add. apply IZR_lt in H. lra.
Qed.

Lemma pw_opp (b n : Z) : pw b (- n) = / pw b n.
Proof. apply powerRZ_neg'. Qed.

Lemma pw_0 (b : Z) : pw b 0 = 1.
Proof. reflexivity. Qed.

Lemma pw_1 (b : Z) : pw b 1 = IZR b.
Proof. unfold pw. simpl. lra. Qed.

Lemma pw_IZR (b n : Z) : (0 <= n)%Z -> pw b n = IZR (b ^ n).
Proof.
  intros H. unfold pw. rewrite <- (Z2Nat.id n H) at 1.
  rewrite <- pow_powerRZ, pow_IZR. now rewrite Z2Nat.id.
Qed.

Lemma pw_sub (b n m : Z) : (0 < b)%Z -> pw b (n - m) = pw b n / pw b m.
Proof.
  intros H. unfold Z.sub. rewrite pw_add by assumption.
  now rewrite pw_opp.
Qed.

Lemma pw_ge_1 (b n : Z) : (1 <= b)%Z -> (0 <= n)%Z -> 1 <= pw b n.
Proof.
  intros Hb Hn. rewrite pw_IZR by assumption. apply IZR_le.
  change 1%Z with (1 ^ n)%Z at 1 || idtac.
  assert (0 < b ^ n)%Z by (apply Z.pow_pos_nonneg; lia). lia.
Qed.

Lemma pw_le (b n m : Z) : (1 <= b)%Z -> (n <= m)%Z -> pw b n <= pw b m.
Proof.
  intros Hb H. replace m with (n + (m - n))%Z by lia.
  rewrite pw_add by lia.
  pose proof (pw_pos b n ltac:(lia)).
  pose proof (pw_ge_1 b (m - n) Hb ltac:(lia)). nra.
Qed.

Lemma pw_lt (b n m : Z) : (1 < b)%Z -> (n < m)%Z -> pw b n < pw b m.
Proof.
  intros Hb H. replace m with (n + 1 + (m - n - 1))%Z by lia.
  rewrite !pw_add by lia. rewrite pw_1.
  pose proof (pw_pos b n ltac:(lia)).
  pose proof (pw_ge_1 b (m - n - 1) ltac:(lia) ltac:(lia)).
  assert (2 <= IZR b) by (apply IZR_le; lia).
  assert (2 * pw b n <= pw b n * IZR b) by nra.
  assert (pw b n * IZR b <= pw b n * IZR b * pw b (m - n - 1)) by nra.
  lra.
Qed.

Lemma scale_spec (base a b n : Z) :
  (0 < base)%Z -> (0 < b)%Z ->
  (0 < snd (scale base a b n))%Z /\
  frac (scale base a b n) = IZR a / IZR b / pw base n.
Proof.
  intros Hbase Hb. unfold scale, frac.
  assert (Rb : 0 < IZR b) by now apply IZR_lt.
  destruct (Z.leb_spec 0 n) as [Hn | Hn]; cbn [fst snd].
  - assert (0 < base ^ n)%Z by (apply Z.pow_pos_nonneg; lia).
    split; [lia|]. rewrite mult_IZR, <- pw_IZR by assumption.
    pose proof (pw_pos base n Hbase). field. lra.
  - split; [assumption|]. rewrite mult_IZR, <- pw_IZR by lia.
    rewrite pw_opp. pose proof (pw_pos base n Hbase). field. lra.
Qed.

Lemma frac_lt_1 (pq : Z * Z) : (0 < snd pq)%Z ->
  (frac pq < 1 <-> (fst pq < snd pq)%Z).
Proof.
  destruct pq as [p q]; cbn [fst snd]; intros Hq. unfold frac; cbn [fst snd].
  assert (Rq : 0 < IZR q) by now apply IZR_lt.
  split; intros H.
  - apply lt_IZR. apply (Rmult_lt_compat_r (IZR q)) in H; [|assumption].
    unfold Rdiv in H. rewrite Rmult_assoc, Rinv_l in H by lra. lra.
  - apply IZR_lt in H. apply (Rmult_lt_reg_r (IZR q)); [assumption|].
    unfold Rdiv. rewrite Rmult_assoc, Rinv_l by lra. lra.
Qed.

Lemma Zlog2_R (a : Z) : (0 < a)%Z ->
  pw 2 (Z.log2 a) <= IZR a < pw 2 (Z.log2 a + 1).
Proof.
  intros Ha. pose proof (Z.log2_spec a Ha) as [H1 H2].
  pose proof (Z.log2_nonneg a) as Hn.
  rewrite !pw_IZR by lia. split; [apply IZR_le | apply IZR_lt]; lia.
Qed.

(** [ilog2 a b] is the binary exponent of [a / b]. *)
Lemma ilog2_spec (a b : Z) : (0 < a)%Z -> (0 < b)%Z ->
  pw 2 (ilog2 a b) <= IZR a / IZR b < pw 2 (ilog2 a b + 1).
Proof.
  intros Ha Hb. unfold ilog2. set (l := (Z.log2 a - Z.log2 b)%Z).
  pose proof (scale_spec 2 a b l ltac:(lia) Hb) as [Hd Hf].
  pose proof (frac_lt_1 (scale 2 a b l) Hd) as Hlt.
  destruct (scale 2 a b l) as [n d]. cbn [fst snd] in *.
  pose proof (Zlog2_R a Ha) as [A1 A2]. pose proof (Zlog2_R b Hb) as [B1 B2].
  assert (Rb : 0 < IZR b) by now apply IZR_lt.
  assert (Ra : 0 < IZR a) by now apply IZR_lt.
  pose proof (pw_pos 2 l ltac:(lia)) as Pl.
  pose proof (pw_pos 2 (Z.log2 b) ltac:(lia)) as Pb.
  assert (E1 : pw 2 (Z.log2 a + 1) = pw 2 (l + 1) * pw 2 (Z.log2 b)).
  { rewrite <- pw_add by lia. f_equal. lia. }
  assert (E2 : pw 2 (Z.log2 a) = pw 2 (l - 1) * pw 2 (Z.log2 b + 1)).
  { rewrite <- pw_add by lia. f_equal. lia. }
  assert (U : IZR a / IZR b < pw 2 (l + 1)).
  { apply (Rmult_lt_reg_r (IZR b)); [assumption|].
    unfold Rdiv. rewrite Rmult_assoc, Rinv_l by lra.
    pose proof (pw_pos 2 (l + 1) ltac:(lia)). nra. }
  assert (L : pw 2 (l - 1) < IZR a / IZR b).
  { apply (Rmult_lt_reg_r (IZR b)); [assumption|].
    unfold Rdiv. rewrite (Rmult_assoc (IZR a)), Rinv_l by lra.
    pose proof (pw_pos 2 (l - 1) ltac:(lia)). nra. }
  assert (Q : frac (n, d) < 1 <-> IZR a / IZR b < pw 2 l).
  { rewrite Hf. split; intros H.
    - apply (Rmult_lt_compat_r (pw 2 l)) in H; [|assumption].
      unfold Rdiv in H at 1. rewrite Rmult_assoc, Rinv_l in H by lra. lra.
    - apply (Rmult_lt_reg_r (pw 2 l)); [assumption|].
      unfold Rdiv at 1. rewrite Rmult_assoc, Rinv_l by lra. lra. }
  destruct (Z.ltb_spec n d) as [C | C].
  - replace (l - 1 + 1)%Z with l by lia. split; [lra|].
    apply Q, Hlt, C.
  - split; [|assumption].
    destruct (Rlt_le_dec (IZR a / IZR b) (pw 2 l)) as [F | F]; [|assumption].
    apply Q, Hlt in F. lia.
Qed.

Lemma Zdiv_R (a b : Z) : (0 < b)%Z ->
  IZR (a / b) <= IZR a / IZR b < IZR (a / b) + 1.
Proof.
  intros Hb. pose proof (Z.div_mod a b ltac:(lia)) as E.
  pose proof (Z.mod_pos_bound a b Hb) as [M1 M2].
  assert (Rb : 0 < IZR b) by now apply IZR_lt.
  assert (Ea : IZR a = IZR b * IZR (a / b) + IZR (a mod b)).
  { rewrite <- mult_IZR, <- plus_IZR. now f_equal. }
  apply IZR_le in M1. apply IZR_lt in M2.
  split.
  - apply (Rmult_le_reg_r (IZR b)); [assumption|].
    unfold Rdiv. rewrite (Rmult_assoc (IZR a)), Rinv_l by lra. nra.
  - apply (Rmult_lt_reg_r (IZR b)); [assumption|].
    unfold Rdiv. rewrite (Rmult_assoc (IZR a)), Rinv_l by lra. nra.
Qed.

(** Rounding to the nearest integer is within one half. *)
Lemma div_half_even_spec (a b : Z) : (0 < b)%Z ->
  Rabs (IZR (div_half_even a b) - IZR a / IZR b) <= / 2.
Proof.
  intros Hb. unfold div_half_even.
  pose proof (Z.div_mod a b ltac:(lia)) as E.
  pose proof (Z.mod_pos_bound a b Hb) as [M1 M2].
  assert (Rb : 0 < IZR b) by now apply IZR_lt.
  assert (Ea : IZR a / IZR b = IZR (a / b) + IZR (a mod b) / IZR b).
  { rewrite E at 1. rewrite plus_IZR, mult_IZR. field. lra. }
  set (q := (a / b)%Z) in *. set (r := (a mod b)%Z) in *.
  assert (R0 : 0 <= IZR r / IZR b).
  { apply IZR_le in M1. apply Rmult_le_pos; [lra|].
    apply Rlt_le, Rinv_0_lt_compat, Rb. }
  assert (Hhalf : forall c, (2 * r ?= b)%Z = c ->
            match c with
            | Lt => IZR r / IZR b < / 2
            | Eq => IZR r / IZR b = / 2
            | Gt => / 2 < IZR r / IZR b
            end).
  { intros c Hc. destruct c.
    - apply Z.compare_eq in Hc. apply (f_equal IZR) in Hc.
      rewrite mult_IZR in Hc. apply (Rmult_eq_reg_r (IZR b)); [|lra].
      unfold Rdiv. rewrite Rmult_assoc, Rinv_l by lra. lra.
    - apply Z.compare_lt_iff, IZR_lt in Hc. rewrite mult_IZR in Hc.
      apply (Rmult_lt_reg_r (IZR b)); [assumption|].
      unfold Rdiv. rewrite Rmult_assoc, Rinv_l by lra. lra.
    - apply Z.compare_gt_iff, IZR_lt in Hc. rewrite mult_IZR in Hc.
      apply (Rmult_lt_reg_r (IZR b)); [assumption|].
      unfold Rdiv. rewrite Rmult_assoc, Rinv_l by lra. lra. }
  assert (R1 : IZR r / IZR b < 1).
  { apply IZR_lt in M2. apply (Rmult_lt_reg_r (IZR b)); [assumption|].
    unfold Rdiv. rewrite Rmult_assoc, Rinv_l by lra. lra. }
  specialize (Hhalf _ eq_refl). rewrite Ea.
  destruct (2 * r ?= b)%Z.
  - destruct (Z.even q); [|rewrite plus_IZR];
      apply Rabs_le; lra.
  - apply Rabs_le; lra.
  - rewrite plus_IZR. apply Rabs_le; lra.
Qed.

Lemma div_half_up_spec (a b : Z) : (0 < b)%Z ->
  IZR a / IZR b - / 2 < IZR (div_half_up a b) <= IZR a / IZR b + / 2.
Proof.
  intros Hb. unfold div_half_up.
  pose proof (Zdiv_R (2 * a + b) (2 * b) ltac:(lia)) as [H1 H2].
  assert (Rb : 0 < IZR b) by now apply IZR_lt.
  assert (E : IZR (2 * a + b) / IZR (2 * b) = IZR a / IZR b + / 2).
  { rewrite plus_IZR, !mult_IZR. field. lra. }
  rewrite E in H1, H2. lra.
Qed.

Lemma digits2_pos_log2 (m : positive) :
  Zpos (digits2_pos m) = (Z.log2 (Zpos m) + 1)%Z.
Proof.
  induction m as [m IH | m IH |]; cbn [digits2_pos]; [| |reflexivity].
  - rewrite Pos2Z.inj_succ, IH. destruct m; reflexivity || (cbn; lia).
  - rewrite Pos2Z.inj_succ, IH. destruct m; reflexivity || (cbn; lia).
Qed.

Lemma digits2_pos_53 (m : positive) :
  (2 ^ 52 <= Zpos m < 2 ^ 53)%Z -> Zpos (digits2_pos m) = 53%Z.
Proof.
  intros H. rewrite digits2_pos_log2.
  rewrite (Z.log2_unique (Zpos m) 52); [reflexivity | lia |].
  exact H.
Qed.

Lemma Rabs_scale (c x y : R) : 0 < c -> Rabs (c * x - c * y) = c * Rabs (x - y).
Proof.
  intros Hc. rewrite <- Rmult_minus_distr_l, Rabs_mult.
  now rewrite (Rabs_pos_eq c) by lra.
Qed.

(** A finite result of the rounding is within half a unit of its last
    place of the fraction. *)
Lemma round_binary64_error (neg s : bool) (a b : Z) (m : positive) (e : Z) :
  (0 < a)%Z -> (0 < b)%Z ->
  round_binary64 neg a b = S754_finite s m e ->
  s = neg /\ Rabs (value m e - IZR a / IZR b) <= pw 2 e / 2.
Proof.
  intros Ha Hb. unfold round_binary64.
  destruct (Z.leb_spec a 0) as [F | _]; [lia|].
  set (e0 := Z.max (ilog2 a b - 52) (-1074)).
  pose proof (scale_spec 2 a b e0 ltac:(lia) Hb) as [Hd Hf].
  destruct (scale 2 a b e0) as [n d]. cbn [fst snd] in *.
  pose proof (div_half_even_spec n d Hd) as Hm.
  unfold frac in Hf; cbn [fst snd] in Hf. rewrite Hf in Hm.
  set (m0 := div_half_even n d) in *.
  pose proof (pw_pos 2 e0 ltac:(lia)) as P0.
  set (z := IZR a / IZR b / pw 2 e0) in *.
  assert (Y : IZR a / IZR b = pw 2 e0 * z).
  { unfold z. field. split; [|lra]. apply IZR_lt in Hb. lra. }
  rewrite Y.
  destruct (Z.eqb_spec m0 (2 ^ 53)) as [E | E].
  - destruct (971 <? e0 + 1)%Z; [discriminate|].
    intros H. injection H as <- <- <-. split; [reflexivity|].
    unfold value. rewrite pw_add, pw_1 by lia.
    assert (V : forall c, c = IZR (2 ^ 52) ->
                c * (pw 2 e0 * 2) = pw 2 e0 * IZR m0).
    { intros c ->. rewrite E. rewrite <- !pw_IZR by lia.
      replace 53%Z with (52 + 1)%Z by lia. rewrite pw_add, pw_1 by lia. ring. }
    match goal with
    | |- Rabs (?c * ?t - _) <= _ =>
        replace (c * t) with (pw 2 e0 * IZR m0)
          by (symmetry; apply V; reflexivity)
    end.
    rewrite Rabs_scale by assumption. nra.
  - destruct m0 as [|p|p] eqn:Em; try discriminate.
    destruct (971 <? e0)%Z; [discriminate|].
    intros H. injection H as <- <- <-. split; [reflexivity|].
    unfold value. rewrite (Rmult_comm (IZR (Z.pos p))).
    rewrite Rabs_scale by assumption. nra.
Qed.

Lemma pw_le_inv (b n m : Z) : (1 < b)%Z -> pw b n < pw b m -> (n < m)%Z.
Proof.
  intros Hb H. destruct (Z.lt_ge_cases n m) as [C | C]; [assumption|].
  pose proof (pw_le b m n ltac:(lia) C). lra.
Qed.

Lemma pw_2_52 : pw 2 52 = 4503599627370496.
Proof. rewrite pw_IZR by lia. reflexivity. Qed.

Lemma pw_2_53 : pw 2 53 = 9007199254740992.
Proof. rewrite pw_IZR by lia. reflexivity. Qed.

Lemma Rabs_le_both (x b : R) : Rabs x <= b -> - b <= x <= b.
Proof. unfold Rabs. destruct (Rcase_abs x); lra. Qed.

(** In the range of the normal numbers the rounding gives a normal number. *)
Lemma round_binary64_normal (neg : bool) (a b : Z) :
  (0 < a)%Z -> (0 < b)%Z ->
  pw 2 (-1022) <= IZR a / IZR b <= max_value ->
  exists m e,
    round_binary64 neg a b = S754_finite neg m e /\
    (2 ^ 52 <= Zpos m < 2 ^ 53)%Z /\ (-1074 <= e <= 971)%Z.
Proof.
  intros Ha Hb [Hlo Hhi]. unfold round_binary64.
  destruct (Z.leb_spec a 0) as [F | _]; [lia|].
  pose proof (ilog2_spec a b Ha Hb) as [L1 L2].
  set (L := ilog2 a b) in *. set (y := IZR a / IZR b) in *.
  assert (HL1 : (-1022 <= L)%Z).
  { assert (pw 2 (-1022) < pw 2 (L + 1)) by lra.
    apply pw_le_inv in H; lia. }
  assert (HL2 : (L <= 1023)%Z).
  { assert (pw 2 L < pw 2 1024).
    { replace 1024%Z with (53 + 971)%Z by lia. rewrite pw_add, pw_2_53 by lia.
      unfold max_value in Hhi. pose proof (pw_pos 2 971 ltac:(lia)). nra. }
    apply pw_le_inv in H; lia. }
  rewrite Z.max_l by lia. set (e0 := (L - 52)%Z).
  pose proof (scale_spec 2 a b e0 ltac:(lia) Hb) as [Hd Hf].
  destruct (scale 2 a b e0) as [n d]. cbn [fst snd] in *.
  pose proof (div_half_even_spec n d Hd) as Hm.
  unfold frac in Hf; cbn [fst snd] in Hf. rewrite Hf in Hm. fold y in Hm, Hf.
  set (m0 := div_half_even n d) in *.
  pose proof (pw_pos 2 e0 ltac:(lia)) as P0.
  set (z := y / pw 2 e0) in *.
  assert (Y : y = pw 2 e0 * z) by (unfold z; field; lra).
  assert (Z1 : 4503599627370496 <= z).
  { rewrite <- pw_2_52. replace L with (52 + e0)%Z in L1 by (unfold e0; lia).
    rewrite pw_add in L1 by lia. rewrite Y in L1.
    pose proof (pw_pos 2 52 ltac:(lia)). nra. }
  assert (Z2 : z < 9007199254740992).
  { rewrite <- pw_2_53. replace (L + 1)%Z with (53 + e0)%Z in L2 by (unfold e0; lia).
    rewrite pw_add in L2 by lia. rewrite Y in L2.
    pose proof (pw_pos 2 53 ltac:(lia)). nra. }
  apply Rabs_le_both in Hm as [Hm1 Hm2].
  assert (M1 : (2 ^ 52 <= m0)%Z).
  { assert (IZR (2 ^ 52 - 1) < IZR m0).
    { change (IZR (2 ^ 52 - 1)) with 4503599627370495. lra. }
    apply lt_IZR in H. lia. }
  assert (M2 : (m0 <= 2 ^ 53)%Z).
  { assert (IZR m0 < IZR (2 ^ 53 + 1)).
    { change (IZR (2 ^ 53 + 1)) with 9007199254740993. lra. }
    apply lt_IZR in H. lia. }
  destruct (Z.eqb_spec m0 (2 ^ 53)) as [E | E].
  - assert (He : (e0 + 1 <= 971)%Z).
    { destruct (Z.le_gt_cases (e0 + 1) 971) as [C | C]; [assumption|].
      exfalso. assert (e0 = 971%Z) by (unfold e0 in *; lia).
      unfold max_value in Hhi. rewrite Y, H in Hhi.
      pose proof (pw_pos 2 971 ltac:(lia)).
      assert (z <= 9007199254740991) by nra.
      assert (IZR m0 < IZR (2 ^ 53)).
      { change (IZR (2 ^ 53)) with 9007199254740992. lra. }
      apply lt_IZR in H2. lia. }
    destruct (Z.ltb_spec 971 (e0 + 1)) as [C | C]; [lia|].
    eexists _, _. split; [reflexivity|]. split; [|unfold e0; lia].
    split; [reflexivity | reflexivity].
  - destruct m0 as [|p|p] eqn:Em; try lia.
    destruct (Z.ltb_spec 971 e0) as [C | C]; [unfold e0 in *; lia|].
    exists p, e0. split; [reflexivity|]. split; [lia | unfold e0; lia].
Qed.

Lemma ilog2_unique (a b L : Z) : (0 < a)%Z -> (0 < b)%Z ->
  pw 2 L <= IZR a / IZR b < pw 2 (L + 1) -> ilog2 a b = L.
Proof.
  intros Ha Hb [H1 H2]. pose proof (ilog2_spec a b Ha Hb) as [S1 S2].
  assert (A : pw 2 (ilog2 a b) < pw 2 (L + 1)) by lra.
  assert (B : pw 2 L < pw 2 (ilog2 a b + 1)) by lra.
  apply pw_le_inv in A; [|lia]. apply pw_le_inv in B; lia.
Qed.

Lemma scale_factor (base c a b n : Z) :
  scale base (c * a) (c * b) n =
  ((c * fst (scale base a b n))%Z, (c * snd (scale base a b n))%Z).
Proof.
  unfold scale. destruct (0 <=? n)%Z; cbn [fst snd]; f_equal; ring.
Qed.

Lemma div_half_even_factor (c a b : Z) : (0 < c)%Z -> (0 < b)%Z ->
  div_half_even (c * a) (c * b) = div_half_even a b.
Proof.
  intros Hc Hb. unfold div_half_even.
  rewrite Z.div_mul_cancel_l by lia.
  rewrite Z.mul_mod_distr_l by lia.
  replace (2 * (c * (a mod b)))%Z with (c * (2 * (a mod b)))%Z by ring.
  destruct (Z.compare_spec (c * (2 * (a mod b))) (c * b)),
    (Z.compare_spec (2 * (a mod b)) b); try reflexivity; nia.
Qed.

(** The rounding depends on the value of the fraction only. *)
Lemma round_binary64_factor (neg : bool) (c a b : Z) :
  (0 < c)%Z -> (0 < a)%Z -> (0 < b)%Z ->
  round_binary64 neg (c * a) (c * b) = round_binary64 neg a b.
Proof.
  intros Hc Ha Hb. unfold round_binary64.
  destruct (Z.leb_spec (c * a) 0) as [F | _]; [nia|].
  destruct (Z.leb_spec a 0) as [F | _]; [lia|].
  assert (E : ilog2 (c * a) (c * b) = ilog2 a b).
  { apply ilog2_unique; [nia | nia |].
    rewrite !mult_IZR.
    replace (IZR c * IZR a / (IZR c * IZR b)) with (IZR a / IZR b).
    - now apply ilog2_spec.
    - apply IZR_lt in Hc, Hb. field. lra. }
  rewrite E, scale_factor.
  pose proof (scale_spec 2 a b (Z.max (ilog2 a b - 52) (-1074)) ltac:(lia) Hb)
    as [Hd _].
  destruct (scale 2 a b (Z.max (ilog2 a b - 52) (-1074))) as [n d].
  cbn [fst snd] in *. now rewrite div_half_even_factor.
Qed.

Lemma reads_as_shift (x : spec_float) (s j : Z) : (0 < s)%Z ->
  reads_as x (10 * s) (j - 1) = reads_as x s j.
Proof.
  intros Hs. unfold reads_as, scale.
  destruct (Z.leb_spec 0 (- (j - 1))) as [A | A];
    destruct (Z.leb_spec 0 (- j)) as [B | B]; try lia.
  - replace (- (j - 1))%Z with (1 + - j)%Z by lia.
    rewrite Z.pow_add_r, Z.pow_1_r by lia.
    assert (0 < 10 ^ (- j))%Z by (apply Z.pow_pos_nonneg; lia).
    replace (1 * (10 * 10 ^ (- j)))%Z with (10 * (1 * 10 ^ (- j)))%Z by ring.
    rewrite round_binary64_factor by lia. reflexivity.
  - assert (j = 1%Z) by lia. subst j.
    change (- (1 - 1))%Z with 0%Z. change (- - (1))%Z with 1%Z.
    rewrite Z.pow_0_r, Z.pow_1_r.
    replace (10 * s)%Z with (s * 10)%Z by ring. reflexivity.
  - replace (- - j)%Z with (1 + - - (j - 1))%Z by lia.
    rewrite Z.pow_add_r, Z.pow_1_r by lia. do 2 f_equal; ring.
Qed.

Lemma valid_normal (neg : bool) (m : positive) (e : Z) :
  (2 ^ 52 <= Zpos m < 2 ^ 53)%Z -> (-1074 <= e <= 971)%Z ->
  valid_binary (S754_finite neg m e) = true.
Proof.
  intros Hm He.
  unfold valid_binary, SpecFloat.valid_binary, SpecFloat.bounded,
    SpecFloat.canonical_mantissa, SpecFloat.fexp, SpecFloat.emin.
  rewrite (digits2_pos_53 m Hm). apply andb_true_iff. split.
  - apply Z.eqb_eq. change prec with 53%Z. change emax with 1024%Z. lia.
  - apply Z.leb_le. change prec with 53%Z. change emax with 1024%Z. lia.
Qed.

(** ** Decimal exponents and digits *)

Lemma frac_scale_lt_1 (base a b n : Z) : (0 < base)%Z -> (0 < b)%Z ->
  ((fst (scale base a b n) <? snd (scale base a b n))%Z = true
   <-> IZR a / IZR b < pw base n).
Proof.
  intros Hbase Hb. pose proof (scale_spec base a b n Hbase Hb) as [Hd Hf].
  pose proof (frac_lt_1 (scale base a b n) Hd) as Hlt.
  pose proof (pw_pos base n Hbase) as P.
  rewrite Z.ltb_lt, <- Hlt, Hf. split; intros H.
  - apply (Rmult_lt_compat_r (pw base n)) in H; [|assumption].
    unfold Rdiv in H at 1. rewrite Rmult_assoc, Rinv_l in H by lra. lra.
  - apply (Rmult_lt_reg_r (pw base n)); [assumption|].
    unfold Rdiv at 1. rewrite Rmult_assoc, Rinv_l by lra. lra.
Qed.

Lemma exp10_search_spec (fuel : nat) (n a b : Z) : (0 < b)%Z ->
  pw 10 (n - 1) <= IZR a / IZR b < pw 10 (n + Z.of_nat fuel) ->
  pw 10 (exp10_search fuel n a b - 1) <= IZR a / IZR b
    < pw 10 (exp10_search fuel n a b).
Proof.
  intros Hb. revert n; induction fuel as [|f IH]; intros n [H1 H2].
  - cbn [exp10_search]. replace (n + Z.of_nat 0)%Z with n in H2 by lia. lra.
  - cbn [exp10_search].
    pose proof (frac_scale_lt_1 10 a b n ltac:(lia) Hb) as Hc.
    destruct (scale 10 a b n) as [p q]. cbn [fst snd] in Hc.
    destruct (p <? q)%Z.
    + split; [assumption|]. now apply Hc.
    + apply IH. replace (n + 1 - 1)%Z with n by lia.
      replace (n + 1 + Z.of_nat f)%Z with (n + Z.of_nat (S f))%Z by lia.
      split; [|assumption].
      destruct (Rlt_le_dec (IZR a / IZR b) (pw 10 n)) as [F | F]; [|assumption].
      apply Hc in F. discriminate F.
Qed.

Lemma pw_10_325_2_1074 : pw 10 (-325) <= pw 2 (-1074).
Proof.
  change (pw 10 (-325)) with (pw 10 (Z.opp 325)).
  change (pw 2 (-1074)) with (pw 2 (Z.opp 1074)).
  rewrite !pw_opp, !pw_IZR by lia.
  apply Rinv_le_contravar; [apply IZR_lt; reflexivity | apply IZR_le].
  vm_compute. discriminate.
Qed.

Lemma max_value_lt : max_value < pw 10 309.
Proof.
  unfold max_value. rewrite !pw_IZR by lia. rewrite <- mult_IZR.
  apply IZR_lt. vm_compute. reflexivity.
Qed.

Lemma decimal_exponent_spec (a b : Z) : (0 < b)%Z ->
  pw 2 (-1074) <= IZR a / IZR b <= max_value ->
  pw 10 (decimal_exponent a b - 1) <= IZR a / IZR b
    < pw 10 (decimal_exponent a b).
Proof.
  intros Hb [H1 H2]. apply exp10_search_spec; [assumption|].
  pose proof pw_10_325_2_1074. pose proof max_value_lt.
  pose proof (pw_le 10 309 (-324 + Z.of_nat 640) ltac:(lia) ltac:(lia)).
  change (-324 - 1)%Z with (-325)%Z. lra.
Qed.

Lemma pw_10_11 : pw 10 11 = 100000000000.
Proof. rewrite pw_IZR by lia. reflexivity. Qed.

Lemma pw_10_12 : pw 10 12 = 1000000000000.
Proof. rewrite pw_IZR by lia. reflexivity. Qed.

Lemma max_value_digits :
  max_value < 179769313486.5 * pw 10 297 /\
  179769313486 * pw 10 297 <= max_value /\
  pw 10 308 <= max_value.
Proof.
  unfold max_value. rewrite !pw_IZR by lia. repeat split.
  - apply (Rmult_lt_reg_l 2); [lra|].
    replace (2 * (9007199254740991 * IZR (2 ^ 971)))
      with (IZR (2 * (9007199254740991 * 2 ^ 971))) by (rewrite !mult_IZR; ring).
    replace (2 * (179769313486.5 * IZR (10 ^ 297)))
      with (IZR (359538626973 * 10 ^ 297)) by (rewrite mult_IZR; lra).
    apply IZR_lt. vm_compute. reflexivity.
  - rewrite <- !mult_IZR. apply IZR_le. vm_compute. discriminate.
  - rewrite <- mult_IZR. apply IZR_le. vm_compute. discriminate.
Qed.

(** The digits of [toPrecision(12)] are those of the decimal of twelve
    digits nearest to the value, which is again in the range of the normal
    numbers. *)
Lemma precision_digits_spec (a b : Z) : (0 < b)%Z ->
  pw 2 (-41) <= IZR a / IZR b <= max_value ->
  let N := fst (precision_digits a b 12) in
  let E := snd (precision_digits a b 12) in
  (10 ^ 11 <= N < 10 ^ 12)%Z /\
  Rabs (IZR N * pw 10 (E - 11) - IZR a / IZR b) <= pw 10 (E - 11) / 2 /\
  pw 2 (-1022) <= IZR N * pw 10 (E - 11) <= max_value.
Proof.
  intros Hb Hy.
  assert (Hy' : pw 2 (-1074) <= IZR a / IZR b <= max_value).
  { pose proof (pw_le 2 (-1074) (-41) ltac:(lia) ltac:(lia)). lra. }
  pose proof (decimal_exponent_spec a b Hb Hy') as [D1 D2].
  unfold precision_digits. set (E0 := (decimal_exponent a b - 1)%Z) in *.
  replace (decimal_exponent a b) with (E0 + 1)%Z in D2 by (unfold E0; lia).
  change (Z.of_nat 12) with 12%Z. change (12 - 1)%Z with 11%Z.
  pose proof (scale_spec 10 a b (E0 - 11) ltac:(lia) Hb) as [Hv Hf].
  destruct (scale 10 a b (E0 - 11)) as [u v]. cbn [fst snd] in *.
  unfold frac in Hf; cbn [fst snd] in Hf.
  pose proof (div_half_up_spec u v Hv) as [U1 U2]. rewrite Hf in U1, U2.
  set (y := IZR a / IZR b) in *. set (g := pw 10 (E0 - 11)) in *.
  assert (G : 0 < g) by (apply pw_pos; lia).
  set (w := y / g) in *.
  assert (Y : y = g * w) by (unfold w; field; lra).
  assert (G11 : pw 10 E0 = g * 100000000000).
  { rewrite <- pw_10_11. unfold g. rewrite <- pw_add by lia. f_equal. lia. }
  assert (G12 : pw 10 (E0 + 1) = g * 1000000000000).
  { rewrite <- pw_10_12. unfold g. rewrite <- pw_add by lia. f_equal. lia. }
  assert (W1 : 100000000000 <= w) by (rewrite G11, Y in D1; nra).
  assert (W2 : w < 1000000000000) by (rewrite G12, Y in D2; nra).
  set (N0 := div_half_up u v) in *.
  assert (N1 : (10 ^ 11 <= N0)%Z).
  { assert (IZR (10 ^ 11 - 1) < IZR N0).
    { change (IZR (10 ^ 11 - 1)) with 99999999999. lra. }
    apply lt_IZR in H. lia. }
  assert (N2 : (N0 <= 10 ^ 12)%Z).
  { assert (IZR N0 < IZR (10 ^ 12 + 1)).
    { change (IZR (10 ^ 12 + 1)) with 1000000000001. lra. }
    apply lt_IZR in H. lia. }
  assert (Hlow : pw 2 (-1022) <= y / 2).
  { pose proof (pw_le 2 (-1022) (-42) ltac:(lia) ltac:(lia)).
    assert (pw 2 (-41) = 2 * pw 2 (-42)).
    { replace (-41)%Z with (1 + -42)%Z by lia. now rewrite pw_add, pw_1 by lia. }
    lra. }
  assert (E308 : (E0 <= 308)%Z).
  { pose proof max_value_lt. assert (pw 10 E0 < pw 10 309) by lra.
    apply pw_le_inv in H0; lia. }
  assert (W308 : E0 = 308%Z -> w < 179769313486.5).
  { intros E8. pose proof max_value_digits as [M1 _].
    assert (Hg : g = pw 10 297) by (unfold g; f_equal; lia).
    destruct Hy as [_ Hy]. rewrite Y in Hy. rewrite <- Hg in M1.
    apply (Rmult_lt_reg_l g); lra. }
  destruct (Z.eqb_spec N0 (10 ^ 12)) as [C | C]; cbn [fst snd].
  - split; [lia|]. replace (E0 + 1 - 11)%Z with (1 + (E0 - 11))%Z by lia.
    rewrite pw_add, pw_1 by lia. fold g.
    change (IZR (10 ^ (12 - 1))) with 100000000000.
    rewrite C in U1, U2. change (IZR (10 ^ 12)) with 1000000000000 in U1, U2.
    assert (T1 : g * w <= g * 1000000000000)
      by (apply Rmult_le_compat_l; lra).
    assert (T2 : g * (1000000000000 - / 2) <= g * w)
      by (apply Rmult_le_compat_l; lra).
    split; [apply Rabs_le; rewrite Y; lra|].
    split; [lra|].
    destruct (Z.eq_dec E0 308) as [E8 | E8].
    + exfalso. specialize (W308 E8). lra.
    + pose proof max_value_digits as (_ & _ & M3).
      pose proof (pw_le 10 (E0 + 1) 308 ltac:(lia) ltac:(lia)).
      rewrite G12 in H. lra.
  - split; [lia|]. fold g.
    assert (T1 : g * (IZR N0 - w) <= g * / 2)
      by (apply Rmult_le_compat_l; lra).
    assert (T2 : g * (- / 2) <= g * (IZR N0 - w))
      by (apply Rmult_le_compat_l; lra).
    assert (T3 : g * (w / 2) <= g * IZR N0)
      by (apply Rmult_le_compat_l; lra).
    split; [apply Rabs_le; rewrite Y; lra|].
    split; [lra|].
    destruct (Z.eq_dec E0 308) as [E8 | E8].
    + pose proof max_value_digits as (M1 & M2 & _).
      specialize (W308 E8).
      assert (Hg : g = pw 10 297) by (unfold g; f_equal; lia).
      assert (IZR N0 < IZR 179769313487).
      { change (IZR 179769313487) with 179769313487. lra. }
      apply lt_IZR in H. assert (IZR N0 <= 179769313486) by (apply IZR_le; lia).
      rewrite <- Hg in M2.
      apply Rle_trans with (179769313486 * g); [|assumption].
      apply Rmult_le_compat_r; lra.
    + pose proof max_value_digits as (_ & _ & M3).
      pose proof (pw_le 10 (E0 + 1) 308 ltac:(lia) ltac:(lia)).
      rewrite G12 in H.
      assert (IZR N0 <= 1000000000000).
      { change 1000000000000 with (IZR (10 ^ 12)). apply IZR_le. lia. }
      nra.
Qed.

(** ** The shortest digits *)

Lemma sf_eqb_eq (x y : spec_float) : sf_eqb x y = true -> x = y.
Proof.
  destruct x as [s | s | | s m e], y as [t | t | | t n f]; cbn;
    try discriminate; try reflexivity.
  - intros H. apply eqb_prop in H. now subst.
  - intros H. apply eqb_prop in H. now subst.
  - intros H. apply andb_true_iff in H as [H H3].
    apply andb_true_iff in H as [H1 H2].
    apply eqb_prop in H1. apply Pos.eqb_eq in H2. apply Z.eqb_eq in H3.
    now subst.
Qed.

Lemma scale_fst_pos (base a b n : Z) : (0 < base)%Z -> (0 < a)%Z ->
  (0 < fst (scale base a b n))%Z.
Proof.
  intros Hb Ha. unfold scale.
  destruct (Z.leb_spec 0 n); cbn [fst]; [assumption|].
  apply Z.mul_pos_pos; [assumption|]. apply Z.pow_pos_nonneg; lia.
Qed.

Lemma fraction_of_spec (m : positive) (e : Z) :
  (0 < fst (fraction_of m e))%Z /\ (0 < snd (fraction_of m e))%Z /\
  frac (fraction_of m e) = value m e.
Proof.
  unfold fraction_of.
  pose proof (scale_spec 2 (Zpos m) 1 (- e) ltac:(lia) ltac:(lia)) as [H1 H2].
  split; [apply scale_fst_pos; lia|]. split; [assumption|].
  rewrite H2, pw_opp. unfold value.
  pose proof (pw_pos 2 e ltac:(lia)). field. lra.
Qed.

Lemma pw_2_m53 : pw 2 (-53) = / 9007199254740992.
Proof.
  change (pw 2 (-53)) with (pw 2 (Z.opp 53)). now rewrite pw_opp, pw_2_53.
Qed.

(** A decimal that denotes a normal number is within the relative error
    [2^-53] of it. *)
Lemma reads_as_error (m : positive) (e s j : Z) :
  (2 ^ 52 <= Zpos m)%Z -> (0 < s)%Z ->
  reads_as (S754_finite false m e) s j = true ->
  Rabs (value m e - IZR s * pw 10 j) <= value m e * / 9007199254740992.
Proof.
  intros Hm Hs. unfold reads_as.
  pose proof (scale_spec 10 s 1 (- j) ltac:(lia) ltac:(lia)) as [Hq Hf].
  pose proof (scale_fst_pos 10 s 1 (- j) ltac:(lia) Hs) as Hp.
  destruct (scale 10 s 1 (- j)) as [p q]. cbn [fst snd] in *.
  unfold frac in Hf; cbn [fst snd] in Hf.
  intros H. apply sf_eqb_eq in H.
  apply round_binary64_error in H as [_ H]; [|assumption|assumption].
  rewrite Hf, pw_opp in H.
  replace (IZR s / 1 / / pw 10 j) with (IZR s * pw 10 j) in H
    by (pose proof (pw_pos 10 j ltac:(lia)); field; lra).
  eapply Rle_trans; [exact H|]. unfold value.
  pose proof (pw_pos 2 e ltac:(lia)).
  assert (4503599627370496 <= IZR (Zpos m)).
  { change 4503599627370496 with (IZR (2 ^ 52)). now apply IZR_le. }
  nra.
Qed.

Lemma reads_as_shift_n (x : spec_float) (s j : Z) (t : nat) : (0 < s)%Z ->
  reads_as x (s * 10 ^ Z.of_nat t) (j - Z.of_nat t) = reads_as x s j.
Proof.
  intros Hs. induction t as [|t IH].
  - cbn. f_equal; lia.
  - rewrite Nat2Z.inj_succ, Z.pow_succ_r by lia.
    replace (s * (10 * 10 ^ Z.of_nat t))%Z with (10 * (s * 10 ^ Z.of_nat t))%Z
      by ring.
    replace (j - Z.succ (Z.of_nat t))%Z with (j - Z.of_nat t - 1)%Z by lia.
    rewrite reads_as_shift; [exact IH|].
    apply Z.mul_pos_pos; [assumption|]. apply Z.pow_pos_nonneg; lia.
Qed.

Lemma div_half_even_cases (a b : Z) :
  div_half_even a b = (a / b)%Z \/ div_half_even a b = (a / b + 1)%Z.
Proof.
  unfold div_half_even. destruct (2 * (a mod b) ?= b)%Z; auto.
  destruct (Z.even (a / b)); auto.
Qed.

(** One step of the search. *)
Lemma shortest_step (fuel k : nat) (x : spec_float) (a b n : Z) :
  exists c,
    (c = lower_digits a b n k \/ c = (lower_digits a b n k + 1)%Z) /\
    (level_ok x a b n k = true ->
       reads_as x c (n - Z.of_nat k) = true /\
       shortest fuel k x a b n =
       if (c =? 10 ^ Z.of_nat k)%Z then (1%Z, 1%nat, (n + 1)%Z) else (c, k, n)) /\
    (level_ok x a b n k = false ->
       match fuel with
       | O => True
       | S f => shortest fuel k x a b n = shortest f (S k) x a b n
       end).
Proof.
  unfold level_ok, lower_digits.
  destruct fuel as [|f]; cbn [shortest];
    destruct (scale 10 a b (n - Z.of_nat k)) as [p q];
    destruct (reads_as x (p / q) (n - Z.of_nat k)) eqn:E1;
    destruct (reads_as x (p / q + 1) (n - Z.of_nat k)) eqn:E2; cbn [orb].
  all: lazymatch type of E1 with
       | _ = true =>
           lazymatch type of E2 with
           | _ = true =>
               destruct (div_half_even_cases p q) as [D | D]; rewrite D;
               [ exists (p / q)%Z | exists (p / q + 1)%Z ];
               (split; [auto|]);
               (split; [intros _; split; [assumption | reflexivity]
                       | discriminate])
           | _ = false =>
               exists (p / q)%Z; split; [auto|];
               split; [intros _; split; [assumption | reflexivity]
                      | discriminate]
           end
       | _ = false =>
           lazymatch type of E2 with
           | _ = true =>
               exists (p / q + 1)%Z; split; [auto|];
               split; [intros _; split; [assumption | reflexivity]
                      | discriminate]
           | _ = false =>
               exists (p / q)%Z; split; [auto|]; split; [discriminate | auto]
           end
       end.
Qed.

Section Shortest.

Variables (m : positive) (e : Z).
Hypothesis Hm : (2 ^ 52 <= Zpos m < 2 ^ 53)%Z.
Hypothesis He : (-1074 <= e <= 971)%Z.

Let X := S754_finite false m e.
Let xv := value m e.
Let a := fst (fraction_of m e).
Let b := snd (fraction_of m e).
Let n := decimal_exponent a b.
Let g := pw 10 (n - 12).
Let xh := xv / g.
Let u := / 9007199254740992.

Variables (N j : Z).
Hypothesis HN : (10 ^ 11 <= N < 10 ^ 12)%Z.
Hypothesis HR : reads_as X N j = true.

Let d := IZR N * pw 10 j.

Lemma fraction_value : (0 < a)%Z /\ (0 < b)%Z /\ IZR a / IZR b = xv.
Proof. exact (fraction_of_spec m e). Qed.

Lemma value_range : pw 2 (-1074) <= xv <= max_value.
Proof.
  unfold xv, value, max_value.
  assert (M1 : 4503599627370496 <= IZR (Zpos m)).
  { change 4503599627370496 with (IZR (2 ^ 52)). apply IZR_le. lia. }
  assert (M2 : IZR (Zpos m) <= 9007199254740991).
  { change 9007199254740991 with (IZR (2 ^ 53 - 1)). apply IZR_le. lia. }
  pose proof (pw_le 2 (-1074) e ltac:(lia) ltac:(lia)).
  pose proof (pw_le 2 e 971 ltac:(lia) ltac:(lia)).
  pose proof (pw_pos 2 (-1074) ltac:(lia)).
  pose proof (pw_pos 2 e ltac:(lia)).
  split; [nra|].
  apply Rle_trans with (9007199254740991 * pw 2 e).
  - apply Rmult_le_compat_r; lra.
  - apply Rmult_le_compat_l; lra.
Qed.

Lemma value_decade : pw 10 (n - 1) <= xv < pw 10 n.
Proof.
  destruct fraction_value as (Ha & Hb & E). rewrite <- E.
  apply decimal_exponent_spec; [assumption|]. rewrite E. exact value_range.
Qed.

Lemma grid_unit : 0 < g /\ pw 10 (n - 1) = g * 100000000000
            /\ pw 10 n = g * 1000000000000.
Proof.
  split; [apply pw_pos; lia|]. unfold g. split.
  - rewrite <- pw_10_11, <- pw_add by lia. f_equal. lia.
  - rewrite <- pw_10_12, <- pw_add by lia. f_equal. lia.
Qed.

Lemma value_on_grid : xv = g * xh /\ 100000000000 <= xh < 1000000000000.
Proof.
  destruct grid_unit as (G & G1 & G2). destruct value_decade as [N1 N2].
  assert (Y : xv = g * xh) by (unfold xh; field; lra).
  split; [assumption|]. rewrite G1, Y in N1. rewrite G2, Y in N2.
  split; [apply (Rmult_le_reg_l g); lra | apply (Rmult_lt_reg_l g); lra].
Qed.

Lemma digits_positive : (0 < N)%Z.
Proof. lia. Qed.

Lemma digits_close : Rabs (xv - d) <= xv * u.
Proof. apply reads_as_error; [lia | apply digits_positive | exact HR]. Qed.

Lemma u_small : 0 < u /\ 2000000000000 * u < 1.
Proof. unfold u. split; lra. Qed.

Lemma digits_exponent_bound : (n - 12 <= j)%Z.
Proof.
  destruct (Z.le_gt_cases (n - 12) j) as [C | C]; [assumption|]. exfalso.
  destruct grid_unit as (G & G1 & G2). destruct value_on_grid as (Y & X1 & X2).
  pose proof digits_close as Hd. apply Rabs_le_both in Hd as [_ Hd].
  destruct u_small as [U0 U1].
  assert (P : pw 10 j * 10 <= g).
  { replace (pw 10 j * 10) with (pw 10 (j + 1))
      by (rewrite pw_add, pw_1 by lia; reflexivity).
    apply pw_le; lia. }
  assert (Pj : 0 < pw 10 j) by (apply pw_pos; lia).
  assert (N2 : IZR N <= 999999999999).
  { change 999999999999 with (IZR (10 ^ 12 - 1)). apply IZR_le. lia. }
  assert (D1 : d <= 999999999999 * pw 10 j).
  { unfold d. apply Rmult_le_compat_r; lra. }
  assert (T1 : g * 100000000000 <= g * xh) by (apply Rmult_le_compat_l; lra).
  assert (T2 : g * xh * u <= g * 1000000000000 * u).
  { apply Rmult_le_compat_r; [lra|]. apply Rmult_le_compat_l; lra. }
  rewrite Y in Hd.
  assert (T3 : g * (1000000000000 * u) < g * / 100).
  { apply Rmult_lt_compat_l; [assumption|]. unfold u. lra. }
  lra.
Qed.

Let t : nat := Z.to_nat (j - (n - 12)).
Let D' : Z := (N * 10 ^ Z.of_nat t)%Z.

Lemma digits_on_grid : (0 < D')%Z /\ d = g * IZR D' /\
            reads_as X D' (n - 12) = true /\
            Rabs (xh - IZR D') <= xh * u.
Proof.
  pose proof digits_exponent_bound as Hj. destruct grid_unit as (G & _).
  assert (Ht : Z.of_nat t = (j - (n - 12))%Z) by (unfold t; lia).
  assert (P : (0 < 10 ^ Z.of_nat t)%Z) by (apply Z.pow_pos_nonneg; lia).
  assert (E : d = g * IZR D').
  { unfold d, D', g. rewrite mult_IZR, <- pw_IZR by lia.
    replace j with (n - 12 + Z.of_nat t)%Z at 1 by lia.
    rewrite pw_add by lia. ring. }
  split; [unfold D'; pose proof digits_positive; nia|]. split; [assumption|]. split.
  - replace (n - 12)%Z with (j - Z.of_nat t)%Z by lia.
    unfold D'. rewrite reads_as_shift_n by apply digits_positive. exact HR.
  - pose proof digits_close as Hd. destruct value_on_grid as (Y & _).
    rewrite E, Y in Hd.
    replace (g * xh - g * IZR D') with (g * (xh - IZR D')) in Hd by ring.
    rewrite Rabs_mult, (Rabs_pos_eq g) in Hd by lra.
    apply (Rmult_le_reg_l g); [assumption|]. lra.
Qed.

(** The level of [k] digits. *)
Lemma level_unit (k : nat) : (k <= 12)%nat ->
  pw 10 (n - Z.of_nat k) = g * IZR (10 ^ (12 - Z.of_nat k)).
Proof.
  intros Hk. rewrite <- pw_IZR by lia. unfold g.
  rewrite <- pw_add by lia. f_equal. lia.
Qed.

Lemma lower_digits_floor (k : nat) :
  IZR (lower_digits a b n k) <= xv / pw 10 (n - Z.of_nat k)
    < IZR (lower_digits a b n k) + 1.
Proof.
  destruct fraction_value as (Ha & Hb & E). unfold lower_digits.
  pose proof (scale_spec 10 a b (n - Z.of_nat k) ltac:(lia) Hb) as [Hq Hf].
  destruct (scale 10 a b (n - Z.of_nat k)) as [p q]. cbn [fst snd] in *.
  unfold frac in Hf; cbn [fst snd] in Hf. rewrite E in Hf. rewrite <- Hf.
  now apply Zdiv_R.
Qed.

Lemma lower_digits_count (k : nat) : (1 <= k)%nat ->
  (10 ^ (Z.of_nat k - 1) <= lower_digits a b n k < 10 ^ Z.of_nat k)%Z.
Proof.
  intros Hk. destruct (lower_digits_floor k) as [L1 L2]. destruct value_decade as [N1 N2].
  set (l := lower_digits a b n k) in *.
  set (p := pw 10 (n - Z.of_nat k)) in *.
  assert (P : 0 < p) by (apply pw_pos; lia).
  assert (E1 : pw 10 (n - 1) = p * IZR (10 ^ (Z.of_nat k - 1))).
  { rewrite <- pw_IZR by lia. unfold p. rewrite <- pw_add by lia. f_equal. lia. }
  assert (E2 : pw 10 n = p * IZR (10 ^ Z.of_nat k)).
  { rewrite <- pw_IZR by lia. unfold p. rewrite <- pw_add by lia. f_equal. lia. }
  set (z := xv / p) in *.
  assert (Y : xv = p * z) by (unfold z; field; lra).
  rewrite E1, Y in N1. rewrite E2, Y in N2.
  apply Rmult_le_reg_l in N1; [|assumption].
  apply Rmult_lt_reg_l in N2; [|assumption].
  split.
  - assert (IZR (10 ^ (Z.of_nat k - 1)) < IZR (l + 1)) by (rewrite plus_IZR; lra).
    apply lt_IZR in H. lia.
  - apply lt_IZR. lra.
Qed.

(** Among the decimals of at most twelve digits only one denotes the
    number. *)
Lemma denoting_decimal_unique (k : nat) (c : Z) : (1 <= k <= 12)%nat -> (0 < c)%Z ->
  reads_as X c (n - Z.of_nat k) = true ->
  IZR c * pw 10 (n - Z.of_nat k) = d.
Proof.
  intros Hk Hc Hr. destruct digits_on_grid as (HD & E & _ & B).
  destruct grid_unit as (G & _). destruct value_on_grid as (Y & X1 & X2).
  destruct u_small as [U0 U1].
  pose proof (reads_as_error m e c (n - Z.of_nat k) ltac:(lia) Hc Hr) as Hd.
  fold xv u in Hd. rewrite level_unit in Hd by lia. rewrite level_unit by lia.
  set (c' := (c * 10 ^ (12 - Z.of_nat k))%Z).
  assert (Ec : IZR c * (g * IZR (10 ^ (12 - Z.of_nat k))) = g * IZR c').
  { unfold c'. rewrite mult_IZR. ring. }
  rewrite Ec in *. rewrite Y in Hd.
  replace (g * xh - g * IZR c') with (g * (xh - IZR c')) in Hd by ring.
  rewrite Rabs_mult, (Rabs_pos_eq g) in Hd by lra.
  assert (Hd' : Rabs (xh - IZR c') <= xh * u)
    by (apply (Rmult_le_reg_l g); [assumption | lra]).
  apply Rabs_le_both in Hd' as [A1 A2]. apply Rabs_le_both in B as [B1 B2].
  assert (T : xh * u <= 1000000000000 * u)
    by (apply Rmult_le_compat_r; lra).
  assert (C1 : (c' < D' + 1)%Z) by (apply lt_IZR; rewrite plus_IZR; lra).
  assert (C2 : (D' < c' + 1)%Z) by (apply lt_IZR; rewrite plus_IZR; lra).
  rewrite E. f_equal. f_equal. lia.
Qed.

(** With twelve digits one of the two decimals around the number denotes
    it. *)
Lemma twelve_digits_suffice : level_ok X a b n 12 = true.
Proof.
  destruct digits_on_grid as (HD & E & R & B). destruct (lower_digits_floor 12) as [L1 L2].
  destruct grid_unit as (G & _). destruct value_on_grid as (Y & X1 & X2).
  destruct u_small as [U0 U1].
  change (Z.of_nat 12) with 12%Z in *. fold g in L1, L2. fold xh in L1, L2.
  apply Rabs_le_both in B as [B1 B2].
  assert (T : xh * u <= 1000000000000 * u)
    by (apply Rmult_le_compat_r; lra).
  set (l := lower_digits a b n 12) in *.
  assert (C1 : (l < D' + 1)%Z) by (apply lt_IZR; rewrite plus_IZR; lra).
  assert (C2 : (D' < l + 2)%Z) by (apply lt_IZR; rewrite plus_IZR; lra).
  unfold level_ok. fold l. change (Z.of_nat 12) with 12%Z.
  destruct (Z.eq_dec D' l) as [<- | Hne].
  - now rewrite R.
  - replace (l + 1)%Z with D' by lia. rewrite R. apply orb_true_r.
Qed.

(** A digit string that ends in zero has a shorter one. *)
Lemma trailing_zero_shorter (k : nat) (c : Z) : (1 <= k)%nat ->
  c = lower_digits a b n (S k) \/ c = (lower_digits a b n (S k) + 1)%Z ->
  reads_as X c (n - Z.of_nat (S k)) = true ->
  (c mod 10 = 0)%Z ->
  level_ok X a b n k = true.
Proof.
  intros Hk Hc Hr Hz.
  pose proof (lower_digits_count (S k) ltac:(lia)) as [B1 _].
  assert (P : (0 < 10 ^ (Z.of_nat (S k) - 1))%Z)
    by (apply Z.pow_pos_nonneg; lia).
  assert (Hc0 : (0 < c)%Z) by (destruct Hc; lia).
  set (c' := (c / 10)%Z).
  assert (Ec : c = (10 * c')%Z).
  { unfold c'. pose proof (Z.div_mod c 10 ltac:(lia)). lia. }
  assert (Hc' : (0 < c')%Z) by lia.
  assert (R' : reads_as X c' (n - Z.of_nat k) = true).
  { rewrite <- (reads_as_shift X c' (n - Z.of_nat k) Hc'), <- Ec.
    rewrite <- Hr. f_equal. lia. }
  destruct (lower_digits_floor (S k)) as [A1 A2]. destruct (lower_digits_floor k) as [L1 L2].
  set (l := lower_digits a b n k) in *.
  set (l1 := lower_digits a b n (S k)) in *.
  assert (Ep : pw 10 (n - Z.of_nat k) = 10 * pw 10 (n - Z.of_nat (S k))).
  { replace (n - Z.of_nat k)%Z with (1 + (n - Z.of_nat (S k)))%Z by lia.
    now rewrite pw_add, pw_1 by lia. }
  pose proof (pw_pos 10 (n - Z.of_nat (S k)) ltac:(lia)) as Pp.
  set (p := pw 10 (n - Z.of_nat (S k))) in *.
  set (z := xv / p) in *.
  assert (Ez : xv / pw 10 (n - Z.of_nat k) = z / 10).
  { rewrite Ep. unfold z. field. lra. }
  rewrite Ez in L1, L2.
  assert (Cc : IZR c - 1 <= z < IZR c + 1).
  { destruct Hc as [-> | ->]; [|rewrite plus_IZR]; lra. }
  rewrite Ec, mult_IZR in Cc.
  assert (C1 : (l < c' + 1)%Z) by (apply lt_IZR; rewrite plus_IZR; lra).
  assert (C2 : (c' < l + 2)%Z) by (apply lt_IZR; rewrite plus_IZR; lra).
  unfold level_ok. fold l.
  destruct (Z.eq_dec c' l) as [<- | Hne].
  - now rewrite R'.
  - replace (l + 1)%Z with c' by lia. rewrite R'. apply orb_true_r.
Qed.

(** The search stops with at most twelve digits, the last of them not
    zero, which are the digits of the decimal it started from. *)
Lemma shortest_spec (fuel k : nat) :
  (1 <= k <= 12)%nat -> (12 <= k + fuel)%nat ->
  (forall k', (1 <= k' < k)%nat -> level_ok X a b n k' = false) ->
  let r := shortest fuel k X a b n in
  (1 <= snd (fst r) <= 12)%nat /\
  (10 ^ (Z.of_nat (snd (fst r)) - 1) <= fst (fst r)
     < 10 ^ Z.of_nat (snd (fst r)))%Z /\
  (fst (fst r) mod 10 <> 0)%Z /\
  IZR (fst (fst r)) * pw 10 (snd r - Z.of_nat (snd (fst r))) = d.
Proof.
  assert (Found : forall fuel0 k c,
    (1 <= k <= 12)%nat ->
    (forall k', (1 <= k' < k)%nat -> level_ok X a b n k' = false) ->
    c = lower_digits a b n k \/ c = (lower_digits a b n k + 1)%Z ->
    reads_as X c (n - Z.of_nat k) = true ->
    shortest fuel0 k X a b n =
      (if (c =? 10 ^ Z.of_nat k)%Z then (1%Z, 1%nat, (n + 1)%Z) else (c, k, n)) ->
    let r := shortest fuel0 k X a b n in
    (1 <= snd (fst r) <= 12)%nat /\
    (10 ^ (Z.of_nat (snd (fst r)) - 1) <= fst (fst r)
       < 10 ^ Z.of_nat (snd (fst r)))%Z /\
    (fst (fst r) mod 10 <> 0)%Z /\
    IZR (fst (fst r)) * pw 10 (snd r - Z.of_nat (snd (fst r))) = d).
  { clear k fuel. intros fuel k c Hk Hprev Hc Hr Hs. cbn zeta. rewrite Hs. clear Hs.
    pose proof (lower_digits_count k ltac:(lia)) as [B1 B2].
    assert (P : (0 < 10 ^ (Z.of_nat k - 1))%Z) by (apply Z.pow_pos_nonneg; lia).
    assert (Hc0 : (0 < c)%Z) by (destruct Hc; lia).
    pose proof (denoting_decimal_unique k c Hk Hc0 Hr) as Hu.
    destruct (Z.eqb_spec c (10 ^ Z.of_nat k)) as [C | C]; cbn [fst snd].
    - split; [lia|]. split; [cbn; lia|]. split; [cbn; lia|].
      rewrite <- Hu, C, <- pw_IZR, <- pw_add by lia. rewrite Rmult_1_l.
      f_equal. lia.
    - split; [lia|]. split; [destruct Hc; lia|]. split; [|exact Hu].
      intros Hz. destruct k as [|[|k1]]; [lia | |].
      { change (10 ^ (Z.of_nat 1 - 1))%Z with 1%Z in B1.
        change (10 ^ Z.of_nat 1)%Z with 10%Z in B2, C.
        set (l := lower_digits a b n 1) in *. clearbody l.
        clear - Hc B1 B2 C Hz.
        pose proof (Z.div_mod c 10 ltac:(lia)). destruct Hc; lia. }
      pose proof (trailing_zero_shorter (S k1) c ltac:(lia) Hc Hr Hz) as Hl.
      rewrite (Hprev (S k1) ltac:(lia)) in Hl. discriminate Hl. }
  revert k; induction fuel as [|f IH]; intros k Hk Hf Hprev.
  - destruct (shortest_step 0 k X a b n) as (c & Hc & Hok & _).
    assert (k = 12%nat) by lia. subst k.
    destruct (Hok twelve_digits_suffice) as [Hr Hs]. now apply (Found 0%nat 12%nat c).
  - destruct (shortest_step (S f) k X a b n) as (c & Hc & Hok & Hko).
    destruct (level_ok X a b n k) eqn:Elev.
    + destruct (Hok eq_refl) as [Hr Hs]. now apply (Found (S f) k c).
    + destruct (Nat.eq_dec k 12) as [-> | Hne];
        [rewrite twelve_digits_suffice in Elev; discriminate Elev|].
      cbn zeta. rewrite (Hko eq_refl). apply IH; [lia | lia |].
      intros k' Hk'. destruct (Nat.eq_dec k' k) as [-> | Hn']; [assumption|].
      apply Hprev. lia.
Qed.

End Shortest.

(** ** The formatted result *)

Lemma epsilon_form :
  Prim2SF epsilon = S754_finite false 4951760157141521 (-92).
Proof. vm_compute. reflexivity. Qed.

Lemma valid_bounds (neg : bool) (m : positive) (e : Z) :
  valid_binary (S754_finite neg m e) = true ->
  (Zpos m < 2 ^ 53)%Z /\ (-1074 <= e <= 971)%Z /\
  ((-1074 < e)%Z -> (2 ^ 52 <= Zpos m)%Z).
Proof.
  unfold valid_binary, SpecFloat.valid_binary, SpecFloat.bounded,
    SpecFloat.canonical_mantissa, SpecFloat.fexp, SpecFloat.emin.
  change prec with 53%Z. change emax with 1024%Z.
  intros H. apply andb_true_iff in H as [H1 H2].
  apply Z.eqb_eq in H1. apply Z.leb_le in H2.
  rewrite digits2_pos_log2 in H1.
  pose proof (Z.log2_nonneg (Zpos m)) as L0.
  pose proof (Z.log2_spec (Zpos m) ltac:(lia)) as [L1 L2].
  assert (L : (Z.log2 (Zpos m) <= 52)%Z) by lia.
  split.
  - apply Z.lt_le_trans with (2 ^ Z.succ (Z.log2 (Zpos m)))%Z; [assumption|].
    apply Z.pow_le_mono_r; lia.
  - split; [lia|]. intros He. assert (Z.log2 (Zpos m) = 52%Z) by lia.
    rewrite H in L1. exact L1.
Qed.

(** A finite number that is not below the threshold. *)
Lemma finite_input (v : float) :
  is_finite v = true -> (abs v <? epsilon)%float = false ->
  exists neg m e,
    Prim2SF v = S754_finite neg m e /\
    pw 2 (-41) <= value m e <= max_value.
Proof.
  intros Hf Hlt. pose proof (Prim2SF_valid v) as Hv.
  unfold is_finite, is_nan, is_infinity in Hf.
  rewrite !eqb_spec, abs_spec in Hf.
  rewrite ltb_spec, abs_spec, epsilon_form in Hlt.
  destruct (Prim2SF v) as [s | s | | s m e] eqn:E.
  - destruct s; discriminate Hlt.
  - destruct s; discriminate Hf.
  - discriminate Hf.
  - exists s, m, e. split; [reflexivity|].
    apply valid_bounds in Hv as (V1 & V2 & V3).
    cbn [SFabs] in Hlt. unfold SFltb, SFcompare in Hlt.
    assert (M1 : IZR (Zpos m) <= 9007199254740991).
    { change 9007199254740991 with (IZR (2 ^ 53 - 1)). apply IZR_le. lia. }
    pose proof (pw_pos 2 e ltac:(lia)) as Pe.
    assert (He : (-92 <= e)%Z).
    { destruct (Z.compare_spec e (-92)) as [C | C | C];
        [lia | discriminate Hlt | lia]. }
    split.
    + assert (M0 : 4503599627370496 <= IZR (Zpos m)).
      { change 4503599627370496 with (IZR (2 ^ 52)). apply IZR_le.
        apply V3. lia. }
      pose proof (pw_le 2 (-92) e ltac:(lia) He) as P1.
      pose proof (pw_pos 2 (-92) ltac:(lia)) as P2.
      assert (P3 : pw 2 (-41) <= 4503599627370496 * pw 2 (-92)).
      { rewrite <- pw_2_52, <- pw_add by lia. apply pw_le; lia. }
      unfold value.
      apply Rle_trans with (4503599627370496 * pw 2 e).
      * apply Rle_trans with (4503599627370496 * pw 2 (-92)); [assumption|].
        apply Rmult_le_compat_l; lra.
      * apply Rmult_le_compat_r; lra.
    + unfold value, max_value.
      pose proof (pw_le 2 e 971 ltac:(lia) ltac:(lia)).
      apply Rle_trans with (9007199254740991 * pw 2 e).
      * apply Rmult_le_compat_r; lra.
      * apply Rmult_le_compat_l; lra.
Qed.

Lemma round_binary64_sign (neg : bool) (a b : Z) (m : positive) (e : Z) :
  round_binary64 neg a b = S754_finite neg m e ->
  round_binary64 false a b = S754_finite false m e.
Proof.
  unfold round_binary64. destruct (a <=? 0)%Z; [discriminate|].
  destruct (scale 2 a b _) as [n d].
  destruct (if (div_half_even n d =? 2 ^ 53)%Z then _ else _) as [m' e'].
  destruct m' as [|p|p]; try discriminate.
  destruct (971 <? e')%Z; [discriminate|].
  intros H. injection H as -> ->. reflexivity.
Qed.

(** The number read back from the text of [toPrecision(12)]: a normal
    number that the twelve digits denote. *)
Lemma Number_toPrecision (v : float) (neg : bool) (m : positive) (e : Z) :
  Prim2SF v = S754_finite neg m e ->
  pw 2 (-41) <= value m e <= max_value ->
  let N := fst (precision_digits (fst (fraction_of m e)) (snd (fraction_of m e)) 12) in
  let E := snd (precision_digits (fst (fraction_of m e)) (snd (fraction_of m e)) 12) in
  exists m' e',
    Prim2SF (Number (toPrecision v 12)) = S754_finite neg m' e' /\
    (2 ^ 52 <= Zpos m' < 2 ^ 53)%Z /\ (-1074 <= e' <= 971)%Z /\
    reads_as (S754_finite false m' e') N (E - 11) = true.
Proof.
  intros Hv Hy. destruct (fraction_of_spec m e) as (Ha & Hb & Hfr).
  unfold frac in Hfr. rewrite <- Hfr in Hy.
  pose proof (precision_digits_spec _ _ Hb Hy) as (HN & _ & Hd).
  cbn zeta in *.
  unfold toPrecision. rewrite Hv.
  destruct (fraction_of m e) as [a b]. cbn [fst snd] in *.
  destruct (precision_digits a b 12) as [N E]. cbn [fst snd] in *.
  rewrite Number_precision_text by assumption.
  unfold number_of, reads_as.
  pose proof (scale_spec 10 N 1 (- (E - 11)) ltac:(lia) ltac:(lia)) as [Hq Hf].
  pose proof (scale_fst_pos 10 N 1 (- (E - 11)) ltac:(lia) ltac:(lia)) as Hp.
  destruct (scale 10 N 1 (- (E - 11))) as [p q]. cbn [fst snd] in *.
  unfold frac in Hf; cbn [fst snd] in Hf.
  assert (Hpq : IZR p / IZR q = IZR N * pw 10 (E - 11)).
  { rewrite Hf, pw_opp. pose proof (pw_pos 10 (E - 11) ltac:(lia)). field. lra. }
  rewrite <- Hpq in Hd.
  destruct (round_binary64_normal neg p q Hp Hq Hd) as (m' & e' & Hr & Hm' & He').
  exists m', e'. rewrite Hr.
  split; [apply Prim2SF_SF2Prim; now apply valid_normal|].
  split; [assumption|]. split; [assumption|].
  rewrite (round_binary64_sign neg p q m' e' Hr).
  cbn [sf_eqb eqb]. now rewrite Pos.eqb_refl, Z.eqb_refl.
Qed.


(** C7.  For a finite result [v]: a magnitude below [1e-12] is shown as
    the text [0]; otherwise the text is the sign followed by the layout
    ([render]) of at most twelve digits, the last of them not zero, and
    these digits denote the decimal of twelve digits nearest to the
    magnitude of [v]; equal numbers are shown by equal texts. *)
Theorem C7_formatting (v : float) :
  is_finite v = true ->
  ((abs v <? epsilon)%float = true -> formatted v = js "0") /\
  ((abs v <? epsilon)%float = false ->
   exists (neg : bool) (m : positive) (e : Z) (s : Z) (k : nat) (n : Z),
     Prim2SF v = S754_finite neg m e /\
     formatted v = sign_text neg ++ render (digits_of k s) k n /\
     (1 <= k <= 12)%nat /\
     (10 ^ (Z.of_nat k - 1) <= s < 10 ^ Z.of_nat k)%Z /\
     (s mod 10 <> 0)%Z /\
     let a := fst (fraction_of m e) in
     let b := snd (fraction_of m e) in
     let N := fst (precision_digits a b 12) in
     let E := snd (precision_digits a b 12) in
     (10 ^ 11 <= N < 10 ^ 12)%Z /\
     Rabs (IZR N * pw 10 (E - 11) - value m e) <= pw 10 (E - 11) / 2 /\
     IZR s * pw 10 (n - Z.of_nat k) = IZR N * pw 10 (E - 11)) /\
  (forall v', v' = v -> formatted v' = formatted v).
Proof.
  intros Hfin. split; [|split].
  - intros Hs. unfold formatted. rewrite Hs. vm_compute. reflexivity.
  - intros Hs. destruct (finite_input v Hfin Hs) as (neg & m & e & Hv & Hy).
    destruct (Number_toPrecision v neg m e Hv Hy) as (m' & e' & Hx & Hm' & He' & HR).
    destruct (fraction_of_spec m e) as (Ha & Hb & Hfr).
    unfold frac in Hfr.
    assert (Hy' : pw 2 (-41) <= IZR (fst (fraction_of m e)) / IZR (snd (fraction_of m e)) <= max_value)
      by now rewrite Hfr.
    pose proof (precision_digits_spec _ _ Hb Hy') as (HN & Hnear & _).
    cbn zeta in HN, Hnear. rewrite Hfr in Hnear.
    pose proof (shortest_spec m' e' Hm' He' _ _ HN HR 20 1
                  ltac:(lia) ltac:(lia) ltac:(intros; lia)) as Hsp.
    cbn zeta in Hsp.
    unfold formatted. rewrite Hs. unfold toString. rewrite Hx.
    destruct (fraction_of m' e') as [a' b']. cbn [fst snd] in Hsp.
    destruct (shortest 20 1 (S754_finite false m' e') a' b' (decimal_exponent a' b'))
      as [[s k] n]. cbn [fst snd] in Hsp.
    destruct Hsp as (Hk & Hs10 & Hmod & Hval).
    exists neg, m, e, s, k, n. cbn zeta.
    repeat (split; [assumption || reflexivity || lia|]).
    exact Hval.
  - intros v' ->. reflexivity.
Qed.

Lemma C7_formatting_witness :
  is_finite 0x1p-50%float = true /\ formatted 0x1p-50%float = js "0".
Proof.
  split; [reflexivity|].
  exact (proj1 (C7_formatting 0x1p-50%float eq_refl) eq_refl).
Defined.

(** Some formatted results. *)
Example formatted_samples :
  formatted (1 / 3)%float = js "0.333333333333" /\
  formatted (- (2 / 3))%float = js "-0.666666666667" /\
  formatted (1 / 10 + 2 / 10)%float = js "0.3" /\
  formatted 1e21%float = js "1e+21" /\
  formatted 123456789012345%float = js "123456789012000" /\
  formatted (15 / 100000000)%float = js "1.5e-7" /\
  formatted 0x1.fffffffffffffp1023%float = js "1.79769313486e+308" /\
  formatted (-0)%float = js "0".
Proof.
  repeat (apply conj; [vm_compute; reflexivity|]). vm_compute. reflexivity.
Qed.

Close Scope R_scope.

(** * Further properties of the engine and the keypad *)

(** ** Replacements *)

Lemma match_here_chr (x : N) (s : jsstring) :
  match_here (rChr x) s =
  match s with
  | y :: r => if (y =? x)%N then Some r else None
  | [] => None
  end.
Proof. destruct s; reflexivity. Qed.

Lemma match_here_lit_from (c : N) (cs s : jsstring) :
  match_here (lit_from c cs) s =
  if startsWith (c :: cs) s then Some (skipn (S (length cs)) s) else None.
Proof. unfold match_here. apply rmatch_lit_from. Qed.

(** The characters of a text after a replacement come from the text or
    from what was put in. *)
Lemma replace_go_In (r : regex) (rep : jsstring) (x : N) (s : jsstring)
  (skip : nat) :
  In x (replace_go r rep skip s) -> In x rep \/ In x s.
Proof.
  revert skip; induction s as [|c s IH]; intros skip H; [contradiction|].
  cbn [replace_go] in H. destruct skip as [|n].
  - destruct (match_here r (c :: s)) as [rest|].
    + apply in_app_or in H as [H | H]; [now left|].
      apply IH in H as [H | H]; [now left | right; now right].
    + destruct H as [<- | H]; [right; now left|].
      apply IH in H as [H | H]; [now left | right; now right].
  - apply IH in H as [H | H]; [now left | right; now right].
Qed.

Lemma replace_In (r : regex) (rep : jsstring) (x : N) (s : jsstring) :
  In x (replace r rep s) -> In x rep \/ In x s.
Proof. apply replace_go_In. Qed.

(** A replaced character is gone when the replacement does not bring it
    back. *)
Lemma replace_chr_gone (x : N) (rep s : jsstring) :
  ~ In x rep -> ~ In x (replace (rChr x) rep s).
Proof.
  intros Hr. unfold replace. induction s as [|c s IH]; [auto|].
  cbn [replace_go]. rewrite match_here_chr.
  destruct (N.eqb_spec c x) as [E | E].
  - replace (length s - length s)%nat with 0%nat by lia.
    intros H. apply in_app_or in H as [H | H]; auto.
  - intros [H | H]; auto.
Qed.

Lemma replace_chr_app (x : N) (rep a b : jsstring) :
  replace (rChr x) rep (a ++ b) = replace (rChr x) rep a ++ replace (rChr x) rep b.
Proof.
  unfold replace. induction a as [|y a IH]; [reflexivity|].
  cbn [app replace_go]. rewrite !match_here_chr.
  destruct (y =? x)%N.
  - rewrite !Nat.sub_diag, IH. now rewrite app_assoc.
  - now rewrite IH.
Qed.

(** ** Counting parentheses *)

Lemma count_chr_app (x : N) (a b : jsstring) :
  count_chr x (a ++ b) = (count_chr x a + count_chr x b)%nat.
Proof.
  unfold count_chr. induction a as [|y a IH]; [reflexivity|].
  cbn [app count_matches]. rewrite !match_here_chr.
  destruct (y =? x)%N; rewrite IH; reflexivity.
Qed.

Lemma count_chr_repeat (x y : N) (k : nat) :
  count_chr x (repeat y k) = if (y =? x)%N then k else 0%nat.
Proof.
  unfold count_chr. induction k as [|k IH].
  - now destruct (y =? x)%N.
  - cbn [repeat count_matches]. rewrite match_here_chr, IH.
    now destruct (y =? x)%N.
Qed.

(** Skipping is dropping. *)
Lemma replace_go_skip (r : regex) (rep s : jsstring) (skip : nat) :
  replace_go r rep skip s = replace_go r rep 0 (skipn skip s).
Proof.
  revert skip; induction s as [|c s IH]; intros [|n]; try reflexivity.
  cbn [replace_go skipn]. apply IH.
Qed.

(** The replacement of a literal, step by step. *)
Lemma replace_lit_cons (c : N) (cs rep : jsstring) (y : N) (s : jsstring) :
  replace (lit_from c cs) rep (y :: s) =
  if startsWith (c :: cs) (y :: s)
  then rep ++ replace (lit_from c cs) rep (skipn (length cs) s)
  else y :: replace (lit_from c cs) rep s.
Proof.
  unfold replace. cbn [replace_go]. rewrite match_here_lit_from.
  destruct (startsWith (c :: cs) (y :: s)) eqn:E; [|reflexivity].
  f_equal. rewrite replace_go_skip. f_equal. f_equal.
  cbn [skipn]. rewrite length_skipn.
  apply startsWith_inv in E. cbn [length app] in E. injection E as _ E.
  apply (f_equal (@length N)) in E. rewrite length_app in E. lia.
Qed.

(** A replacement that brings back as many [x] as it takes away keeps
    their number. *)
Lemma count_chr_replace (x c : N) (cs rep s : jsstring) :
  count_chr x (c :: cs) = count_chr x rep ->
  count_chr x (replace (lit_from c cs) rep s) = count_chr x s.
Proof.
  intros Hc.
  assert (G : forall n s, (length s <= n)%nat ->
            count_chr x (replace (lit_from c cs) rep s) = count_chr x s).
  { clear s. induction n as [|n IH]; intros s Hl.
    - destruct s; [reflexivity | cbn in Hl; lia].
    - destruct s as [|y s]; [reflexivity|].
      rewrite replace_lit_cons.
      destruct (startsWith (c :: cs) (y :: s)) eqn:E.
      + apply startsWith_inv in E. cbn [length] in E.
        rewrite E at 1. rewrite !count_chr_app, <- Hc.
        cbn [skipn]. rewrite IH; [reflexivity|].
        rewrite length_skipn. cbn in Hl. lia.
      + change (y :: replace (lit_from c cs) rep s)
          with ([y] ++ replace (lit_from c cs) rep s).
        change (y :: s) with ([y] ++ s).
        rewrite !count_chr_app, IH; [reflexivity | cbn in Hl; lia]. }
  apply (G (length s)). lia.
Qed.

(** The patterns and replacements of the normalisation, in order. *)
Ltac unfold_lits :=
  change (lit "×") with (lit_from (chr "×") []);
  change (lit "÷") with (lit_from (chr "÷") []);
  change (lit "%") with (lit_from (chr "%") []);
  change (lit "π") with (lit_from (chr "π") []);
  change (lit "e") with (lit_from (chr "e") []);
  change (lit "sin(") with (lit_from (chr "s") (js "in("));
  change (lit "cos(") with (lit_from (chr "c") (js "os("));
  change (lit "tan(") with (lit_from (chr "t") (js "an("));
  change (lit "log(") with (lit_from (chr "l") (js "og("));
  change (lit "ln(") with (lit_from (chr "l") (js "n("));
  change (lit "√(") with (lit_from (chr "√") (js "("));
  change (lit "^") with (lit_from (chr "^") []).

(** X1.  The normalisation keeps the opening parentheses of the expression
    and closes exactly those left open: afterwards there are as many
    closing ones as the larger of the two counts. *)
Theorem cleanExpr_balanced (expr : jsstring) :
  count_chr (chr "(") (cleanExpr expr) = count_chr (chr "(") expr /\
  count_chr (chr ")") (cleanExpr expr)
  = Nat.max (count_chr (chr ")") expr) (count_chr (chr "(") expr).
Proof.
  unfold cleanExpr. cbv zeta.
  change (count_matches (lit "(")) with (count_chr (chr "(")).
  change (count_matches (lit ")")) with (count_chr (chr ")")).
  unfold_lits.
  match goal with
  | |- context [if _ then ?t ++ _ else _] => set (text := t)
  end.
  assert (O : count_chr (chr "(") text = count_chr (chr "(") expr).
  { unfold text. now rewrite !count_chr_replace by reflexivity. }
  assert (C : count_chr (chr ")") text = count_chr (chr ")") expr).
  { unfold text. now rewrite !count_chr_replace by reflexivity. }
  destruct (Nat.ltb_spec (count_chr (chr ")") text) (count_chr (chr "(") text))
    as [H | H].
  - rewrite !count_chr_app, !count_chr_repeat.
    change ((chr ")" =? chr "(")%N) with false.
    change ((chr ")" =? chr ")")%N) with true. cbv iota. lia.
  - lia.
Qed.

(** X2.  None of the glyphs of the calculator is left in the normalised
    text: no [×], [÷], [%], [π], [^] and no letter [e]. *)
Theorem cleanExpr_no_glyph (expr : jsstring) (x : N) :
  In x (js "×÷%π^e") -> ~ In x (cleanExpr expr).
Proof.
  intros Hx H. unfold cleanExpr in H. cbv zeta in H.
  match type of H with
  | In _ (if _ then ?t ++ _ else _) =>
      assert (T : In x t)
  end.
  { match type of H with
    | In _ (if ?b then _ else _) => destruct b
    end; [|exact H].
    apply in_app_or in H as [H | H]; [exact H|].
    apply repeat_spec in H. subst x.
    repeat destruct Hx as [Hx | Hx]; try discriminate Hx; contradiction. }
  clear H. unfold_lits.
  repeat destruct Hx as [<- | Hx]; try contradiction.
  all: repeat first
       [ refine (replace_chr_gone _ _ _ _ T); vm_compute; intuition congruence
       | apply replace_In in T as [T | T];
         [vm_compute in T; intuition congruence|] ].
Qed.

(** ** The structural check *)

Lemma rmatch_star (A : Type) (r : regex) (s : jsstring)
  (k : jsstring -> option A) :
  rmatch (rStar r) s k = star_loop A (rmatch r) k (length s) s.
Proof. reflexivity. Qed.

(** A starred character takes some of the copies of the character at the
    head of the text. *)
Lemma star_loop_chr (A : Type) (z : N) (k : jsstring -> option A)
  (fuel : nat) (s : jsstring) :
  (length s <= fuel)%nat ->
  (star_loop A (rmatch (rChr z)) k fuel s <> None <->
   exists n rest, s = repeat z n ++ rest /\ k rest <> None).
Proof.
  set (m := rmatch (rChr z)).
  assert (Hm : forall s K, m s K = match s with
                                   | [] => None
                                   | x :: s' => if (x =? z)%N then K s' else None
                                   end) by reflexivity.
  clearbody m.
  revert s; induction fuel as [|fuel IH]; intros s Hl.
  - destruct s; [|cbn in Hl; lia]. cbn [star_loop]. split.
    + intros H. now exists 0%nat, [].
    + intros (n & rest & E & H). symmetry in E.
      apply app_eq_nil in E as [_ ->]. exact H.
  - cbn [star_loop]. rewrite Hm. destruct s as [|x s].
    + split.
      * intros H. now exists 0%nat, [].
      * intros (n & rest & E & H). symmetry in E.
        apply app_eq_nil in E as [_ ->]. exact H.
    + destruct (N.eqb_spec x z) as [-> | Ne].
      * replace (length s <? length (z :: s))%nat with true
          by (symmetry; apply Nat.ltb_lt; cbn; lia).
        assert (Hs : (length s <= fuel)%nat) by (cbn in Hl; lia).
        specialize (IH s Hs).
        destruct (star_loop A m k fuel s) as [a|] eqn:E.
        -- cbv iota. split; [intros _ | intros _; discriminate].
           destruct IH as [IH _].
           destruct IH as (n & rest & -> & H); [discriminate|].
           now exists (S n), rest.
        -- split.
           ++ intros H. now exists 0%nat, (z :: s).
           ++ intros (n & rest & E' & H). destruct n as [|n].
              ** cbn in E'. now subst rest.
              ** exfalso. cbn in E'. injection E' as E'.
                 destruct IH as [_ IH]. apply IH; [|reflexivity].
                 now exists n, rest.
      * split.
        -- intros H. now exists 0%nat, (x :: s).
        -- intros (n & rest & E' & H). destruct n as [|n].
           ++ cbn in E'. now subst rest.
           ++ cbn in E'. congruence.
Qed.

Lemma rmatch_star_chr (A : Type) (z : N) (s : jsstring)
  (k : jsstring -> option A) :
  rmatch (rStar (rChr z)) s k <> None <->
  exists n rest, s = repeat z n ++ rest /\ k rest <> None.
Proof. rewrite rmatch_star. now apply star_loop_chr. Qed.

Lemma rmatch_seq (A : Type) (r1 r2 : regex) (s : jsstring)
  (k : jsstring -> option A) :
  rmatch (rSeq r1 r2) s k = rmatch r1 s (fun s' => rmatch r2 s' k).
Proof. reflexivity. Qed.

(** The end of the text or one of the characters of a set. *)
Lemma match_here_end_or_set (cs : list N) (s : jsstring) :
  match_here (rAlt rEnd (rSet cs)) s <> None <->
  s = [] \/ exists c r, s = c :: r /\ In c cs.
Proof.
  unfold match_here. cbn [rmatch]. destruct s as [|c r].
  - split; [now left | congruence].
  - destruct (existsb (N.eqb c) cs) eqn:E.
    + split; [intros _ | congruence]. right. exists c, r. split; [reflexivity|].
      apply existsb_exists in E as (y & Hy & E). apply N.eqb_eq in E.
      now subst y.
    + split; [congruence|]. intros [H | (c' & r' & H & Hin)]; [discriminate|].
      injection H as <- <-. exfalso.
      assert (T : existsb (N.eqb c) cs = true).
      { apply existsb_exists. exists c. split; [assumption | apply N.eqb_refl]. }
      congruence.
Qed.

(** The second pattern of the check finds the occurrences of [/0.] that are
    followed by zeros only, up to the end of the text or to an operator. *)
Lemma zeroDecimalDenominator_iff (s : jsstring) :
  test zeroDecimalDenominator s = true <->
  exists pre n post,
    s = pre ++ js "/0." ++ repeat (chr "0") n ++ post /\
    (post = [] \/ exists c r, post = c :: r /\ In c (js "+-*/")).
Proof.
  rewrite test_true_iff.
  assert (M : forall suf,
    match_here zeroDecimalDenominator suf <> None <->
    exists n post, suf = js "/0." ++ repeat (chr "0") n ++ post /\
      (post = [] \/ exists c r, post = c :: r /\ In c (js "+-*/"))).
  { intros suf. unfold zeroDecimalDenominator, match_here.
    change (lit "/0.") with (lit_from (chr "/") (js "0.")).
    rewrite rmatch_seq, rmatch_lit_from.
    change (chr "/" :: js "0.") with (js "/0.").
    destruct (startsWith (js "/0.") suf) eqn:E.
    - apply startsWith_inv in E.
      change (S (length (js "0."))) with (length (js "/0.")).
      set (tail := skipn (length (js "/0.")) suf) in *. clearbody tail.
      subst suf. rewrite rmatch_seq, rmatch_star_chr. split.
      + intros (n & rest & -> & H). exists n, rest. split; [reflexivity|].
        now apply match_here_end_or_set.
      + intros (n & post & E & H). apply app_inv_head in E. subst tail.
        exists n, post. split; [reflexivity|].
        now apply match_here_end_or_set.
    - split; [congruence|]. intros (n & post & -> & _).
      rewrite startsWith_app in E. discriminate. }
  split.
  - intros (pre & suf & -> & H). apply M in H as (n & post & -> & H).
    now exists pre, n, post.
  - intros (pre & n & post & -> & H).
    exists pre, (js "/0." ++ repeat (chr "0") n ++ post).
    split; [reflexivity|]. apply M. now exists n, post.
Qed.

(** X3.  The structural check fires on exactly two shapes of text: a [/0]
    that no dot follows, and a [/0.] followed by zeros only, up to the end
    of the text or to one of [+ - * /]. *)
Theorem zeroDivisionCheck_iff (c : jsstring) :
  zeroDivisionCheck c = true <->
  (exists pre post, c = pre ++ js "/0" ++ post /\ hd 0%N post <> chr ".") \/
  (exists pre n post,
     c = pre ++ js "/0." ++ repeat (chr "0") n ++ post /\
     (post = [] \/ exists x r, post = x :: r /\ In x (js "+-*/"))).
Proof.
  unfold zeroDivisionCheck. rewrite orb_true_iff.
  now rewrite zeroDenominator_iff, zeroDecimalDenominator_iff.
Qed.

(** ** Where each result of [calculate] comes from *)

Lemma formatted_not_a_label (v : float) (l : jsstring) :
  In l errorLabels -> formatted v <> l.
Proof.
  intros Hl E. pose proof (formatted_not_label v) as F.
  unfold isErrorLabel in F. apply includes_false in F. apply F.
  now rewrite E.
Qed.

Lemma finite_not_nan (x : float) : is_finite x = true -> is_nan x = false.
Proof.
  unfold is_finite. intros H. apply negb_true_iff, orb_false_iff in H.
  apply H.
Qed.

Lemma not_finite_infinity (x : float) :
  is_nan x = false -> is_finite x = false -> is_infinity x = true.
Proof.
  unfold is_finite. intros Hn H. rewrite Hn in H.
  now apply negb_false_iff in H.
Qed.

Lemma infinity_not_finite (x : float) :
  is_infinity x = true -> is_nan x = false /\ is_finite x = false.
Proof.
  intros H. unfold is_finite. rewrite H, orb_true_r. split; [|reflexivity].
  unfold is_infinity, is_nan in *. rewrite eqb_spec in *.
  rewrite abs_spec in H.
  replace (Prim2SF infinity) with (S754_infinity false) in H by reflexivity.
  destruct (Prim2SF x) as [[|] | [|] | | [|] m e]; try discriminate H;
    reflexivity.
Qed.

Section Results.

Variable run : AngleUnit -> jsstring -> Completion.

(** The result of [calculate] on a text that is not empty, branch by
    branch. *)
Lemma calculate_branches (u : AngleUnit) (expr : jsstring) :
  expr <> [] ->
  calculate run u expr =
  if zeroDivisionCheck (cleanExpr expr) then js "Can't divide by zero"
  else
    match run u (cleanExpr expr) with
    | Return JsOther => js "Invalid format"
    | Return (JsNumber x) =>
        if is_nan x then js "Invalid input"
        else if is_finite x then formatted x
        else js "Value too large"
    | Throw true => js "Invalid format"
    | Throw false => js "Error"
    end.
Proof.
  intros Hne. destruct expr as [|c0 expr0]; [congruence|].
  unfold calculate, zeroDivisionCheck.
  destruct (test zeroDenominator _ || test zeroDecimalDenominator _);
    [reflexivity|].
  destruct (run u _) as [[x|]|[|]]; try reflexivity.
  destruct (is_nan x) eqn:En; [reflexivity|].
  destruct (is_finite x) eqn:Ef; cbn [negb]; [reflexivity|].
  rewrite <- is_infinity_eqb. now rewrite not_finite_infinity.
Qed.

End Results.

(** Two texts that differ, or a rendered number against a label. *)
Ltac absurd_text :=
  match goal with
  | H : formatted ?v = ?l |- _ =>
      exfalso; apply (formatted_not_a_label v l);
      [vm_compute; intuition congruence | exact H]
  | H : js _ = js _ |- _ => vm_compute in H; discriminate H
  end.

(** X4.  The text [Can't divide by zero] is the result of [calculate]
    exactly when the expression is not empty and the structural check fires
    on its normalised text: the engine is not asked, and no result of the
    engine is shown with this text. *)
Theorem divide_by_zero_iff (run : AngleUnit -> jsstring -> Completion)
  (u : AngleUnit) (expr : jsstring) :
  calculate run u expr = js "Can't divide by zero" <->
  expr <> [] /\ zeroDivisionCheck (cleanExpr expr) = true.
Proof.
  split.
  - intros H. destruct expr as [|c0 expr0]; [discriminate H|].
    split; [discriminate|].
    rewrite calculate_branches in H by discriminate.
    destruct (zeroDivisionCheck _); [reflexivity|].
    destruct (run u _) as [[x|]|[|]]; try absurd_text.
    destruct (is_nan x); [absurd_text|].
    destruct (is_finite x); absurd_text.
  - intros [Hne H]. rewrite calculate_branches by assumption.
    now rewrite H.
Qed.

(** X5.  The four other error texts come from the engine alone, each from
    one kind of completion: [Invalid format] from a syntax error or from a
    value that is not a number, [Invalid input] from NaN, [Value too large]
    from an infinity, and [Error] from a thrown value that is not a syntax
    error.  No returned number is shown as [Error]. *)
Theorem engine_labels_iff (run : AngleUnit -> jsstring -> Completion)
  (u : AngleUnit) (expr : jsstring) :
  let passed := expr <> [] /\ zeroDivisionCheck (cleanExpr expr) = false in
  let completion := run u (cleanExpr expr) in
  (calculate run u expr = js "Invalid format" <->
   passed /\ (completion = Throw true \/ completion = Return JsOther)) /\
  (calculate run u expr = js "Invalid input" <->
   passed /\ exists x, completion = Return (JsNumber x) /\ is_nan x = true) /\
  (calculate run u expr = js "Value too large" <->
   passed /\ exists x, completion = Return (JsNumber x) /\
                       is_infinity x = true) /\
  (calculate run u expr = js "Error" <->
   passed /\ completion = Throw false).
Proof.
  cbv zeta.
  destruct expr as [|c0 expr0].
  { (split; [|split; [|split]]); (split; [intros H; discriminate H|]);
      intros [[H _] _]; congruence. }
  set (expr := c0 :: expr0).
  assert (Hne : expr <> []) by discriminate.
  rewrite (calculate_branches run u expr Hne).
  destruct (zeroDivisionCheck (cleanExpr expr)).
  { (split; [|split; [|split]]); (split; [intros H; absurd_text|]);
      intros [[_ H] _]; discriminate H. }
  assert (P : expr <> [] /\ false = false) by (split; [assumption | reflexivity]).
  destruct (run u (cleanExpr expr)) as [[x|]|[|]].
  - destruct (is_nan x) eqn:En; [|destruct (is_finite x) eqn:Ef].
    + (split; [|split; [|split]]); split;
        try (intros H; absurd_text); try reflexivity.
      * intros [_ [H | H]]; discriminate H.
      * intros _. split; [assumption|]. now exists x.
      * intros [_ (y & H & Hy)]. injection H as <-.
        apply infinity_not_finite in Hy. destruct Hy. congruence.
      * intros [_ H]. discriminate H.
    + (split; [|split; [|split]]); split; try (intros H; absurd_text).
      * intros [_ [H | H]]; discriminate H.
      * intros [_ (y & H & Hy)]. injection H as <-. congruence.
      * intros [_ (y & H & Hy)]. injection H as <-.
        apply infinity_not_finite in Hy. destruct Hy. congruence.
      * intros [_ H]. discriminate H.
    + (split; [|split; [|split]]); split;
        try (intros H; absurd_text); try reflexivity.
      * intros [_ [H | H]]; discriminate H.
      * intros [_ (y & H & Hy)]. injection H as <-. congruence.
      * intros _. split; [assumption|]. exists x.
        split; [reflexivity|]. now apply not_finite_infinity.
      * intros [_ H]. discriminate H.
  - (split; [|split; [|split]]); split;
      try (intros H; absurd_text); try reflexivity.
    + intros _. split; [assumption | now right].
    + intros [_ (y & H & _)]. discriminate H.
    + intros [_ (y & H & _)]. discriminate H.
    + intros [_ H]. discriminate H.
  - (split; [|split; [|split]]); split;
      try (intros H; absurd_text); try reflexivity.
    + intros _. split; [assumption | now left].
    + intros [_ (y & H & _)]. discriminate H.
    + intros [_ (y & H & _)]. discriminate H.
    + intros [_ H]. discriminate H.
  - (split; [|split; [|split]]); split;
      try (intros H; absurd_text); try reflexivity.
    + intros [_ [H | H]]; discriminate H.
    + intros [_ (y & H & _)]. discriminate H.
    + intros [_ (y & H & _)]. discriminate H.
    + intros _. split; [assumption | reflexivity].
Qed.

(** ** What is shown and what is recorded *)

Lemma label_not_nil (l : jsstring) : In l errorLabels -> isEmpty l = false.
Proof.
  intros H. apply errorLabels_last in H as (t & c & -> & _).
  now destruct t.
Qed.

Lemma isEmpty_false (s : jsstring) : isEmpty s = false <-> s <> [].
Proof. destruct s; cbn; split; congruence. Qed.

Lemma str_eqb_nil (s : jsstring) : str_eqb s [] = isEmpty s.
Proof. now destruct s. Qed.

Lemma occurs_not_nil (sub expr : jsstring) :
  In sub operatorTexts -> occurs sub expr -> expr <> [].
Proof.
  intros Hs (pre & post & ->) E.
  apply app_eq_nil in E as [_ E]. apply app_eq_nil in E as [E _].
  subst sub. repeat destruct Hs as [Hs | Hs]; try discriminate Hs.
  contradiction.
Qed.

(** A result of [calculate] is an error text or the rendering of a finite
    number that the engine returned. *)
Lemma calculate_shape (run : AngleUnit -> jsstring -> Completion)
  (u : AngleUnit) (expr : jsstring) :
  expr <> [] ->
  In (calculate run u expr) errorLabels \/
  (zeroDivisionCheck (cleanExpr expr) = false /\
   exists x, run u (cleanExpr expr) = Return (JsNumber x) /\
             is_finite x = true /\ calculate run u expr = formatted x).
Proof.
  intros Hne. rewrite (calculate_branches run u expr Hne).
  destruct (zeroDivisionCheck (cleanExpr expr));
    [left; vm_compute; intuition congruence|].
  destruct (run u (cleanExpr expr)) as [[x|]|[|]];
    [|left; vm_compute; intuition congruence ..].
  destruct (is_nan x); [left; vm_compute; intuition congruence|].
  destruct (is_finite x) eqn:Ef; [|left; vm_compute; intuition congruence].
  right. split; [reflexivity|]. now exists x.
Qed.

Lemma updatePreview_shown (run : AngleUnit -> jsstring -> Completion)
  (u : AngleUnit) (expr r : jsstring) :
  updatePreview run u expr = Some r ->
  test operatorOrFunction expr = true /\
  zeroDivisionCheck (cleanExpr expr) = false /\
  exists x, run u (cleanExpr expr) = Return (JsNumber x) /\
            is_finite x = true /\ r = formatted x.
Proof.
  unfold updatePreview. cbv zeta.
  destruct (test operatorOrFunction expr) eqn:Et; [|discriminate].
  intros H. split; [reflexivity|].
  assert (Hne : expr <> []).
  { apply hasOperators_occurs in Et as (sub & Hs & Ho).
    exact (occurs_not_nil sub expr Hs Ho). }
  destruct (calculate_shape run u expr Hne) as [L | (Hc & x & Hr & Hf & E)].
  - apply includes_In in L. rewrite L in H. discriminate H.
  - split; [assumption|]. exists x.
    split; [assumption|]. split; [assumption|]. rewrite E in H.
    destruct (negb (includes errorLabels (formatted x))
              && negb (str_eqb (formatted x) [])); congruence.
Qed.

(** X6.  A preview is computed exactly when one of the operator texts
    occurs in the expression, the structural check lets its normalised text
    pass and the engine returns a finite number for it; the preview is the
    rendering of that number. *)
Theorem updatePreview_Some_iff (run : AngleUnit -> jsstring -> Completion)
  (u : AngleUnit) (expr r : jsstring) :
  updatePreview run u expr = Some r <->
  (exists sub, In sub operatorTexts /\ occurs sub expr) /\
  zeroDivisionCheck (cleanExpr expr) = false /\
  exists x, run u (cleanExpr expr) = Return (JsNumber x) /\
            is_finite x = true /\ r = formatted x.
Proof.
  split.
  - intros H. apply updatePreview_shown in H as (Et & H).
    split; [now apply hasOperators_occurs | exact H].
  - intros ((sub & Hs & Ho) & Hc & x & Hr & Hf & ->).
    unfold updatePreview. cbv zeta.
    rewrite (@occurs_hasOperators expr sub Hs Ho).
    rewrite (calculate_branches run u expr (occurs_not_nil sub expr Hs Ho)).
    rewrite Hc, Hr, (finite_not_nan x Hf), Hf.
    pose proof (formatted_not_label x) as F. unfold isErrorLabel in F.
    rewrite F, str_eqb_nil.
    pose proof (formatted_not_empty x) as G. apply isEmpty_false in G.
    now rewrite G.
Qed.

(** The three outcomes of the equals key. *)
Lemma handleEquals_cases (run : AngleUnit -> jsstring -> Completion)
  (now : Z) (st : State) :
  handleEquals run now st = st \/
  (exists l, In l errorLabels /\
     handleEquals run now st = setResultPreview None (setExpression l st)) \/
  (expression st <> [] /\ isErrorLabel (expression st) = false /\
   zeroDivisionCheck (cleanExpr (expression st)) = false /\
   exists x,
     run (angleUnit st) (cleanExpr (expression st)) = Return (JsNumber x) /\
     is_finite x = true /\
     handleEquals run now st =
     setResultPreview None
       (setExpression (formatted x)
          (setHistory
             (history st ++ [mkHistoryItem (expression st) (formatted x) now])
             st))).
Proof.
  unfold handleEquals. cbv zeta.
  destruct (isEmpty (expression st)) eqn:Ee; [now left|].
  destruct (isErrorLabel (expression st)) eqn:El; [now left|].
  right. apply isEmpty_false in Ee.
  destruct (calculate_shape run (angleUnit st) (expression st) Ee)
    as [L | (Hc & x & Hr & Hf & E)].
  - left. exists (calculate run (angleUnit st) (expression st)).
    split; [assumption|].
    rewrite (label_not_nil _ L).
    unfold isErrorLabel. apply includes_In in L. now rewrite L.
  - right. split; [assumption|]. split; [reflexivity|].
    split; [assumption|]. exists x.
    split; [assumption|]. split; [assumption|]. rewrite E.
    rewrite formatted_not_label.
    pose proof (formatted_not_empty x) as G. apply isEmpty_false in G.
    now rewrite G.
Qed.

Section Invariants.

Variable run : AngleUnit -> jsstring -> Completion.

Lemma state_ok_preview (st : State) (e : jsstring) :
  state_ok run st ->
  state_ok run (setExpression e
              (setResultPreview (updatePreview run (angleUnit st) e) st)).
Proof.
  intros [_ H]. split; [|exact H].
  intros r Hr. cbn in Hr.
  apply updatePreview_shown in Hr as (_ & _ & x & _ & Hf & ->).
  now exists x.
Qed.

Lemma state_ok_expression (st : State) (e : jsstring) :
  state_ok run st -> state_ok run (setExpression e st).
Proof. intros [H1 H2]. split; assumption. Qed.

Lemma state_ok_handleInput (val : jsstring) (st : State) :
  state_ok run st -> state_ok run (handleInput run val st).
Proof. intros H. unfold handleInput. now apply state_ok_preview. Qed.

Lemma state_ok_handleOperator (op : jsstring) (st : State) :
  state_ok run st -> state_ok run (handleOperator run op st).
Proof.
  intros H. unfold handleOperator. cbv zeta.
  destruct (isEmpty _ && negb _); [now apply state_ok_expression|].
  destruct (test trailingOperator _ && test anOperator op);
    [now apply state_ok_expression|].
  now apply state_ok_preview.
Qed.

Lemma state_ok_press (now : Z) (k : Key) (st : State) :
  state_ok run st -> state_ok run (press run now k st).
Proof.
  intros H. pose proof H as [H1 H2].
  destruct k; unfold press, button, handleBtnClick; try exact H;
    try (split; [exact H1 | exact H2]);
    try (now apply state_ok_handleInput);
    try (now apply state_ok_handleOperator);
    try (unfold handleMemoryRecall; now apply state_ok_preview).
  - (* M+ *) unfold handleMemoryAdd. cbv zeta.
    destruct (negb _ && negb _); [split|]; assumption.
  - (* M- *) unfold handleMemorySubtract. cbv zeta.
    destruct (negb _ && negb _); [split|]; assumption.
  - (* C *) split; [intros r Hr; discriminate Hr | exact H2].
  - (* ( ) *) unfold parenKey. cbv zeta.
    destruct (_ && _); now apply state_ok_handleInput.
  - (* +/- *) unfold signToggle. cbv zeta.
    destruct (startsWith _ _); [now apply state_ok_expression|].
    destruct (isEmpty _); now apply state_ok_expression.
  - (* = *)
    destruct (handleEquals_cases run now st)
      as [E | [(l & _ & E) | (Hne & Hl & Hc & x & Hr & Hf & E)]];
      rewrite E.
    + exact H.
    + split; [intros r Hr; discriminate Hr | exact H2].
    + split; [intros r Hr'; discriminate Hr'|].
      cbn. apply Forall_app. split; [exact H2|].
      constructor; [|constructor].
      split; [assumption|]. split; [assumption|]. split; [assumption|].
      now exists (angleUnit st), x.
  - (* backspace *) unfold handleBackspace. cbv zeta.
    destruct (isErrorLabel _).
    + split; [intros r Hr; discriminate Hr | exact H2].
    + now apply state_ok_preview.
  - (* clear history *) split; [exact H1 | constructor].
Qed.

Lemma reachable_state_ok (st : State) : reachable run st -> state_ok run st.
Proof.
  induction 1 as [|now k st _ IH|st _ IH].
  - split; [intros r Hr; discriminate Hr | constructor].
  - now apply state_ok_press.
  - destruct IH as [_ H2]. split; [|exact H2].
    intros r Hr. cbn in Hr.
    apply updatePreview_shown in Hr as (_ & _ & x & _ & Hf & ->).
    now exists x.
Qed.

End Invariants.

(** X7.  Whatever is clicked, the preview never shows an error text or an
    empty text: when there is one, it is the rendering of a finite
    number. *)
Theorem preview_never_error (run : AngleUnit -> jsstring -> Completion)
  (st : State) (r : jsstring) :
  reachable run st ->
  resultPreview st = Some r ->
  (exists x, is_finite x = true /\ r = formatted x) /\
  isErrorLabel r = false /\ r <> [].
Proof.
  intros H Hr. apply reachable_state_ok in H as [H _].
  destruct (H r Hr) as (x & Hf & ->).
  split; [now exists x|]. split.
  - apply formatted_not_label.
  - apply formatted_not_empty.
Qed.

(** X8.  Whatever is clicked, every entry of the history holds an
    expression that is neither empty nor an error text, which passed the
    structural check, together with the rendering of the finite number the
    engine returned for it under one of the two angle units. *)
Theorem history_entries_are_results
  (run : AngleUnit -> jsstring -> Completion) (st : State)
  (item : HistoryItem) :
  reachable run st ->
  In item (history st) ->
  item_expression item <> [] /\
  isErrorLabel (item_expression item) = false /\
  zeroDivisionCheck (cleanExpr (item_expression item)) = false /\
  exists u x,
    run u (cleanExpr (item_expression item)) = Return (JsNumber x) /\
    is_finite x = true /\
    item_result item = formatted x /\
    item_result item = calculate run u (item_expression item).
Proof.
  intros H Hi. apply reachable_state_ok in H as [_ H].
  rewrite Forall_forall in H. destruct (H item Hi) as (Hne & Hl & Hc & u & x & Hr & Hf & E).
  split; [assumption|]. split; [assumption|]. split; [assumption|]. exists u, x.
  split; [assumption|]. split; [assumption|]. split; [assumption|].
  rewrite (calculate_branches run u _ Hne), Hc, Hr, (finite_not_nan x Hf), Hf.
  exact E.
Qed.

(** ** What a click leaves alone *)

Ltac unfold_handlers :=
  unfold press, button, handleBtnClick, handleMemoryClear, handleMemoryRecall,
    handleMemoryAdd, handleMemorySubtract, handleOperator, handleInput,
    handleClear, parenKey, signToggle, handleEquals, handleBackspace,
    toggleAngleUnit, clearHistory, handleInput;
  cbv zeta.

Ltac project_fields :=
  cbn [history memory angleUnit expression resultPreview
       setExpression setResultPreview setHistory setMemory setAngleUnit].

Ltac by_cases_of_handler :=
  unfold_handlers;
  repeat (project_fields;
          match goal with
          | |- context [if ?b then _ else _] => destruct b
          end);
  project_fields; try reflexivity.

(** X9.  Each part of the state has its own keys.  The history is touched
    by the equals key and by the button that clears it only, and the equals
    key leaves it or appends one entry holding the expression and the time
    of the click; the memory is touched by MC, M+ and M- only; the angle
    unit by its button only; and the keys asin, acos, atan, 1/x and ! change
    nothing at all. *)
Theorem press_frame (run : AngleUnit -> jsstring -> Completion) (now : Z)
  (k : Key) (st : State) :
  (k <> KeyEquals -> k <> KeyClearHistory ->
   history (press run now k st) = history st) /\
  (history (press run now KeyEquals st) = history st \/
   exists r, history (press run now KeyEquals st)
             = history st ++ [mkHistoryItem (expression st) r now]) /\
  (k <> KeyMC -> k <> KeyMAdd -> k <> KeyMSubtract ->
   memory (press run now k st) = memory st) /\
  (k <> KeyAngleUnit -> angleUnit (press run now k st) = angleUnit st) /\
  (In k [KeyAsin; KeyAcos; KeyAtan; KeyInverse; KeyFactorial] ->
   press run now k st = st).
Proof.
  split; [|split; [|split; [|split]]].
  - intros H1 H2. destruct k; try congruence; by_cases_of_handler.
  - unfold_handlers.
    destruct (isEmpty (expression st)); [now left|].
    destruct (isErrorLabel (expression st)); [now left|].
    destruct (negb _ && negb _).
    + right. now exists (calculate run (angleUnit st) (expression st)).
    + left. now destruct (negb _).
  - intros H1 H2 H3. destruct k; try congruence; by_cases_of_handler.
  - intros H1. destruct k; try congruence; by_cases_of_handler.
  - intros H. repeat destruct H as [<- | H]; try contradiction; reflexivity.
Qed.

(** ** Backspace after a key *)

(** The error texts end in one of four letters. *)
Lemma errorLabels_last_letter (l : jsstring) :
  In l errorLabels -> exists t c, l = t ++ [c] /\ In c (js "toer").
Proof.
  intros H. repeat destruct H as [<- | H]; try contradiction;
    match goal with
    | |- exists t c, ?l = _ /\ _ =>
        exists (removelast l), (last l 0%N);
        split; [reflexivity | vm_compute; intuition congruence]
    end.
Qed.

Lemma not_label_last (t : jsstring) (c : N) :
  ~ In c (js "toer") -> isErrorLabel (t ++ [c]) = false.
Proof.
  intros Hc. unfold isErrorLabel. apply includes_false. intros H.
  apply errorLabels_last_letter in H as (t' & c' & E & Hc').
  apply app_inj_tail in E as [_ <-]. now apply Hc.
Qed.

Section Backspace.

Variable run : AngleUnit -> jsstring -> Completion.

Lemma backspace_after_input (st : State) (c : N) :
  isErrorLabel (expression st) = false ->
  ~ In c (js "toer(") ->
  expression (handleBackspace run (handleInput run [c] st)) = expression st.
Proof.
  intros He Hc.
  apply (backspace_one_character run _ (expression st) c).
  - unfold handleInput. cbv zeta. now rewrite He.
  - apply not_label_last. intros H. apply Hc.
    change (js "toer(") with (js "toer" ++ js "("). apply in_or_app. now left.
  - apply N.eqb_neq. intros ->. apply Hc. vm_compute. intuition congruence.
Qed.

Lemma backspace_on_empty (st : State) :
  expression st = [] -> expression (handleBackspace run st) = [].
Proof.
  intros E. unfold handleBackspace. cbv zeta. rewrite E.
  change (isErrorLabel []) with false. reflexivity.
Qed.

Lemma backspace_after_operator (st : State) (c : N) :
  isErrorLabel (expression st) = false ->
  ~ In c (js "toer(+-×÷") ->
  expression (handleBackspace run (handleOperator run [c] st))
  = expression st.
Proof.
  intros He Hc. unfold handleOperator. cbv zeta. rewrite He.
  assert (Ho : test anOperator [c] = false).
  { unfold anOperator, set. cbn [test match_here rmatch].
    destruct (existsb (N.eqb c) (js "+-×÷")) eqn:E; [|reflexivity].
    exfalso. apply Hc. apply existsb_exists in E as (y & Hy & E).
    apply N.eqb_eq in E. subst y.
    change (js "toer(+-×÷") with (js "toer(" ++ js "+-×÷").
    apply in_or_app. now right. }
  rewrite Ho, andb_false_r.
  destruct (isEmpty (expression st) && negb (includes startingOperators [c]))
    eqn:E.
  - apply andb_true_iff in E as [E _].
    destruct (expression st) eqn:Ex; [|discriminate E].
    apply backspace_on_empty. reflexivity.
  - apply (backspace_one_character run _ (expression st) c).
    + reflexivity.
    + apply not_label_last. intros H. apply Hc.
      change (js "toer(+-×÷") with (js "toer" ++ js "(+-×÷").
      apply in_or_app. now left.
    + apply N.eqb_neq. intros ->. apply Hc. vm_compute. intuition congruence.
Qed.

Lemma backspace_after_function (st : State) (p : jsstring) :
  isErrorLabel (expression st) = false ->
  In p [js "sin("; js "cos("; js "tan("; js "log("; js "ln("] ->
  expression (handleBackspace run (handleOperator run p st)) = expression st.
Proof.
  intros He Hp.
  apply (backspace_function_prefix run _ (expression st) Hp).
  unfold handleOperator. cbv zeta. rewrite He.
  assert (Hs : includes startingOperators p = true).
  { repeat destruct Hp as [<- | Hp]; try contradiction; reflexivity. }
  assert (Ho : test anOperator p = false).
  { repeat destruct Hp as [<- | Hp]; try contradiction; reflexivity. }
  rewrite Hs, Ho, andb_false_r. cbn [negb]. rewrite andb_false_r.
  reflexivity.
Qed.

End Backspace.

(** X10.  Backspace takes back the key pressed before it: after a digit,
    the dot, [π], [)], [^], [%] or one of sin, cos, tan, log and ln, on an
    expression that is not an error text, it gives the expression back. *)
Theorem backspace_undoes_key (run : AngleUnit -> jsstring -> Completion)
  (now now' : Z) (k : Key) (st : State) :
  isErrorLabel (expression st) = false ->
  In k ([KeyDot; KeyPi; KeyClose; KeyPower; KeyPercent;
         KeySin; KeyCos; KeyTan; KeyLog; KeyLn]
        ++ map KeyDigit [D0; D1; D2; D3; D4; D5; D6; D7; D8; D9]) ->
  expression (press run now' KeyBackspace (press run now k st))
  = expression st.
Proof.
  intros He Hk.
  change (press run now' KeyBackspace (press run now k st))
    with (handleBackspace run (press run now k st)).
  repeat destruct Hk as [<- | Hk]; try contradiction;
    unfold press, button, handleBtnClick, digitText;
    first
      [ apply (backspace_after_function run st _ He);
        vm_compute; intuition congruence
      | match goal with
        | |- context [handleInput run (js ?t) st] =>
            apply (backspace_after_input run st (chr t) He)
        | |- context [handleOperator run (js ?t) st] =>
            apply (backspace_after_operator run st (chr t) He)
        end;
        vm_compute; intuition congruence ].
Qed.

(** ** The parenthesis key *)

Lemma count_chr_label (x : N) (l : jsstring) :
  In x (js "()") -> In l errorLabels -> count_chr x l = 0%nat.
Proof.
  intros Hx Hl.
  repeat destruct Hx as [<- | Hx]; try contradiction;
    repeat destruct Hl as [<- | Hl]; try contradiction; reflexivity.
Qed.

(** X11.  The parenthesis key appends one parenthesis, and it never closes
    more than is open: an expression with no more closing than opening
    parentheses stays so. *)
Theorem parenKey_balance (run : AngleUnit -> jsstring -> Completion)
  (st : State) :
  (count_chr (chr ")") (expression st)
   <= count_chr (chr "(") (expression st))%nat ->
  (count_chr (chr ")") (expression (parenKey run st))
   <= count_chr (chr "(") (expression (parenKey run st)))%nat /\
  (expression (parenKey run st)
   = (if isErrorLabel (expression st) then [] else expression st) ++ js "(" \/
   expression (parenKey run st) = expression st ++ js ")").
Proof.
  intros H. unfold parenKey. cbv zeta.
  change (count_matches (lit "(")) with (count_chr (chr "(")).
  change (count_matches (lit ")")) with (count_chr (chr ")")).
  destruct ((count_chr (chr ")") (expression st)
             <? count_chr (chr "(") (expression st))%nat
            && negb (test trailingOperatorOrParen (expression st))) eqn:E.
  - apply andb_true_iff in E as [E _]. apply Nat.ltb_lt in E.
    unfold handleInput. cbv zeta. cbn [expression setExpression].
    destruct (isErrorLabel (expression st)) eqn:El.
    + exfalso. unfold isErrorLabel in El. apply includes_In in El.
      rewrite (count_chr_label (chr "(") (expression st)) in E;
        [lia | vm_compute; intuition congruence | assumption].
    + split; [|now right].
      rewrite !count_chr_app.
      change (count_chr (chr ")") (js ")")) with 1%nat.
      change (count_chr (chr "(") (js ")")) with 0%nat. lia.
  - unfold handleInput. cbv zeta. cbn [expression setExpression].
    split; [|now left].
    destruct (isErrorLabel (expression st)).
    + cbn. lia.
    + rewrite !count_chr_app.
      change (count_chr (chr ")") (js "(")) with 0%nat.
      change (count_chr (chr "(") (js "(")) with 1%nat. lia.
Qed.

(** ** The normalisation, character by character *)

Lemma replace_chr_flat_map (x : N) (rep s : jsstring) :
  replace (rChr x) rep s
  = flat_map (fun c => if (c =? x)%N then rep else [c]) s.
Proof.
  unfold replace. induction s as [|y s IH]; [reflexivity|].
  cbn [replace_go flat_map]. rewrite match_here_chr.
  destruct (y =? x)%N.
  - now rewrite Nat.sub_diag, IH.
  - now rewrite IH.
Qed.

(** A literal of which one character is missing from the text is not
    found. *)
Lemma replace_lit_missing (x c : N) (cs rep s : jsstring) :
  In x (c :: cs) -> ~ In x s -> replace (lit_from c cs) rep s = s.
Proof.
  intros Hx. unfold replace. induction s as [|y s IH]; intros H;
    [reflexivity|].
  cbn [replace_go]. rewrite match_here_lit_from.
  destruct (startsWith (c :: cs) (y :: s)) eqn:E.
  - exfalso. apply startsWith_inv in E. apply H. rewrite E.
    apply in_or_app. now left.
  - f_equal. apply IH. intros F. apply H. now right.
Qed.

Lemma count_chr_absent (x : N) (s : jsstring) :
  ~ In x s -> count_chr x s = 0%nat.
Proof.
  unfold count_chr. induction s as [|y s IH]; intros H; [reflexivity|].
  cbn [count_matches]. rewrite match_here_chr.
  destruct (N.eqb_spec y x) as [-> | Ne]; [exfalso; apply H; now left|].
  apply IH. intros F. apply H. now right.
Qed.

Lemma replace_chr_single (x : N) (rep : jsstring) (c : N) :
  replace (rChr x) rep [c] = if (c =? x)%N then rep else [c].
Proof.
  rewrite replace_chr_flat_map. cbn [flat_map]. now rewrite app_nil_r.
Qed.

Lemma replace_chr_over_flat_map (x : N) (rep : jsstring)
  (f : N -> jsstring) (s : jsstring) :
  replace (rChr x) rep (flat_map f s)
  = flat_map (fun c => replace (rChr x) rep (f c)) s.
Proof.
  induction s as [|y s IH]; [reflexivity|].
  cbn [flat_map]. now rewrite replace_chr_app, IH.
Qed.

Lemma flat_map_singleton (s : jsstring) : flat_map (fun c => [c]) s = s.
Proof. induction s as [|y s IH]; [reflexivity|]. cbn. now rewrite IH. Qed.

Lemma not_In_replace (x : N) (r : regex) (rep s : jsstring) :
  ~ In x rep -> ~ In x s -> ~ In x (replace r rep s).
Proof. intros H1 H2 H. apply replace_In in H as [H | H]; auto. Qed.

(** X12.  On an expression without an opening parenthesis the
    normalisation is a substitution character by character: [×] becomes
    [*], [÷] becomes [/], [%] becomes [/100], [π] becomes [Math.PI], the
    letter [e] becomes [Math.E], [^] becomes [**], and every other
    character is kept. *)
Theorem cleanExpr_without_parenthesis (expr : jsstring) :
  ~ In (chr "(") expr -> cleanExpr expr = flat_map glyphText expr.
Proof.
  intros H. unfold cleanExpr. cbv zeta. unfold_lits.
  change (lit_from (chr "×") []) with (rChr (chr "×")).
  change (lit_from (chr "÷") []) with (rChr (chr "÷")).
  change (lit_from (chr "%") []) with (rChr (chr "%")).
  change (lit_from (chr "π") []) with (rChr (chr "π")).
  change (lit_from (chr "e") []) with (rChr (chr "e")).
  change (lit_from (chr "^") []) with (rChr (chr "^")).
  set (t5 := replace (rChr (chr "e")) (js "Math.E") _).
  assert (H5 : ~ In (chr "(") t5).
  { unfold t5.
    repeat (apply not_In_replace; [vm_compute; intuition congruence|]).
    exact H. }
  rewrite (replace_lit_missing (chr "(") (chr "s") (js "in(") _ t5),
    (replace_lit_missing (chr "(") (chr "c") (js "os(") _ t5),
    (replace_lit_missing (chr "(") (chr "t") (js "an(") _ t5),
    (replace_lit_missing (chr "(") (chr "l") (js "og(") _ t5),
    (replace_lit_missing (chr "(") (chr "l") (js "n(") _ t5),
    (replace_lit_missing (chr "(") (chr "√") (js "(") _ t5)
    by (first [exact H5 | vm_compute; intuition congruence]).
  set (t6 := replace (rChr (chr "^")) (js "**") t5).
  assert (H6 : ~ In (chr "(") t6).
  { unfold t6. apply not_In_replace;
      [vm_compute; intuition congruence | exact H5]. }
  change (count_matches (lit "(") t6) with (count_chr (chr "(") t6).
  rewrite (count_chr_absent _ _ H6).
  replace (count_matches (lit ")") t6 <? 0)%nat with false
    by (symmetry; apply Nat.ltb_ge; lia).
  unfold t6, t5. rewrite <- (flat_map_singleton expr) at 1.
  rewrite !replace_chr_over_flat_map.
  apply flat_map_ext. intros c. unfold glyphText.
  repeat (rewrite replace_chr_single; destruct (c =? _)%N;
          [vm_compute; reflexivity|]).
  reflexivity.
Qed.

(** ** The number the memory keys read from the display *)

Lemma round_binary64_other_sign (neg neg' : bool) (a b : Z) (m : positive)
  (e : Z) :
  round_binary64 neg a b = S754_finite neg m e ->
  round_binary64 neg' a b = S754_finite neg' m e.
Proof.
  unfold round_binary64. destruct (a <=? 0)%Z; [discriminate|].
  destruct (scale 2 a b _) as [n d].
  destruct (if (div_half_even n d =? 2 ^ 53)%Z then _ else _) as [m' e'].
  destruct m' as [|p|p]; try discriminate.
  destruct (971 <? e')%Z; [discriminate|].
  intros H. injection H as -> ->. reflexivity.
Qed.

(** A decimal that denotes a number is read as that number. *)
Lemma reads_as_number_of (neg : bool) (m : positive) (e s j : Z) :
  reads_as (S754_finite false m e) s j = true ->
  number_of neg (DFinite s j) = SF2Prim (S754_finite neg m e).
Proof.
  unfold reads_as, number_of. destruct (scale 10 s 1 (- j)) as [p q].
  intros H. apply sf_eqb_eq in H.
  now rewrite (round_binary64_other_sign false neg p q m e H).
Qed.

(** Two decimals of the same value denote the same numbers. *)
Lemma reads_as_same_value (x : spec_float) (s a N b : Z) :
  (0 < s)%Z -> (0 < N)%Z ->
  (IZR s * pw 10 a = IZR N * pw 10 b)%R ->
  reads_as x s a = reads_as x N b.
Proof.
  assert (G : forall s a N b, (0 < s)%Z -> (b <= a)%Z ->
            (IZR s * pw 10 a = IZR N * pw 10 b)%R ->
            reads_as x s a = reads_as x N b).
  { clear. intros s a N b Hs Hab H.
    assert (E : N = (s * 10 ^ Z.of_nat (Z.to_nat (a - b)))%Z).
    { apply eq_IZR. rewrite mult_IZR, <- pw_IZR by lia.
      rewrite Z2Nat.id by lia.
      replace a with (b + (a - b))%Z in H at 1 by lia.
      rewrite pw_add in H by lia.
      pose proof (pw_pos 10 b ltac:(lia)) as Hp.
      apply (Rmult_eq_reg_r (pw 10 b)); [|lra]. lra. }
    rewrite <- (reads_as_shift_n x s a (Z.to_nat (a - b)) Hs).
    rewrite E. f_equal. lia. }
  intros Hs HN H. destruct (Z.le_ge_cases b a) as [L | L].
  - now apply G.
  - symmetry. now apply G.
Qed.

Lemma digits_value_app_zeros (l : jsstring) (t : nat) :
  digits_value (l ++ repeat zero_chr t) = (digits_value l * 10 ^ Z.of_nat t)%Z.
Proof.
  induction t as [|t IH].
  - cbn [repeat]. rewrite app_nil_r. cbn. lia.
  - replace (repeat zero_chr (S t)) with (repeat zero_chr t ++ [zero_chr])
      by (symmetry; apply repeat_cons).
    rewrite app_assoc, digits_value_snoc, IH.
    rewrite N.sub_diag. change (Z.of_N 0) with 0%Z.
    rewrite Nat2Z.inj_succ, Z.pow_succ_r by lia. lia.
Qed.

(** A literal without decimal point, followed by something that is neither
    a digit nor a dot. *)
Lemma unsigned_decimal_integer_tail (c : N) (ip tail : jsstring) :
  all_digits (c :: ip) ->
  is_digit (hd 0%N tail) = false ->
  (hd 0%N tail =? chr ".")%N = false ->
  unsigned_decimal (c :: ip ++ tail) =
  let (ex, rest) := exponent_part tail in
  Some (DFinite (digits_value (c :: ip)) ex, rest).
Proof.
  intros Hi Ht Hdot. unfold unsigned_decimal.
  assert (Hc : is_digit c = true) by now inversion Hi.
  apply digit_not_sign in Hc as (_ & _ & HI).
  change (startsWith (js "Infinity") (c :: ip ++ tail))
    with ((chr "I" =? c)%N && startsWith (js "nfinity") (ip ++ tail)).
  rewrite N.eqb_sym, HI. cbn [andb].
  change (c :: ip ++ tail) with ((c :: ip) ++ tail).
  rewrite (span_digits_app (c :: ip) tail Hi Ht).
  assert (E : match tail with
              | c0 :: r => if (c0 =? chr ".")%N then span_digits r else ([], tail)
              | [] => ([], tail)
              end = ([], tail)).
  { destruct tail as [|c0 r]; [reflexivity|]. cbn [hd] in Hdot.
    now rewrite Hdot. }
  rewrite E. rewrite app_nil_r. cbn [app].
  destruct (exponent_part tail) as [ex rest]. cbn [length].
  now rewrite Z.sub_0_r.
Qed.

(** [parseFloat] of a signed literal. *)
Lemma parseFloat_signed (neg : bool) (c : N) (r : jsstring)
  (d : decimal_value) (rest : jsstring) :
  is_digit c = true ->
  unsigned_decimal (c :: r) = Some (d, rest) ->
  parseFloat (sign_text neg ++ c :: r) = number_of neg d.
Proof.
  intros Hc Hu. destruct neg; cbn [sign_text].
  - change (js "-" ++ c :: r) with (chr "-" :: c :: r).
    unfold parseFloat. cbn [split_sign]. rewrite N.eqb_refl. now rewrite Hu.
  - cbn [app]. unfold parseFloat. rewrite (split_sign_digit c r Hc).
    now rewrite Hu.
Qed.

(** The text of [k] digits laid out by [render] is read back as a decimal
    of the same value. *)
Lemma parseFloat_render (neg : bool) (s : Z) (k : nat) (n : Z) :
  (1 <= k)%nat -> (10 ^ (Z.of_nat k - 1) <= s < 10 ^ Z.of_nat k)%Z ->
  exists s' j,
    parseFloat (sign_text neg ++ render (digits_of k s) k n)
    = number_of neg (DFinite s' j) /\
    (0 < s')%Z /\
    (IZR s' * pw 10 j = IZR s * pw 10 (n - Z.of_nat k))%R.
Proof.
  intros Hk Hs.
  assert (Hs0 : (0 < s)%Z).
  { assert (0 < 10 ^ (Z.of_nat k - 1))%Z by (apply Z.pow_pos_nonneg; lia).
    lia. }
  pose proof (digits_of_digits k s) as Hd.
  pose proof (digits_of_length k s) as Hl.
  pose proof (digits_value_digits_of k s ltac:(lia)) as Hv.
  set (ds := digits_of k s) in *.
  destruct ds as [|c ds'] eqn:Eds; [cbn in Hl; lia|].
  assert (Hc : is_digit c = true) by now inversion Hd.
  assert (Hd' : all_digits ds') by now inversion Hd.
  cbn [length] in Hl.
  unfold render.
  destruct ((Z.of_nat k <=? n)%Z && (n <=? 21)%Z) eqn:R1.
  { (* the digits and zeros *)
    apply andb_true_iff in R1 as [R1 _]. apply Z.leb_le in R1.
    exists (s * 10 ^ Z.of_nat (Z.to_nat (n - Z.of_nat k)))%Z, 0%Z.
    split; [|split].
    - change ((c :: ds') ++ repeat zero_chr (Z.to_nat (n - Z.of_nat k)))
        with (c :: (ds' ++ repeat zero_chr (Z.to_nat (n - Z.of_nat k)))).
      apply (parseFloat_signed neg c _ _ []); [assumption|].
      rewrite unsigned_decimal_integer.
      + change (c :: ds' ++ repeat zero_chr (Z.to_nat (n - Z.of_nat k)))
          with ((c :: ds') ++ repeat zero_chr (Z.to_nat (n - Z.of_nat k))).
        now rewrite digits_value_app_zeros, Hv.
      + change (c :: ds' ++ repeat zero_chr (Z.to_nat (n - Z.of_nat k)))
          with ((c :: ds') ++ repeat zero_chr (Z.to_nat (n - Z.of_nat k))).
        apply all_digits_app; [assumption | apply all_digits_repeat].
    - apply Z.mul_pos_pos; [assumption|]. apply Z.pow_pos_nonneg; lia.
    - rewrite mult_IZR, <- pw_IZR by lia. rewrite Z2Nat.id by lia.
      rewrite pw_0. lra. }
  destruct ((0 <? n)%Z && (n <=? 21)%Z) eqn:R2.
  { (* a point inside the digits *)
    apply andb_true_iff in R2 as [R2 R2']. apply Z.ltb_lt in R2.
    apply Z.leb_le in R2'. apply andb_false_iff in R1.
    exists s, (n - Z.of_nat k)%Z. split; [|split; [assumption | reflexivity]].
    assert (Hn : exists n0, Z.to_nat n = S n0) by (exists (Z.to_nat (n - 1)); lia).
    destruct Hn as [n0 Hn]. rewrite Hn. cbn [firstn skipn].
    replace ((c :: firstn n0 ds') ++ js "." ++ skipn n0 ds')
      with (c :: firstn n0 ds' ++ chr "." :: skipn n0 ds' ++ [])
      by (now rewrite app_nil_r).
    apply (parseFloat_signed neg c _ _ []); [assumption|].
    rewrite unsigned_decimal_point;
      [ | constructor; [assumption | now apply all_digits_firstn]
        | now apply all_digits_skipn | reflexivity].
    cbn [exponent_part]. cbn [app]. rewrite firstn_skipn, Hv.
    rewrite length_skipn.
    destruct R1 as [R1 | R1].
    - apply Z.leb_gt in R1.
      replace (0 - Z.of_nat (length ds' - n0))%Z with (n - Z.of_nat k)%Z by lia.
      reflexivity.
    - apply Z.leb_gt in R1. exfalso. lia. }
  destruct ((-6 <? n)%Z && (n <=? 0)%Z) eqn:R3.
  { (* zeros before the digits *)
    apply andb_true_iff in R3 as [_ R3]. apply Z.leb_le in R3.
    exists s, (n - Z.of_nat k)%Z. split; [|split; [assumption | reflexivity]].
    replace (js "0." ++ repeat zero_chr (Z.to_nat (- n)) ++ c :: ds')
      with (zero_chr :: [] ++ chr "."
              :: (repeat zero_chr (Z.to_nat (- n)) ++ c :: ds') ++ [])
      by (now rewrite app_nil_r).
    apply (parseFloat_signed neg zero_chr _ _ []); [reflexivity|].
    rewrite unsigned_decimal_point;
      [ | constructor; [reflexivity | constructor]
        | apply all_digits_app; [apply all_digits_repeat | assumption]
        | reflexivity].
    cbn [exponent_part].
    change ((zero_chr :: []) ++ repeat zero_chr (Z.to_nat (- n)) ++ c :: ds')
      with (repeat zero_chr (S (Z.to_nat (- n))) ++ c :: ds').
    rewrite digits_value_zeros, Hv.
    rewrite length_app, repeat_length. cbn [length].
    replace (0 - Z.of_nat (Z.to_nat (- n) + S (length ds')))%Z
      with (n - Z.of_nat k)%Z by lia.
    reflexivity. }
  exists s, (n - Z.of_nat k)%Z. split; [|split; [assumption | reflexivity]].
  destruct (Nat.eqb_spec k 1) as [K1 | K1].
  - (* one digit and an exponent *)
    assert (ds' = []) by (destruct ds'; [reflexivity | cbn in Hl; lia]).
    subst ds'.
    change ([c] ++ js "e" ++ exponent_text (n - 1))
      with (c :: [] ++ (js "e" ++ exponent_text (n - 1))).
    pose proof (exponent_part_text (n - 1)) as Hx.
    pose proof (unsigned_decimal_integer_tail c []
                  (js "e" ++ exponent_text (n - 1)) Hd eq_refl eq_refl) as Hu.
    rewrite Hx in Hu.
    rewrite (parseFloat_signed neg c _ _ [] Hc Hu).
    rewrite Hv. replace (n - Z.of_nat k)%Z with (n - 1)%Z by lia.
    reflexivity.
  - (* a digit, a point, digits and an exponent *)
    change (firstn 1 (c :: ds')) with [c]. change (skipn 1 (c :: ds')) with ds'.
    replace ([c] ++ js "." ++ ds' ++ js "e" ++ exponent_text (n - 1))
      with (c :: [] ++ chr "." :: ds' ++ (js "e" ++ exponent_text (n - 1)))
      by reflexivity.
    pose proof (unsigned_decimal_point c [] ds'
                  (js "e" ++ exponent_text (n - 1))
                  ltac:(now constructor) Hd' eq_refl) as Hu.
    rewrite exponent_part_text in Hu. cbn [app] in Hu. cbn [app].
    rewrite (parseFloat_signed neg c _ _ [] Hc Hu).
    rewrite Hv.
    replace (n - 1 - Z.of_nat (length ds'))%Z with (n - Z.of_nat k)%Z by lia.
    reflexivity.
Qed.

(** The text of a normal number that a decimal of twelve digits denotes is
    read back as the number. *)
Lemma parseFloat_toString (y : float) (neg : bool) (m : positive) (e N j : Z) :
  Prim2SF y = S754_finite neg m e ->
  (2 ^ 52 <= Zpos m < 2 ^ 53)%Z -> (-1074 <= e <= 971)%Z ->
  (10 ^ 11 <= N < 10 ^ 12)%Z ->
  reads_as (S754_finite false m e) N j = true ->
  parseFloat (toString y) = y.
Proof.
  intros Hy Hm He HN HR.
  pose proof (shortest_spec m e Hm He N j HN HR 20 1
                ltac:(lia) ltac:(lia) ltac:(intros; lia)) as Hsp.
  cbn zeta in Hsp.
  unfold toString. rewrite Hy.
  destruct (fraction_of m e) as [a b]. cbn [fst snd] in Hsp.
  destruct (shortest 20 1 (S754_finite false m e) a b (decimal_exponent a b))
    as [[s k] n]. cbn [fst snd] in Hsp.
  destruct Hsp as (Hk & Hs10 & _ & Hval).
  destruct (parseFloat_render neg s k n ltac:(lia) Hs10)
    as (s' & j' & Hp & Hs' & Hv').
  rewrite Hp.
  rewrite (reads_as_number_of neg m e s' j').
  - rewrite <- Hy. apply SF2Prim_Prim2SF.
  - rewrite <- HR. apply reads_as_same_value; [assumption | lia|].
    now rewrite Hv'.
Qed.

(** The number behind a shown result: the result of the engine rounded to
    twelve significant digits, and zero below [1e-12]. *)
Lemma parseFloat_formatted (v : float) :
  is_finite v = true ->
  parseFloat (formatted v)
  = Number (toPrecision (if (abs v <? epsilon)%float then 0%float else v) 12).
Proof.
  intros Hfin. unfold formatted.
  destruct (abs v <? epsilon)%float eqn:Hs.
  - vm_compute. reflexivity.
  - destruct (finite_input v Hfin Hs) as (neg & m & e & Hv & Hy).
    destruct (Number_toPrecision v neg m e Hv Hy)
      as (m' & e' & Hx & Hm' & He' & HR).
    destruct (fraction_of_spec m e) as (Ha & Hb & Hfr).
    unfold frac in Hfr.
    assert (Hy' : (pw 2 (-41) <= IZR (fst (fraction_of m e))
                                 / IZR (snd (fraction_of m e)) <= max_value)%R)
      by now rewrite Hfr.
    pose proof (precision_digits_spec _ _ Hb Hy') as (HN & _ & _).
    cbn zeta in HN.
    exact (parseFloat_toString _ neg m' e' _ _ Hx Hm' He' HN HR).
Qed.

(** X13.  M+ and M- read the display, not the engine: when the engine
    returns a finite number for the expression (or for [0] when it is
    empty), the memory moves by the number that the shown text denotes, the
    result rounded to twelve significant digits, and zero when the result
    is below [1e-12] in magnitude. *)
Theorem memory_moves_by_shown_number
  (run : AngleUnit -> jsstring -> Completion) (st : State) (x : float) :
  zeroDivisionCheck (cleanExpr (orZero (expression st))) = false ->
  run (angleUnit st) (cleanExpr (orZero (expression st)))
  = Return (JsNumber x) ->
  is_finite x = true ->
  let shown :=
    Number (toPrecision (if (abs x <? epsilon)%float then 0%float else x) 12) in
  calculate run (angleUnit st) (orZero (expression st)) = toString shown /\
  memory (handleMemoryAdd run st) = (memory st + shown)%float /\
  memory (handleMemorySubtract run st) = (memory st - shown)%float.
Proof.
  intros Hc Hr Hf shown.
  assert (Hne : orZero (expression st) <> []).
  { unfold orZero. destruct (expression st); discriminate. }
  assert (E : calculate run (angleUnit st) (orZero (expression st))
              = formatted x).
  { rewrite (calculate_branches run _ _ Hne), Hc, Hr.
    now rewrite (finite_not_nan x Hf), Hf. }
  split; [rewrite E; reflexivity|].
  unfold handleMemoryAdd, handleMemorySubtract. cbv zeta. rewrite E.
  rewrite formatted_not_label, str_eqb_nil.
  pose proof (formatted_not_empty x) as G. apply isEmpty_false in G.
  rewrite G. cbn [negb andb memory setMemory].
  now rewrite (parseFloat_formatted x Hf).
Qed.

(** ** The guard on the first key *)

Lemma handleOperator_expression (run : AngleUnit -> jsstring -> Completion)
  (op : jsstring) (st : State) :
  expression (handleOperator run op st) =
  let base := if isErrorLabel (expression st) then js "0" else expression st in
  if isEmpty base && negb (includes startingOperators op) then base
  else if test trailingOperator base && test anOperator op
  then slice_to_minus 1 base ++ op
  else base ++ op.
Proof.
  unfold handleOperator. cbv zeta.
  destruct (isEmpty _ && negb _); [reflexivity|].
  destruct (test trailingOperator _ && test anOperator op); reflexivity.
Qed.

(** X14.  The guard on the first key looks at the empty expression only.
    On an empty expression the keys [+], [×], [÷], [^] and [%] change
    nothing; but after the minus key, which may come first, the keys [+],
    [×] and [÷] take the place of the minus, and the expression then starts
    with a binary operator. *)
Theorem leading_operator_guard (run : AngleUnit -> jsstring -> Completion)
  (now now' : Z) (st : State) :
  expression st = [] ->
  (forall k, In k [KeyPlus; KeyTimes; KeyDivide; KeyPower; KeyPercent] ->
     press run now k st = st) /\
  (forall k op,
     In (k, op) [(KeyPlus, js "+"); (KeyTimes, js "×"); (KeyDivide, js "÷")] ->
     expression (press run now KeyMinus st) = js "-" /\
     expression (press run now' k (press run now KeyMinus st)) = op).
Proof.
  intros E. split.
  - intros k Hk.
    repeat destruct Hk as [<- | Hk]; try contradiction;
      unfold press, button, handleBtnClick, handleOperator; cbv zeta;
      rewrite E; change (isErrorLabel []) with false; cbv iota;
      match goal with
      | |- context [isEmpty [] && negb (includes startingOperators ?op)] =>
          change (isEmpty [] && negb (includes startingOperators op)) with true
      end; cbv iota; destruct st; cbn in E |- *; now subst.
  - intros k op Hk.
    assert (M : expression (press run now KeyMinus st) = js "-").
    { unfold press, button, handleBtnClick.
      rewrite handleOperator_expression, E. reflexivity. }
    split; [exact M|].
    repeat destruct Hk as [Hk | Hk]; try contradiction;
      injection Hk as <- <-;
      unfold press at 1, button, handleBtnClick;
      rewrite handleOperator_expression, M; reflexivity.
Qed.

(** ** Error texts and typed texts *)

Lemma keyedb_keyed (s : jsstring) : keyedb s = true <-> keyed s.
Proof.
  unfold keyedb, keyed. rewrite forallb_forall, Forall_forall.
  split; intros H c Hc; specialize (H c Hc).
  - intros Hin. apply negb_true_iff in H.
    assert (T : existsb (N.eqb c) labelLetters = true).
    { apply existsb_exists. exists c. split; [assumption | apply N.eqb_refl]. }
    congruence.
  - apply negb_true_iff. destruct (existsb (N.eqb c) labelLetters) eqn:E;
      [|reflexivity].
    exfalso. apply H. apply existsb_exists in E as (y & Hy & E).
    apply N.eqb_eq in E. now subst y.
Qed.

Ltac keyed_text := apply keyedb_keyed; reflexivity.

Lemma keyed_app (a b : jsstring) : keyed a -> keyed b -> keyed (a ++ b).
Proof. intros Ha Hb. apply Forall_app. now split. Qed.

Lemma keyed_firstn (n : nat) (s : jsstring) : keyed s -> keyed (firstn n s).
Proof.
  intros H. unfold keyed in *. rewrite <- (firstn_skipn n s) in H.
  now apply Forall_app in H.
Qed.

Lemma keyed_skipn (n : nat) (s : jsstring) : keyed s -> keyed (skipn n s).
Proof.
  intros H. unfold keyed in *. rewrite <- (firstn_skipn n s) in H.
  now apply Forall_app in H.
Qed.

Lemma keyed_digits (s : jsstring) : all_digits s -> keyed s.
Proof.
  intros H. unfold keyed, all_digits in *. rewrite Forall_forall in *.
  intros c Hc Hin. specialize (H c Hc).
  repeat destruct Hin as [<- | Hin]; try contradiction; discriminate H.
Qed.

Lemma keyed_exponent_text (e : Z) : keyed (exponent_text e).
Proof.
  unfold exponent_text. destruct (0 <=? e)%Z; apply keyed_app;
    try keyed_text; apply keyed_digits, decimal_digits.
Qed.

Lemma keyed_render (ds : jsstring) (k : nat) (n : Z) :
  all_digits ds -> keyed (render ds k n).
Proof.
  intros H. pose proof (keyed_digits ds H) as K. unfold render.
  destruct ((Z.of_nat k <=? n) && (n <=? 21))%Z.
  { apply keyed_app; [assumption|]. apply keyed_digits, all_digits_repeat. }
  destruct ((0 <? n) && (n <=? 21))%Z.
  { apply keyed_app; [now apply keyed_firstn|].
    apply keyed_app; [keyed_text | now apply keyed_skipn]. }
  destruct ((-6 <? n) && (n <=? 0))%Z.
  { apply keyed_app; [keyed_text|].
    apply keyed_app; [|assumption]. apply keyed_digits, all_digits_repeat. }
  destruct (k =? 1)%nat.
  { apply keyed_app; [assumption|].
    apply keyed_app; [keyed_text | apply keyed_exponent_text]. }
  apply keyed_app; [now apply keyed_firstn|].
  apply keyed_app; [keyed_text|].
  apply keyed_app; [now apply keyed_skipn|].
  apply keyed_app; [keyed_text | apply keyed_exponent_text].
Qed.

(** No number is printed with one of the letters. *)
Lemma keyed_toString (x : float) : keyed (toString x).
Proof.
  unfold toString. destruct (Prim2SF x) as [neg | neg | | neg m e].
  - keyed_text.
  - destruct neg; keyed_text.
  - keyed_text.
  - destruct (fraction_of m e) as [a b].
    destruct (shortest 20 1 (S754_finite false m e) a b (decimal_exponent a b))
      as [[s k] n].
    apply keyed_app; [destruct neg; keyed_text|].
    apply keyed_render, digits_of_digits.
Qed.

(** Every error text has one. *)
Lemma keyed_not_label (s : jsstring) : keyed s -> isErrorLabel s = false.
Proof.
  intros H. apply includes_false. intros Hin. apply keyedb_keyed in H.
  repeat destruct Hin as [<- | Hin]; try contradiction; discriminate H.
Qed.

Lemma Key_eq_equals (k : Key) : k = KeyEquals \/ k <> KeyEquals.
Proof. destruct k; (now left) || (right; discriminate). Qed.

Section ErrorTexts.

Variable run : AngleUnit -> jsstring -> Completion.

Lemma keyed_base (st : State) (zero : jsstring) :
  expression_ok st -> keyed zero ->
  keyed (if isErrorLabel (expression st) then zero else expression st).
Proof.
  intros [H | H] Hz.
  - now rewrite H.
  - now rewrite (keyed_not_label _ H).
Qed.

Lemma keyed_handleInput (val : jsstring) (st : State) :
  expression_ok st -> keyed val ->
  keyed (expression (handleInput run val st)).
Proof.
  intros H Hv. unfold handleInput. cbv zeta. cbn [expression setExpression].
  apply keyed_app; [|assumption]. apply keyed_base; [assumption | constructor].
Qed.

Lemma keyed_handleOperator (op : jsstring) (st : State) :
  expression_ok st -> keyed op ->
  keyed (expression (handleOperator run op st)).
Proof.
  intros H Ho. rewrite handleOperator_expression. cbv zeta.
  pose proof (keyed_base st (js "0") H ltac:(keyed_text)) as B.
  destruct (isEmpty _ && negb _); [assumption|].
  destruct (test trailingOperator _ && test anOperator op).
  - apply keyed_app; [|assumption]. unfold slice_to_minus.
    now apply keyed_firstn.
  - now apply keyed_app.
Qed.

Lemma keyed_handleBackspace (st : State) :
  expression_ok st -> keyed (expression (handleBackspace run st)).
Proof.
  intros [H | H]; unfold handleBackspace; cbv zeta.
  - rewrite H. constructor.
  - rewrite (keyed_not_label _ H). cbn [expression setExpression].
    destruct (_ || _); [|destruct (_ || _)]; unfold slice_to_minus;
      now apply keyed_firstn.
Qed.

Lemma keyed_signToggle (st : State) :
  expression_ok st -> keyed (expression (signToggle st)).
Proof.
  intros H. unfold signToggle. cbv zeta.
  pose proof (keyed_base st [] H ltac:(constructor)) as B.
  destruct (startsWith _ _); [|destruct (isEmpty _)];
    cbn [expression setExpression].
  - unfold slice_from. now apply keyed_skipn.
  - keyed_text.
  - apply keyed_app; [keyed_text | assumption].
Qed.

(** A key other than equals leaves the expression as it is or writes a
    text without the letters. *)
Lemma press_keyed (now : Z) (k : Key) (st : State) :
  expression_ok st -> k <> KeyEquals ->
  expression (press run now k st) = expression st \/
  keyed (expression (press run now k st)).
Proof.
  intros H Hk.
  destruct k; try congruence; unfold press, button, handleBtnClick;
    try (left; reflexivity);
    try (right; apply keyed_handleInput; [assumption | keyed_text]);
    try (right; apply keyed_handleOperator; [assumption | keyed_text]).
  - (* MR *) right. unfold handleMemoryRecall. cbv zeta.
    cbn [expression setExpression].
    apply keyed_app; [|apply keyed_toString].
    apply keyed_base; [assumption | constructor].
  - (* M+ *) left. unfold handleMemoryAdd. cbv zeta.
    now destruct (negb _ && negb _).
  - (* M- *) left. unfold handleMemorySubtract. cbv zeta.
    now destruct (negb _ && negb _).
  - (* C *) right. constructor.
  - (* ( ) *) right. unfold parenKey. cbv zeta.
    destruct (_ && _); apply keyed_handleInput; try assumption; keyed_text.
  - (* a digit *) right. apply keyed_handleInput; [assumption|].
    destruct d; keyed_text.
  - (* +/- *) right. now apply keyed_signToggle.
  - (* backspace *) right. now apply keyed_handleBackspace.
Qed.

Lemma expression_ok_press (now : Z) (k : Key) (st : State) :
  expression_ok st -> expression_ok (press run now k st).
Proof.
  intros H. destruct (Key_eq_equals k) as [-> | Hk].
  - change (press run now KeyEquals st) with (handleEquals run now st).
    destruct (handleEquals_cases run now st)
      as [E | [(l & Hl & E) | (_ & _ & _ & x & _ & _ & E)]]; rewrite E.
    + exact H.
    + left. cbn [expression setResultPreview setExpression].
      now apply includes_In.
    + right. cbn [expression setResultPreview setExpression].
      apply keyed_toString.
  - destruct (press_keyed now k st H Hk) as [E | K].
    + unfold expression_ok. now rewrite E.
    + now right.
Qed.

Lemma reachable_expression_ok (st : State) :
  reachable run st -> expression_ok st.
Proof.
  induction 1 as [|now k st _ IH|st _ IH].
  - right. constructor.
  - now apply expression_ok_press.
  - exact IH.
Qed.

End ErrorTexts.

(** X15.  An error text is never typed.  In the states the application can
    reach, a click after which the expression is one of the five error
    texts is a click on the equals key, or it left the expression as it
    was; so the comparison with the five texts, by which every handler
    recognises the error state, never takes a typed expression or a printed
    number for an error. *)
Theorem error_text_only_from_equals
  (run : AngleUnit -> jsstring -> Completion) (now : Z) (k : Key)
  (st : State) :
  reachable run st ->
  isErrorLabel (expression (press run now k st)) = true ->
  k = KeyEquals \/ expression (press run now k st) = expression st.
Proof.
  intros H Hl. apply reachable_expression_ok in H.
  destruct (Key_eq_equals k) as [-> | Hk]; [now left|]. right.
  destruct (press_keyed run now k st H Hk) as [E | K]; [exact E|].
  apply keyed_not_label in K. congruence.
Qed.

(** ** Concrete runs of the further properties *)

Lemma cleanExpr_no_glyph_witness :
  In (chr "π") (js "×÷%π^e") /\ ~ In (chr "π") (cleanExpr (js "2×π")).
Proof.
  split; [vm_compute; intuition congruence|].
  apply cleanExpr_no_glyph. vm_compute. intuition congruence.
Defined.

Lemma preview_never_error_witness :
  resultPreview
    (press arithmeticEngine 0 (KeyDigit D3)
       (press arithmeticEngine 0 KeyPlus
          (press arithmeticEngine 0 (KeyDigit D2) initialState)))
  = Some (js "5") /\
  isErrorLabel (js "5") = false.
Proof.
  split; [vm_compute; reflexivity|].
  apply (preview_never_error arithmeticEngine
           (press arithmeticEngine 0 (KeyDigit D3)
              (press arithmeticEngine 0 KeyPlus
                 (press arithmeticEngine 0 (KeyDigit D2) initialState)))
           (js "5")).
  - apply reach_press, reach_press, reach_press, reach_initial.
  - vm_compute. reflexivity.
Defined.

Lemma history_entries_are_results_witness :
  history
    (press arithmeticEngine 1700000000000 KeyEquals
       (press arithmeticEngine 0 (KeyDigit D3)
          (press arithmeticEngine 0 KeyTimes
             (press arithmeticEngine 0 (KeyDigit D2) initialState))))
  = [mkHistoryItem (js "2×3") (js "6") 1700000000000] /\
  zeroDivisionCheck (cleanExpr (js "2×3")) = false.
Proof.
  split; [vm_compute; reflexivity|].
  apply (history_entries_are_results arithmeticEngine
           (press arithmeticEngine 1700000000000 KeyEquals
              (press arithmeticEngine 0 (KeyDigit D3)
                 (press arithmeticEngine 0 KeyTimes
                    (press arithmeticEngine 0 (KeyDigit D2) initialState))))
           (mkHistoryItem (js "2×3") (js "6") 1700000000000)).
  - apply reach_press, reach_press, reach_press, reach_press, reach_initial.
  - vm_compute. left. reflexivity.
Defined.

Lemma backspace_undoes_key_witness :
  isErrorLabel (expression (stateOf "12+" 0)) = false /\
  expression (press arithmeticEngine 0 (KeyDigit D3) (stateOf "12+" 0))
  = js "12+3" /\
  expression
    (press arithmeticEngine 0 KeyBackspace
       (press arithmeticEngine 0 (KeyDigit D3) (stateOf "12+" 0)))
  = expression (stateOf "12+" 0).
Proof.
  split; [vm_compute; reflexivity|].
  split; [vm_compute; reflexivity|].
  apply (backspace_undoes_key arithmeticEngine 0 0 (KeyDigit D3)
           (stateOf "12+" 0)).
  - vm_compute. reflexivity.
  - vm_compute. intuition congruence.
Defined.

Lemma parenKey_balance_witness :
  (count_chr (chr ")") (expression (stateOf "(2" 0))
   <= count_chr (chr "(") (expression (stateOf "(2" 0)))%nat /\
  expression (parenKey arithmeticEngine (stateOf "(2" 0)) = js "(2)" /\
  (count_chr (chr ")") (expression (parenKey arithmeticEngine (stateOf "(2" 0)))
   <= count_chr (chr "(")
        (expression (parenKey arithmeticEngine (stateOf "(2" 0))))%nat.
Proof.
  split; [vm_compute; lia|].
  split; [vm_compute; reflexivity|].
  apply (parenKey_balance arithmeticEngine (stateOf "(2" 0)).
  vm_compute. lia.
Defined.

Lemma cleanExpr_without_parenthesis_witness :
  ~ In (chr "(") (js "50%3") /\
  flat_map glyphText (js "50%3") = js "50/1003" /\
  cleanExpr (js "50%3") = flat_map glyphText (js "50%3").
Proof.
  split; [vm_compute; intuition congruence|].
  split; [vm_compute; reflexivity|].
  apply cleanExpr_without_parenthesis. vm_compute. intuition congruence.
Defined.

Lemma memory_moves_by_shown_number_witness :
  calculate arithmeticEngine deg (js "2÷3") = js "0.666666666667" /\
  memory (handleMemoryAdd arithmeticEngine (stateOf "2÷3" 1))
  = (1 + Number (js "0.666666666667"))%float /\
  (Number (js "0.666666666667") =? 2 / 3)%float = false.
Proof.
  split; [vm_compute; reflexivity|].
  split; [|vm_compute; reflexivity].
  exact (proj1 (proj2
    (memory_moves_by_shown_number arithmeticEngine (stateOf "2÷3" 1)
       (2 / 3)%float ltac:(vm_compute; reflexivity)
       ltac:(vm_compute; reflexivity) ltac:(vm_compute; reflexivity)))).
Defined.

Lemma leading_operator_guard_witness :
  expression initialState = [] /\
  press arithmeticEngine 0 KeyTimes initialState = initialState /\
  expression
    (press arithmeticEngine 0 KeyTimes
       (press arithmeticEngine 0 KeyMinus initialState))
  = js "×".
Proof.
  split; [reflexivity|]. split.
  - apply (proj1 (leading_operator_guard arithmeticEngine 0 0 initialState
                    eq_refl)).
    vm_compute. intuition congruence.
  - apply (proj2 (leading_operator_guard arithmeticEngine 0 0 initialState
                    eq_refl) KeyTimes (js "×")).
    right. left. reflexivity.
Defined.

Lemma error_text_only_from_equals_witness :
  isErrorLabel
    (expression
       (press arithmeticEngine 0 KeyEquals
          (press arithmeticEngine 0 KeyPlus
             (press arithmeticEngine 0 (KeyDigit D2) initialState))))
  = true /\
  expression
    (press arithmeticEngine 0 KeyEquals
       (press arithmeticEngine 0 KeyPlus
          (press arithmeticEngine 0 (KeyDigit D2) initialState)))
  = js "Invalid format" /\
  (KeyEquals = KeyEquals \/
   expression
     (press arithmeticEngine 0 KeyEquals
        (press arithmeticEngine 0 KeyPlus
           (press arithmeticEngine 0 (KeyDigit D2) initialState)))
   = expression
       (press arithmeticEngine 0 KeyPlus
          (press arithmeticEngine 0 (KeyDigit D2) initialState))).
Proof.
  split; [vm_compute; reflexivity|].
  split; [vm_compute; reflexivity|].
  apply (error_text_only_from_equals arithmeticEngine 0 KeyEquals
           (press arithmeticEngine 0 KeyPlus
              (press arithmeticEngine 0 (KeyDigit D2) initialState))).
  - apply reach_press, reach_press, reach_initial.
  - vm_compute. reflexivity.
Defined.
